(** * Coordination tools of the agent runtime: a verification development

    The development embeds four of the repository's tools and states the
    properties of their specification as theorems over the embedding:

    - [TaskQueue]       task-queue-tool.ts       (all eight actions)
    - [AgentBoard]      agent-board-tool.ts      (post / read / list / clear, the board directory)
    - [KnowledgeStore]  knowledge-store-tool.ts  (set / get / delete / list / categories)
    - [Workflow]        workflow-tool.ts         (validation, admission, checkpoints, the three
                                                  executors, the polling loop of a step)

    Each tool has a module with its definitions, translated from the source,
    and a module [...Facts] with the lemmas and theorems about them.

    Modelling conventions, shared by all modules.

    - A persisted JSON document is the value of its parsed content; a missing
      or unparsable file is [None], which the loaders turn into the declared
      empty value exactly as the [try { ... } catch { return ... }] loaders do.
      Storage itself is reliable: [fs.writeFile], [fs.unlink] do not throw.
    - [Date.now()] is an input.  Where an action reads the clock a bounded
      number of times the readings are arguments, in evaluation order; the
      workflow engine reads it through a [clock] indexed by the number of
      readings so far.
    - Tool parameters are taken as the helpers [readStringParam] and
      [readNumberParam] of common.ts deliver them: an optional string is
      [option string], an optional integer is [option Z].
    - JavaScript numbers that hold counters, ranks and millisecond timestamps
      are integers here ([Z]).
    - Objects used as dictionaries ([Record<string, ...>]) are finite maps
      over their own properties ([gmap string]).  A read that finds no own
      property goes through the prototype chain: [checkpoint.completed[name]]
      in the workflow engine and [store[category]?.[key]] in the knowledge
      store see the members of [Object.prototype] under names such as
      [toString], [constructor] and [__proto__] ([Workflow.inherited],
      [KnowledgeStore.inherited]), and an assignment under [__proto__] sets
      the prototype instead of creating a property.  The realm is as the
      engine sets it up; a knowledge-store action whose category is itself
      read from [Object.prototype] works on a built-in object and is followed
      no further ([KnowledgeStore.OnBuiltin]).  Property order of such
      objects is not modelled, nor is the order in which [readdir] lists a
      directory: where a reply lists keys or files, the theorems speak of
      membership and counts only.
    - Strings are sequences of code units, one [ascii] each. *)

From Stdlib Require Import ZArith List String Ascii Bool Lia.
From stdpp Require Import base option list sorting gmap strings pretty.
Import ListNotations.
Local Open Scope Z_scope.
Set Warnings "-clear-no-such-hyp".

(** ** Untyped JSON payloads

    Task [data], task [result], knowledge [data] and the raw [tags] parameter
    cross the tools opaquely. *)

#[warnings="-register-all"]
Inductive json : Type :=
| JNull
| JBool (b : bool)
| JNum (n : Z)
| JStr (s : string)
| JArr (items : list json)
| JObj (fields : list (string * json)).

(** [Array.isArray(params.tags) ? params.tags.filter(t => typeof t === "string") : undefined] *)
Definition json_string (j : json) : option string :=
  match j with JStr s => Some s | _ => None end.

Definition read_tags (raw : option json) : option (list string) :=
  match raw with
  | Some (JArr items) => Some (omap json_string items)
  | _ => None
  end.

(** [...(tags?.length ? { tags } : {})]: the field is present only for a
    non-empty array. *)
Definition tags_field (tags : option (list string)) : option (list string) :=
  match tags with
  | Some (t :: ts) => Some (t :: ts)
  | _ => None
  end.

(** [Array.prototype.slice(start)] for an integer [start]. *)
Definition slice_from {A} (start : Z) (l : list A) : list A :=
  let len := Z.of_nat (length l) in
  let k := if start <? 0 then Z.max (len + start) 0 else Z.min start len in
  drop (Z.to_nat k) l.

(** [Array.prototype.slice(0, stop)] for an integer [stop]. *)
Definition slice_to {A} (stop : Z) (l : list A) : list A :=
  let len := Z.of_nat (length l) in
  let k := if stop <? 0 then Z.max (len + stop) 0 else Z.min stop len in
  take (Z.to_nat k) l.

(* ================================================================== *)
(** ** Task queue *)
(* ================================================================== *)

Module TaskQueue.

Inductive Priority : Type := low | normal | high.

Inductive TaskStatus : Type := pending | claimed | done | failed.

#[global] Instance TaskStatus_eq_dec : EqDecision TaskStatus.
Proof. solve_decision. Defined.

Record TaskRecord : Type := mkTask {
  id : string;
  task : string;
  data : option json;
  priority : Priority;
  status : TaskStatus;
  retries : Z;
  maxRetries : Z;
  createdAt : Z;
  updatedAt : Z;
  claimedAt : option Z;
  completedAt : option Z;
  result : option json;
  error : option string;
  tags : option (list string)
}.

Record QueueData : Type := mkQueue { tasks : list TaskRecord }.

(** The queue document on disk; [None] is a missing or unparsable file. *)
Definition QueueFile : Type := option QueueData.

Definition loadQueue (f : QueueFile) : QueueData :=
  match f with
  | Some q => q
  | None => mkQueue []
  end.

Definition saveQueue (q : QueueData) : QueueFile := Some q.

(** Field assignments [task.field = v] on a task object. *)
Definition set_status (v : TaskStatus) (t : TaskRecord) : TaskRecord :=
  mkTask (id t) (task t) (data t) (priority t) v (retries t) (maxRetries t)
         (createdAt t) (updatedAt t) (claimedAt t) (completedAt t) (result t)
         (error t) (tags t).

Definition set_retries (v : Z) (t : TaskRecord) : TaskRecord :=
  mkTask (id t) (task t) (data t) (priority t) (status t) v (maxRetries t)
         (createdAt t) (updatedAt t) (claimedAt t) (completedAt t) (result t)
         (error t) (tags t).

Definition set_updatedAt (v : Z) (t : TaskRecord) : TaskRecord :=
  mkTask (id t) (task t) (data t) (priority t) (status t) (retries t)
         (maxRetries t) (createdAt t) v (claimedAt t) (completedAt t)
         (result t) (error t) (tags t).

Definition set_claimedAt (v : option Z) (t : TaskRecord) : TaskRecord :=
  mkTask (id t) (task t) (data t) (priority t) (status t) (retries t)
         (maxRetries t) (createdAt t) (updatedAt t) v (completedAt t)
         (result t) (error t) (tags t).

Definition set_completedAt (v : option Z) (t : TaskRecord) : TaskRecord :=
  mkTask (id t) (task t) (data t) (priority t) (status t) (retries t)
         (maxRetries t) (createdAt t) (updatedAt t) (claimedAt t) v
         (result t) (error t) (tags t).

Definition set_result (v : option json) (t : TaskRecord) : TaskRecord :=
  mkTask (id t) (task t) (data t) (priority t) (status t) (retries t)
         (maxRetries t) (createdAt t) (updatedAt t) (claimedAt t)
         (completedAt t) v (error t) (tags t).

Definition set_error (v : option string) (t : TaskRecord) : TaskRecord :=
  mkTask (id t) (task t) (data t) (priority t) (status t) (retries t)
         (maxRetries t) (createdAt t) (updatedAt t) (claimedAt t)
         (completedAt t) (result t) v (tags t).

(** The JSON results of the actions, by their [status] discriminant. *)
Inductive Reply : Type :=
| Added (id task : string)
| Empty
| Claimed (id task : string) (data : option json) (priority : Priority)
          (retries : Z) (tags : option (list string))
| NotFound (id : string)
| Completed (id : string)
| Retrying (id : string) (retries maxRetries : Z)
| Failed (id : string) (retries : Z) (error : string)
| ResetToPending (id : string)
| Cleared (removed remaining : Z).

Definition reply_status (r : Reply) : string :=
  match r with
  | Added _ _ => "added"
  | Empty => "empty"
  | Claimed _ _ _ _ _ _ => "claimed"
  | NotFound _ => "not_found"
  | Completed _ => "completed"
  | Retrying _ _ _ => "retrying"
  | Failed _ _ _ => "failed"
  | ResetToPending _ => "reset_to_pending"
  | Cleared _ _ => "cleared"
  end.

(** [queue.tasks.find((t) => t.id === id)]: the first task with that id,
    together with its position; the object found is the one stored in the
    array, so an assignment to it is an update at that position. *)
Definition find_task (i : string) (q : QueueData) : option (nat * TaskRecord) :=
  list_find (λ t, id t = i) (tasks q).

Definition store_task (k : nat) (t : TaskRecord) (q : QueueData) : QueueData :=
  mkQueue (<[k := t]> (tasks q)).

(** *** add *)
Definition add (new_id task_ : string) (data_ : option json)
    (priority_ : option Priority) (maxRetries_ : option Z)
    (tags_ : option json) (now1 now2 : Z) (f : QueueFile) : Reply * QueueFile :=
  let record :=
    mkTask new_id task_ data_ (default normal priority_) pending 0
           (default 3 maxRetries_) now1 now2 None None None None
           (tags_field (read_tags tags_)) in
  let queue := loadQueue f in
  (Added (id record) (task record),
   saveQueue (mkQueue (tasks queue ++ [record]))).

(** *** claim *)
Definition priorityOrder (p : Priority) : Z :=
  match p with high => 0 | normal => 1 | low => 2 end.

(** The comparator
    [priorityOrder[a.priority] - priorityOrder[b.priority] || a.createdAt - b.createdAt]. *)
Definition compare_tasks (a b : TaskRecord) : Z :=
  let d := priorityOrder (priority a) - priorityOrder (priority b) in
  if d =? 0 then createdAt a - createdAt b else d.

(** [Array.prototype.sort] is stable; for a comparator that is a total
    preorder the result is the stable insertion sort below.  The elements
    carry their position in [queue.tasks], which stands for the object
    reference. *)
Fixpoint insert_sorted {A} (cmp : A → A → Z) (x : A) (l : list A) : list A :=
  match l with
  | [] => [x]
  | y :: l' => if cmp x y <=? 0 then x :: y :: l' else y :: insert_sorted cmp x l'
  end.

Fixpoint sort {A} (cmp : A → A → Z) (l : list A) : list A :=
  match l with
  | [] => []
  | x :: l' => insert_sorted cmp x (sort cmp l')
  end.

Fixpoint indexed_from (n : nat) (l : list TaskRecord) : list (nat * TaskRecord) :=
  match l with
  | [] => []
  | t :: l' => (n, t) :: indexed_from (S n) l'
  end.

Definition indexed (q : QueueData) : list (nat * TaskRecord) :=
  indexed_from 0 (tasks q).

Definition pending_sorted (q : QueueData) : list (nat * TaskRecord) :=
  sort (λ a b, compare_tasks (snd a) (snd b))
       (filter (λ kt, status (snd kt) = pending) (indexed q)).

Definition claim (now1 now2 : Z) (f : QueueFile) : Reply * QueueFile :=
  let queue := loadQueue f in
  match pending_sorted queue with
  | [] => (Empty, f)
  | (k, t) :: _ =>
    let t' := set_updatedAt now2 (set_claimedAt (Some now1) (set_status claimed t)) in
    (Claimed (id t') (task t') (data t') (priority t') (retries t')
             (tags_field (tags t')),
     saveQueue (store_task k t' queue))
  end.

(** *** complete *)
Definition complete (i : string) (result_ : option json) (now1 now2 : Z)
    (f : QueueFile) : Reply * QueueFile :=
  let queue := loadQueue f in
  match find_task i queue with
  | None => (NotFound i, f)
  | Some (k, t) =>
    let t' := set_result result_
                (set_updatedAt now2 (set_completedAt (Some now1) (set_status done t))) in
    (Completed i, saveQueue (store_task k t' queue))
  end.

(** *** fail *)
Definition fail (i : string) (error_ : option string) (now : Z)
    (f : QueueFile) : Reply * QueueFile :=
  let err := default "Unknown error" error_ in
  let queue := loadQueue f in
  match find_task i queue with
  | None => (NotFound i, f)
  | Some (k, t) =>
    let t1 := set_updatedAt now (set_error (Some err) (set_retries (retries t + 1) t)) in
    if retries t1 <? maxRetries t1 then
      let t2 := set_claimedAt None (set_status pending t1) in
      (Retrying i (retries t2) (maxRetries t2), saveQueue (store_task k t2 queue))
    else
      let t2 := set_status failed t1 in
      (Failed i (retries t2) err, saveQueue (store_task k t2 queue))
  end.

(** *** retry *)
Definition retry (i : string) (now : Z) (f : QueueFile) : Reply * QueueFile :=
  let queue := loadQueue f in
  match find_task i queue with
  | None => (NotFound i, f)
  | Some (k, t) =>
    let t' := set_updatedAt now (set_error None (set_claimedAt None (set_status pending t))) in
    (ResetToPending i, saveQueue (store_task k t' queue))
  end.

(** *** clear

    [cutoff] is [Date.now() - olderThanHours * 60 * 60 * 1000]; with a
    fractional [olderThanHours] it need not be an integer, so it is taken as
    computed. *)
Definition keep_on_clear (cutoff : Z) (t : TaskRecord) : Prop :=
  status t = pending ∨ status t = claimed ∨ cutoff < updatedAt t.

#[global] Instance keep_on_clear_dec cutoff t : Decision (keep_on_clear cutoff t).
Proof. unfold keep_on_clear. apply _. Defined.

Definition clear (cutoff : Z) (f : QueueFile) : Reply * QueueFile :=
  let queue := loadQueue f in
  let before := length (tasks queue) in
  let kept := filter (keep_on_clear cutoff) (tasks queue) in
  (Cleared (Z.of_nat before - Z.of_nat (length kept)) (Z.of_nat (length kept)),
   saveQueue (mkQueue kept)).

(** *** list and stats

    The two read-only actions.  [list] answers with the last [limit] tasks
    (default 50) among those of the given status, when one is given; [stats]
    with the total and the number of tasks per status. *)
Definition list_tasks (statusFilter : option TaskStatus) (limit_ : option Z)
    (f : QueueFile) : list TaskRecord :=
  let limit := default 50 limit_ in
  let queue := loadQueue f in
  let shown :=
    match statusFilter with
    | Some st => filter (λ t, status t = st) (tasks queue)
    | None => tasks queue
    end in
  slice_from (- limit) shown.

Record Stats : Type := mkStats {
  total : nat;
  n_pending : nat;
  n_claimed : nat;
  n_done : nat;
  n_failed : nat
}.

Definition count_status (st : TaskStatus) (q : QueueData) : nat :=
  length (filter (λ t, status t = st) (tasks q)).

Definition stats (f : QueueFile) : Stats :=
  let queue := loadQueue f in
  mkStats (length (tasks queue)) (count_status pending queue)
          (count_status claimed queue) (count_status done queue)
          (count_status failed queue).

(** *** Actions and runs *)
Inductive Action : Type :=
| Add (new_id task_ : string) (data_ : option json) (priority_ : option Priority)
      (maxRetries_ : option Z) (tags_ : option json) (now1 now2 : Z)
| Claim (now1 now2 : Z)
| Complete (i : string) (result_ : option json) (now1 now2 : Z)
| Fail (i : string) (error_ : option string) (now : Z)
| Retry (i : string) (now : Z)
| Clear (cutoff : Z).

Definition step (a : Action) (f : QueueFile) : Reply * QueueFile :=
  match a with
  | Add i t d p m g n1 n2 => add i t d p m g n1 n2 f
  | Claim n1 n2 => claim n1 n2 f
  | Complete i r n1 n2 => complete i r n1 n2 f
  | Fail i e n => fail i e n f
  | Retry i n => retry i n f
  | Clear c => clear c f
  end.

(** The replies of a sequence of actions, and the file it leaves. *)
Fixpoint run (tr : list Action) (f : QueueFile) : list Reply * QueueFile :=
  match tr with
  | [] => ([], f)
  | a :: tr' =>
    let '(r, f1) := step a f in
    let '(rs, f2) := run tr' f1 in
    (r :: rs, f2)
  end.

(** Files reachable from the absent file. *)
Inductive reachable : QueueFile → Prop :=
| reach_init : reachable None
| reach_step a f : reachable f → reachable (snd (step a f)).

(** The order the comparator decides, refined by position: [a] goes before
    [b] when it compares smaller, or compares equal and stands earlier in
    [queue.tasks]. *)
Definition goes_before (a b : nat * TaskRecord) : Prop :=
  compare_tasks (snd a) (snd b) < 0
  ∨ (compare_tasks (snd a) (snd b) = 0 ∧ (fst a ≤ fst b)%nat).

(** The first task carrying id [i] has made [r] failures out of [n]. *)
Definition tracked (i : string) (r n : Z) (f : QueueFile) : Prop :=
  ∃ k t, find_task i (loadQueue f) = Some (k, t) ∧ retries t = r ∧ maxRetries t = n.

Definition is_clear (a : Action) : bool :=
  match a with Clear _ => true | _ => false end.

Definition is_fail_of (i : string) (a : Action) : bool :=
  match a with Fail j _ _ => bool_decide (j = i) | _ => false end.

(** The replies to the fails of [i] along a run, in order. *)
Fixpoint fail_replies (i : string) (tr : list Action) (f : QueueFile) : list Reply :=
  match tr with
  | [] => []
  | a :: tr' =>
    let '(r, f1) := step a f in
    if is_fail_of i a then r :: fail_replies i tr' f1 else fail_replies i tr' f1
  end.

(** The fail rule as the specification's note words it: with [maxRetries = N]
    the first [N] fails give [retrying], the one after gives [failed]. *)
Definition noted_fail_status (N : Z) (nth : Z) : string :=
  if nth <=? N then "retrying" else "failed".

(** *** The transition table of the specification *)

Inductive Event : Type := EvClaim | EvComplete | EvFail | EvRetry.

(** The rows of the table (from, event, to). *)
Definition spec_transition (from : TaskStatus) (e : Event) (to : TaskStatus) : bool :=
  match from, e, to with
  | pending, EvClaim, claimed => true
  | claimed, EvComplete, done => true
  | claimed, EvFail, pending => true
  | claimed, EvFail, failed => true
  | failed, EvRetry, pending => true
  | _, _, _ => false
  end.

Definition event_of (a : Action) : option Event :=
  match a with
  | Claim _ _ => Some EvClaim
  | Complete _ _ _ _ => Some EvComplete
  | Fail _ _ _ => Some EvFail
  | Retry _ _ => Some EvRetry
  | _ => None
  end.

(** Conformance as C2 states it: whenever claim, complete, fail or retry
    changes the task at a position of a reachable queue, (old status, event,
    new status) is a row of the table. *)
Definition conforms_to_table : Prop :=
  ∀ f a e k t t',
    reachable f → event_of a = Some e →
    tasks (loadQueue f) !! k = Some t →
    tasks (loadQueue (snd (step a f))) !! k = Some t' →
    t' ≠ t →
    spec_transition (status t) e (status t') = true.

(** The invariant of the data model on one task. *)
Definition task_inv (t : TaskRecord) : Prop :=
  (status t = claimed → is_Some (claimedAt t))
  ∧ (status t = done → is_Some (completedAt t))
  ∧ (status t = failed → maxRetries t ≤ retries t).

(** *** The task an action addresses, and what no action assigns *)

(** The id that complete, fail and retry look up. *)
Definition target_id (a : Action) : option string :=
  match a with
  | Complete i _ _ _ => Some i
  | Fail i _ _ => Some i
  | Retry i _ => Some i
  | _ => None
  end.

(** The fields written once, by add: no other action assigns them. *)
Definition fixed_fields (t : TaskRecord)
  : string * string * option json * Priority * Z * Z * option (list string) :=
  (id t, task t, data t, priority t, maxRetries t, createdAt t, tags t).

End TaskQueue.

(* ================================================================== *)
(** ** Message board *)
(* ================================================================== *)

Module AgentBoard.

Record BoardMessage : Type := mkMessage {
  id : string;
  board : string;
  from : string;
  message : string;
  timestamp : Z;
  tags : option (list string)
}.

(** A board log as [readBoard] sees it after [raw.split("\n").filter(Boolean)]:
    one entry per non-empty line, [None] for a line [JSON.parse] rejects.
    The file itself may be missing. *)
Definition BoardFile : Type := option (list (option BoardMessage)).

Definition readBoard (f : BoardFile) : list BoardMessage :=
  match f with
  | Some lines => omap (λ m, m) lines
  | None => []
  end.

(** A message as the read reply lists it; [timestamp] is rendered by
    [new Date(m.timestamp).toISOString()] at the JSON boundary. *)
Record MessageView : Type := mkView {
  view_id : string;
  view_from : string;
  view_message : string;
  view_timestamp : Z;
  view_tags : option (list string)
}.

Definition view (m : BoardMessage) : MessageView :=
  mkView (id m) (from m) (message m) (timestamp m) (tags_field (tags m)).

Record ReadReply : Type := mkReadReply {
  status : string;
  reply_board : string;
  count : nat;
  messages : list MessageView
}.

(** *** post

    [new_id] is the id minted from the clock and [Math.random()], [now] the
    clock reading taken for [timestamp]; the message is appended as one more
    line, which creates the log when it is missing. *)
Definition post (new_id board_ message_ : string) (from_ : option string)
    (tags_ : option json) (now : Z) (f : BoardFile) : string * BoardFile :=
  let msg := mkMessage new_id board_ (default "anonymous" from_) message_ now
                       (tags_field (read_tags tags_)) in
  (id msg, Some (default [] f ++ [Some msg])).

(** *** clear: the log is deleted; its absence is not an error. *)
Definition clear (f : BoardFile) : string * BoardFile :=
  match f with
  | Some _ => ("cleared", None)
  | None => ("ok", None)
  end.

(** *** read *)
Section Read.

(** [new Date(sinceStr).getTime()], [None] when it is [NaN]. *)
Variable parseDate : string → option Z.

Definition since_filter (sinceStr : option string) (msgs : list BoardMessage)
  : list BoardMessage :=
  match sinceStr with
  | None => msgs
  | Some s =>
    if decide (s = "") then msgs
    else if decide (s = "last_read") then msgs
    else match parseDate s with
         | Some sinceMs => filter (λ m, sinceMs < timestamp m) msgs
         | None => msgs
         end
  end.

Definition read (board_ : string) (sinceStr : option string) (limit_ : option Z)
    (f : BoardFile) : ReadReply :=
  let limit := default 50 limit_ in
  let msgs := readBoard f in
  let msgs := since_filter sinceStr msgs in
  let msgs := slice_from (- limit) msgs in
  mkReadReply "ok" board_ (length msgs) (view <$> msgs).

End Read.

(** *** The board directory *)

(** [board.replace(/[^a-zA-Z0-9_-]/g, "_")], one character per code unit. *)
Definition is_safe_char (c : ascii) : bool :=
  let n := nat_of_ascii c in
  ((97 <=? n) && (n <=? 122) || (65 <=? n) && (n <=? 90)
   || (48 <=? n) && (n <=? 57) || (n =? 95) || (n =? 45))%nat.

Fixpoint safe_name (board_ : string) : string :=
  match board_ with
  | EmptyString => EmptyString
  | String c s => String (if is_safe_char c then c else "_"%char) (safe_name s)
  end.

Fixpoint all_safe (s : string) : bool :=
  match s with
  | EmptyString => true
  | String c s' => is_safe_char c && all_safe s'
  end.

(** [boardPath], as a file name inside [boardDir()]. *)
Definition boardPath (board_ : string) : string := safe_name board_ +:+ ".jsonl".

(** The files of [boardDir()] by name, each as [readBoard] splits it into
    lines.  A missing directory holds no files: [readFile], [readdir] and
    [unlink] fail the same way on it, and [ensureBoardDir] creates it before
    the first append. *)
Abbreviation BoardDir := (gmap string (list (option BoardMessage))).

Definition write_file (path : string) (f : BoardFile) (d : BoardDir) : BoardDir :=
  match f with
  | Some lines => <[path := lines]> d
  | None => delete path d
  end.

Definition post_to (new_id board_ message_ : string) (from_ : option string)
    (tags_ : option json) (now : Z) (d : BoardDir) : string * BoardDir :=
  let r := post new_id board_ message_ from_ tags_ now (d !! boardPath board_) in
  (fst r, write_file (boardPath board_) (snd r) d).

Definition clear_board (board_ : string) (d : BoardDir) : string * BoardDir :=
  let r := clear (d !! boardPath board_) in
  (fst r, write_file (boardPath board_) (snd r) d).

Definition read_board (parseDate : string → option Z) (board_ : string)
    (sinceStr : option string) (limit_ : option Z) (d : BoardDir) : ReadReply :=
  read parseDate board_ sinceStr limit_ (d !! boardPath board_).

(** *** list

    [String.prototype.endsWith] and [String.prototype.replace] with a string
    pattern, which replaces the first occurrence only. *)
Fixpoint ends_with (suffix s : string) : bool :=
  bool_decide (s = suffix)
  || match s with
     | EmptyString => false
     | String _ s' => ends_with suffix s'
     end.

Fixpoint drop_chars (n : nat) (s : string) : string :=
  match n, s with
  | S n', String _ s' => drop_chars n' s'
  | _, _ => s
  end.

Fixpoint remove_first (pat s : string) : string :=
  if String.prefix pat s then drop_chars (String.length pat) s
  else match s with
       | EmptyString => EmptyString
       | String c s' => String c (remove_first pat s')
       end.

(** [files.filter((f) => f.endsWith(".jsonl")).map((f) => f.replace(".jsonl", ""))].
    [readdir] fixes no order; the names are listed here in the order of the
    map's keys. *)
Definition list_boards (d : BoardDir) : list string :=
  remove_first ".jsonl"
    <$> filter (λ f, ends_with ".jsonl" f = true) (elements (dom d)).

(** Sequences of posts and clears, from an empty directory. *)
Inductive BoardAction : Type :=
| Post (new_id board_ message_ : string) (from_ : option string)
       (tags_ : option json) (now : Z)
| Clear (board_ : string).

Definition board_step (a : BoardAction) (d : BoardDir) : BoardDir :=
  match a with
  | Post i b m fr tg now => snd (post_to i b m fr tg now d)
  | Clear b => snd (clear_board b d)
  end.

Definition board_run (tr : list BoardAction) (d : BoardDir) : BoardDir :=
  foldl (λ d a, board_step a d) d tr.

(** The log is in clock order. *)
Definition chronological (f : BoardFile) : Prop :=
  StronglySorted Z.le (timestamp <$> readBoard f).

End AgentBoard.

(* ================================================================== *)
(** ** Knowledge store *)
(* ================================================================== *)

Module KnowledgeStore.

Record Entry : Type := mkEntry {
  data : json;
  createdAt : Z;
  updatedAt : Z;
  tags : option (list string)
}.

(** The store document [{category → {key → entry}}] on disk; [None] is a
    missing or unparsable file. *)
Definition StoreFile : Type := option (gmap string (gmap string Entry)).

Definition loadStore (f : StoreFile) : gmap string (gmap string Entry) :=
  match f with
  | Some store => store
  | None => ∅
  end.

Definition saveStore (store : gmap string (gmap string Entry)) : StoreFile :=
  Some store.

(** What the caller gets: a JSON reply, or the error the action throws.
    [OnBuiltin] stands for an action whose category is read from
    [Object.prototype] (see [read_category]): it works on a built-in
    object of the realm, and what it answers, throws and changes there is
    not followed. *)
Inductive Reply : Type :=
| Error (error : string)
| Created (category key : string)
| Updated (category key : string)
| NotFound (category key : string)
| Ok (category key : string) (data : json) (createdAt updatedAt : Z)
     (tags : option (list string))
| Deleted (category key : string)
| Thrown (error : string)
| OnBuiltin (member : string).

(** The [status] field of the reply; a thrown error carries none. *)
Definition reply_status (r : Reply) : string :=
  match r with
  | Error _ => "error"
  | Created _ _ => "created"
  | Updated _ _ => "updated"
  | NotFound _ _ => "not_found"
  | Ok _ _ _ _ _ _ => "ok"
  | Deleted _ _ => "deleted"
  | Thrown _ => EmptyString
  | OnBuiltin _ => EmptyString
  end.

(** *** Reading a dictionary object

    The store and its categories are plain objects: a read [obj[name]] that
    finds no own property goes on to [Object.prototype].  Its members are all
    truthy: functions and, under [__proto__], the prototype itself.  The
    realm is taken as the engine sets it up: nothing has been added to or
    removed from its built-in objects. *)
Definition object_prototype_members : list string :=
  ["constructor"; "hasOwnProperty"; "isPrototypeOf"; "propertyIsEnumerable";
   "toLocaleString"; "toString"; "valueOf"; "__proto__"; "__defineGetter__";
   "__defineSetter__"; "__lookupGetter__"; "__lookupSetter__"].

Definition inherited (name : string) : bool :=
  bool_decide (name ∈ object_prototype_members).

(** [store[category]]: a category object of the document, a built-in object
    read from the prototype, or [undefined]. *)
Inductive CategoryRead : Type :=
| OwnCategory (entries : gmap string Entry)
| BuiltinCategory
| NoCategory.

Definition read_category (category : string)
    (store : gmap string (gmap string Entry)) : CategoryRead :=
  match store !! category with
  | Some entries => OwnCategory entries
  | None => if inherited category then BuiltinCategory else NoCategory
  end.

(** [entries[key]] on a category object, and [store[category]?.[key]]: an
    entry held as an own property, a member of [Object.prototype], nothing,
    or a property of a built-in object. *)
Inductive EntryRead : Type :=
| OwnEntry (entry : Entry)
| InheritedMember
| NoEntry
| OfBuiltin.

Definition read_member (key : string) (entries : gmap string Entry) : EntryRead :=
  match entries !! key with
  | Some entry => OwnEntry entry
  | None => if inherited key then InheritedMember else NoEntry
  end.

Definition lookup_entry (category key : string) (f : StoreFile) : EntryRead :=
  match read_category category (loadStore f) with
  | OwnCategory entries => read_member key entries
  | BuiltinCategory => OfBuiltin
  | NoCategory => NoEntry
  end.

(** [entries[key] = entry] on a category object.  The name [__proto__],
    when it is not an own property, reaches the setter of
    [Object.prototype]: the prototype of the category object becomes the
    entry and no property is created, so nothing of it is serialised. *)
Definition assign_member (key : string) (entry : Entry)
    (entries : gmap string Entry) : gmap string Entry :=
  if decide (key = "__proto__" ∧ entries !! key = None) then entries
  else <[key := entry]> entries.

(** *** set

    [data_] is [params.data], [None] when it is [undefined]; [tags_] is the
    raw [params.tags].  [nowCreated] is the clock reading taken for
    [createdAt] when [existing?.createdAt] is undefined, [nowUpdated] the one
    taken for [updatedAt].  [existing] is truthy for an own entry and for a
    member of [Object.prototype] alike; only an own entry has a
    [createdAt]. *)
Definition set (category key : string) (data_ : option json) (tags_ : option json)
    (nowCreated nowUpdated : Z) (f : StoreFile) : Reply * StoreFile :=
  let tags := read_tags tags_ in
  match data_ with
  | None => (Error "data is required for set", f)
  | Some d =>
    let store := loadStore f in
    match read_category category store with
    | BuiltinCategory => (OnBuiltin category, f)
    | found =>
      let entries := match found with OwnCategory entries => entries | _ => ∅ end in
      let existing := read_member key entries in
      let entry :=
        mkEntry d
                (match existing with OwnEntry e => createdAt e | _ => nowCreated end)
                nowUpdated
                (tags_field tags) in
      (match existing with
       | NoEntry => Created category key
       | _ => Updated category key
       end,
       saveStore (<[category := assign_member key entry entries]> store))
    end
  end.

(** *** get

    A member of [Object.prototype] taken for the entry has no [createdAt]:
    [new Date(undefined).toISOString()] throws. *)
Definition get (category key : string) (f : StoreFile) : Reply :=
  match lookup_entry category key f with
  | OwnEntry entry =>
    Ok category key (data entry) (createdAt entry) (updatedAt entry)
       (tags_field (tags entry))
  | InheritedMember => Thrown "RangeError: Invalid time value"
  | NoEntry => NotFound category key
  | OfBuiltin => OnBuiltin category
  end.

(** *** delete

    [!store[category]?.[key]] is false for an own entry and for a member of
    [Object.prototype]; [delete] of a name that is not an own property
    removes nothing. *)
Definition delete_entry (category key : string) (f : StoreFile) : Reply * StoreFile :=
  let store := loadStore f in
  match lookup_entry category key f with
  | NoEntry => (NotFound category key, f)
  | OfBuiltin => (OnBuiltin category, f)
  | _ =>
    let entries' := delete key (default ∅ (store !! category)) in
    (Deleted category key,
     saveStore (if decide (entries' = ∅) then delete category store
                else <[category := entries']> store))
  end.

Definition reply_data (r : Reply) : option json :=
  match r with Ok _ _ d _ _ _ => Some d | _ => None end.

(** *** list

    [Object.keys(entries).slice(0, limit)]; the keys come in property order,
    which is not modelled: they are taken here in the order of the map.
    [entries] is [store[category] ?? {}]; a built-in object read from the
    prototype has no enumerable own property, and counts as empty. *)
Record KeyView : Type := mkKeyView {
  listed_key : string;
  listed_updatedAt : Z;
  listed_tags : option (list string)
}.

Record ListReply : Type := mkListReply {
  list_count : nat;
  list_keys : list KeyView
}.

Definition list_entries (category : string) (limit_ : option Z) (f : StoreFile)
  : ListReply :=
  let limit := default 50 limit_ in
  let store := loadStore f in
  let entries := default ∅ (store !! category) in
  let keys := slice_to limit (map_to_list entries) in
  mkListReply (size entries)
              ((λ ke, mkKeyView (fst ke) (updatedAt (snd ke))
                                (tags_field (tags (snd ke)))) <$> keys).


(** Sequences of sets and deletes. *)
Inductive Action : Type :=
| Set_ (category key : string) (data_ : json) (tags_ : option json)
       (nowCreated nowUpdated : Z)
| Delete (category key : string).

Definition step (a : Action) (f : StoreFile) : StoreFile :=
  match a with
  | Set_ c k d tg n1 n2 => snd (set c k (Some d) tg n1 n2 f)
  | Delete c k => snd (delete_entry c k f)
  end.

Definition run (tr : list Action) (f : StoreFile) : StoreFile :=
  foldl (λ f a, step a f) f tr.



End KnowledgeStore.

(* ================================================================== *)
(** ** Workflow engine *)
(* ================================================================== *)

Module Workflow.

Inductive Pattern : Type := sequential | parallel | dag.

#[global] Instance Pattern_eq_dec : EqDecision Pattern.
Proof. solve_decision. Defined.

Record WorkflowStep : Type := mkStep {
  name : string;
  task : string;
  model : option string;
  thinking : option string;
  dependsOn : option (list string);
  timeoutSeconds : option Z
}.

Inductive Status : Type := InProgress | Done | Failed.

#[global] Instance Status_eq_dec : EqDecision Status.
Proof. solve_decision. Defined.

Definition status_name (s : Status) : string :=
  match s with
  | InProgress => "in_progress"
  | Done => "done"
  | Failed => "failed"
  end.

Record StepResult : Type := mkStepResult { result : string; durationMs : Z }.

Record StepFailure : Type := mkStepFailure { error : string }.

Record WorkflowCheckpoint : Type := mkCheckpoint {
  workflowId : string;
  pattern : Pattern;
  steps : list string;
  completed : gmap string StepResult;
  failed : gmap string StepFailure;
  status : Status;
  startedAt : Z;
  updatedAt : Z
}.

Definition set_completed (v : gmap string StepResult) (c : WorkflowCheckpoint) :=
  mkCheckpoint (workflowId c) (pattern c) (steps c) v (failed c) (status c)
               (startedAt c) (updatedAt c).

Definition set_failed (v : gmap string StepFailure) (c : WorkflowCheckpoint) :=
  mkCheckpoint (workflowId c) (pattern c) (steps c) (completed c) v (status c)
               (startedAt c) (updatedAt c).

Definition set_status (v : Status) (c : WorkflowCheckpoint) :=
  mkCheckpoint (workflowId c) (pattern c) (steps c) (completed c) (failed c) v
               (startedAt c) (updatedAt c).

Definition set_updatedAt (v : Z) (c : WorkflowCheckpoint) :=
  mkCheckpoint (workflowId c) (pattern c) (steps c) (completed c) (failed c)
               (status c) (startedAt c) v.

(** *** Reading a dictionary object

    [checkpoint.completed[name]] is used as a condition.  It is truthy when
    [name] is an own property (the values stored are objects) and also when
    [name] is a member of [Object.prototype], which every object literal and
    every object from [JSON.parse] inherits. *)
Definition object_prototype_members : list string :=
  ["constructor"; "hasOwnProperty"; "isPrototypeOf"; "propertyIsEnumerable";
   "toLocaleString"; "toString"; "valueOf"; "__proto__"; "__defineGetter__";
   "__defineSetter__"; "__lookupGetter__"; "__lookupSetter__"].

Definition inherited (k : string) : bool :=
  bool_decide (k ∈ object_prototype_members).

Definition truthy {A} (m : gmap string A) (k : string) : bool :=
  bool_decide (is_Some (m !! k)) || inherited k.

Definition nl : string := String "010"%char "".

(** [Array.prototype.join]. *)
Definition join (sep : string) (l : list string) : string := String.concat sep l.

(** *** The world of a run: checkpoint files, the sub-agent sessions spawned
    so far (by step name), and the number of clock readings taken. *)
Record World : Type := mkWorld {
  files : gmap string WorkflowCheckpoint;
  spawned : list string;
  ticks : nat
}.

Inductive StepOutcome : Type :=
| Fulfilled (result : string) (durationMs : Z)
| Rejected (message : string).

Section Engine.

(** [Date.now()] at the n-th reading. *)
Variable clock : nat → Z.

(** [executeStep]: the gateway round trip that spawns the sub-agent for a step
    with a context text and polls for its reply.  Its outcome belongs to the
    environment: a result with its duration, or the message of the error
    thrown (a transport error, or the time-out). *)
Variable executeStep : WorkflowStep → string → StepOutcome.

Definition Date_now (w : World) : Z * World :=
  (clock (ticks w), mkWorld (files w) (spawned w) (S (ticks w))).

Definition loadCheckpoint (checkpointPath : string) (w : World)
  : option WorkflowCheckpoint :=
  files w !! checkpointPath.

Definition saveCheckpoint (checkpointPath : string) (c : WorkflowCheckpoint)
    (w : World) : WorkflowCheckpoint * World :=
  let '(now, w) := Date_now w in
  let c := set_updatedAt now c in
  (c, mkWorld (<[checkpointPath := c]> (files w)) (spawned w) (ticks w)).

Definition unlink (checkpointPath : string) (w : World) : World :=
  mkWorld (delete checkpointPath (files w)) (spawned w) (ticks w).

(** Calling [executeStep] spawns a session labelled with the step's name. *)
Definition spawn (names : list string) (w : World) : World :=
  mkWorld (files w) (spawned w ++ names) (ticks w).

(** Recording an outcome: [checkpoint.completed[stepName] = {...}] or
    [checkpoint.failed[stepName] = {...}]. *)
Definition record_outcome (c : WorkflowCheckpoint) (stepName : string)
    (o : StepOutcome) : WorkflowCheckpoint :=
  match o with
  | Fulfilled r d => set_completed (<[stepName := mkStepResult r d]> (completed c)) c
  | Rejected msg => set_failed (<[stepName := mkStepFailure msg]> (failed c)) c
  end.

Definition record_outcomes (c : WorkflowCheckpoint)
    (outcomes : list (string * StepOutcome)) : WorkflowCheckpoint :=
  foldl (λ c no, record_outcome c (fst no) (snd no)) c outcomes.

(** *** executeSequential *)

(** [`### ${step.name}\n${checkpoint.completed[step.name].result}`] *)
Definition context_part (stepName resultText : string) : string :=
  "### " +:+ stepName +:+ nl +:+ resultText.

Definition restored_context (steps_ : list WorkflowStep) (c : WorkflowCheckpoint)
  : list string :=
  omap (λ s, if truthy (completed c) (name s)
             then Some (context_part (name s)
                          (match completed c !! name s with
                           | Some r => result r
                           | None => "undefined"
                           end))
             else None) steps_.

Fixpoint sequential_loop (steps_ : list WorkflowStep) (passContext : bool)
    (contextParts : list string) (c : WorkflowCheckpoint)
    (checkpointPath : string) (w : World) : WorkflowCheckpoint * World :=
  match steps_ with
  | [] => saveCheckpoint checkpointPath (set_status Done c) w
  | step :: rest =>
    if truthy (completed c) (name step)
    then sequential_loop rest passContext contextParts c checkpointPath w
    else
      let contextText := if passContext then join (nl +:+ nl) contextParts else "" in
      let w := spawn [name step] w in
      match executeStep step contextText with
      | Fulfilled r d =>
        let c := record_outcome c (name step) (Fulfilled r d) in
        let contextParts := contextParts ++ [context_part (name step) r] in
        let '(c, w) := saveCheckpoint checkpointPath c w in
        sequential_loop rest passContext contextParts c checkpointPath w
      | Rejected msg =>
        let c := record_outcome c (name step) (Rejected msg) in
        saveCheckpoint checkpointPath (set_status Failed c) w
      end
  end.

Definition executeSequential (steps_ : list WorkflowStep) (passContext : bool)
    (c : WorkflowCheckpoint) (checkpointPath : string) (w : World)
  : WorkflowCheckpoint * World :=
  sequential_loop steps_ passContext (restored_context steps_ c) c checkpointPath w.

(** *** executeParallel *)
Definition executeParallel (steps_ : list WorkflowStep) (c : WorkflowCheckpoint)
    (checkpointPath : string) (w : World) : WorkflowCheckpoint * World :=
  let pending := List.filter (λ s, negb (truthy (completed c) (name s))) steps_ in
  let w := spawn (name <$> pending) w in
  let results := (λ s, (name s, executeStep s "")) <$> pending in
  let c := record_outcomes c results in
  let c := set_status (if (0 <? size (failed c))%nat then Failed else Done) c in
  saveCheckpoint checkpointPath c w.

(** *** executeDag *)
Definition is_ready (c : WorkflowCheckpoint) (s : WorkflowStep) : bool :=
  if truthy (completed c) (name s) || truthy (failed c) (name s) then false
  else forallb (λ d, truthy (completed c) d) (default [] (dependsOn s)).

Definition ready_steps (steps_ : list WorkflowStep) (c : WorkflowCheckpoint)
  : list WorkflowStep :=
  List.filter (is_ready c) steps_.

(** [`### ${d}\n${checkpoint.completed[d]?.result ?? ""}`], joined. *)
Definition dag_context (passContext : bool) (c : WorkflowCheckpoint)
    (s : WorkflowStep) : string :=
  if passContext
  then join (nl +:+ nl)
         ((λ d, context_part d (match completed c !! d with
                                | Some r => result r
                                | None => ""
                                end)) <$> default [] (dependsOn s))
  else "".

(** One scheduling round over the ready steps. *)
Definition dag_round (ready : list WorkflowStep) (passContext : bool)
    (c : WorkflowCheckpoint) (checkpointPath : string) (w : World)
  : WorkflowCheckpoint * World :=
  let w := spawn (name <$> ready) w in
  let results := (λ s, (name s, executeStep s (dag_context passContext c s))) <$> ready in
  saveCheckpoint checkpointPath (record_outcomes c results) w.

(** [for (let iter = 0; iter < maxIterations; iter++)], by the iterations
    left. *)
Fixpoint dag_loop (iterations : nat) (steps_ : list WorkflowStep)
    (passContext : bool) (c : WorkflowCheckpoint) (checkpointPath : string)
    (w : World) : WorkflowCheckpoint * World :=
  match iterations with
  | O => (c, w)
  | S iterations' =>
    match ready_steps steps_ c with
    | [] => (c, w)
    | ready =>
      let '(c, w) := dag_round ready passContext c checkpointPath w in
      dag_loop iterations' steps_ passContext c checkpointPath w
    end
  end.

Definition dag_final_status (steps_ : list WorkflowStep) (c : WorkflowCheckpoint)
  : Status :=
  let allProcessed :=
    (size (completed c) + size (failed c) =? length steps_)%nat in
  if allProcessed
  then if (0 <? size (failed c))%nat then Failed else Done
  else Failed.

Definition executeDag (steps_ : list WorkflowStep) (passContext : bool)
    (c : WorkflowCheckpoint) (checkpointPath : string) (w : World)
  : WorkflowCheckpoint * World :=
  let maxIterations := length steps_ in
  let '(c, w) := dag_loop maxIterations steps_ passContext c checkpointPath w in
  saveCheckpoint checkpointPath (set_status (dag_final_status steps_ c) c) w.

(** *** The tool: validation, admission, checkpoint, execution, result *)

Record Config : Type := mkConfig {
  maxSpawnDepth : option Z;         (* cfg.agents?.defaults?.subagents?.maxSpawnDepth *)
  maxChildrenPerAgent : option Z    (* cfg.agents?.defaults?.subagents?.maxChildrenPerAgent *)
}.

(** What the tool learns from its surroundings: the configuration, the
    caller's spawn depth ([getSubagentDepthFromSessionStore]), its active
    child runs ([countActiveRunsForSession]) and the workspace root. *)
Record Env : Type := mkEnv {
  cfg : Config;
  callerDepth : Z;
  activeChildren : Z;
  workspaceDir : string
}.

(** The tool arguments as [execute] reads them. *)
Record Args : Type := mkArgs {
  arg_pattern : Pattern;
  arg_steps : list WorkflowStep;
  arg_passContext : bool;
  arg_merge : option string;
  arg_label : option string;
  arg_resume : bool
}.

Inductive ErrorKind : Type :=
| NoSteps
| DuplicateStepName (stepName : string)
| UnknownDependency (stepName dep : string).

Inductive ForbiddenKind : Type :=
| DepthExceeded (depth maxDepth : Z)
| ParallelTooWide (stepCount : nat) (maxChildren : Z).

(** The summary object; [results] keeps the result text per completed step
    (its rendering, merged or concatenated in property order, is left out). *)
Record Summary : Type := mkSummary {
  sum_status : Status;
  sum_pattern : Pattern;
  stepsCompleted : nat;
  stepsFailed : nat;
  totalSteps : nat;
  totalDurationMs : Z;
  results : gmap string string;
  failures : option (gmap string StepFailure);
  checkpoint : option string
}.

Inductive ToolResult : Type :=
| ResultError (e : ErrorKind)
| ResultForbidden (k : ForbiddenKind)
| ResultSummary (s : Summary).

Definition result_status (r : ToolResult) : string :=
  match r with
  | ResultError _ => "error"
  | ResultForbidden _ => "forbidden"
  | ResultSummary s => status_name (sum_status s)
  end.

(** [readStringParam(params, "label") ?? `workflow-${Date.now()}`] *)
Definition read_label (a : Args) (w : World) : string * World :=
  match arg_label a with
  | Some l => (l, w)
  | None => let '(now, w) := Date_now w in ("workflow-" +:+ pretty now, w)
  end.

(** The loop over [steps] with the [names] set. *)
Fixpoint first_duplicate (names : gset string) (steps_ : list WorkflowStep)
  : option string :=
  match steps_ with
  | [] => None
  | s :: rest =>
    if bool_decide (name s ∈ names) then Some (name s)
    else first_duplicate ({[name s]} ∪ names) rest
  end.

Definition step_names (steps_ : list WorkflowStep) : gset string :=
  list_to_set (name <$> steps_).

Definition first_unknown_dependency (steps_ : list WorkflowStep)
  : option (string * string) :=
  head (flat_map
          (λ s, (λ d, (name s, d))
                  <$> List.filter (λ d, negb (bool_decide (d ∈ step_names steps_)))
                        (default [] (dependsOn s)))
          steps_).

Definition validate (a : Args) : option ErrorKind :=
  match arg_steps a with
  | [] => Some NoSteps
  | _ =>
    match first_duplicate ∅ (arg_steps a) with
    | Some n => Some (DuplicateStepName n)
    | None =>
      if decide (arg_pattern a = dag)
      then match first_unknown_dependency (arg_steps a) with
           | Some (s, d) => Some (UnknownDependency s d)
           | None => None
           end
      else None
    end
  end.

(** The depth and fan-out checks. *)
Definition admission (env : Env) (a : Args) : option ForbiddenKind :=
  let maxDepth := default 1 (maxSpawnDepth (cfg env)) in
  if maxDepth <=? callerDepth env
  then Some (DepthExceeded (callerDepth env) maxDepth)
  else
    let maxChildren := default 5 (maxChildrenPerAgent (cfg env)) in
    let n := Z.of_nat (length (arg_steps a)) in
    if (maxChildren + activeChildren env <? activeChildren env + n)
       && bool_decide (arg_pattern a = parallel) && (maxChildren <? n)
    then Some (ParallelTooWide (length (arg_steps a)) maxChildren)
    else None.

(** [label.replace(/[^a-zA-Z0-9_-]/g, "_")], one character per code unit. *)
Definition is_safe_char (c : ascii) : bool :=
  let n := nat_of_ascii c in
  ((97 <=? n) && (n <=? 122) || (65 <=? n) && (n <=? 90)
   || (48 <=? n) && (n <=? 57) || (n =? 95) || (n =? 45))%nat.

Fixpoint sanitize (s : string) : string :=
  match s with
  | EmptyString => EmptyString
  | String c s' => String (if is_safe_char c then c else "_"%char) (sanitize s')
  end.

Definition checkpoint_path (env : Env) (label : string) : string :=
  workspaceDir env +:+ "/checkpoints/workflow-" +:+ sanitize label +:+ ".json".

(** The comparison that decides adoption:
    [existing.steps.join(",") === steps.map((s) => s.name).join(",")]. *)
Definition same_steps (existing : WorkflowCheckpoint) (steps_ : list WorkflowStep)
  : bool :=
  bool_decide (join "," (steps existing) = join "," (name <$> steps_)).

Definition fresh_checkpoint (workflowId_ : string) (a : Args) (w : World)
  : WorkflowCheckpoint * World :=
  let '(now1, w) := Date_now w in
  let '(now2, w) := Date_now w in
  (mkCheckpoint workflowId_ (arg_pattern a) (name <$> arg_steps a) ∅ ∅
                InProgress now1 now2, w).

Definition load_or_create (checkpointPath workflowId_ : string) (a : Args)
    (w : World) : WorkflowCheckpoint * World :=
  let existing := if arg_resume a then loadCheckpoint checkpointPath w else None in
  match existing with
  | Some e =>
    if same_steps e (arg_steps a) then (set_status InProgress e, w)
    else fresh_checkpoint workflowId_ a w
  | None => fresh_checkpoint workflowId_ a w
  end.

Definition execute_pattern (a : Args) (c : WorkflowCheckpoint)
    (checkpointPath : string) (w : World) : WorkflowCheckpoint * World :=
  match arg_pattern a with
  | sequential => executeSequential (arg_steps a) (arg_passContext a) c checkpointPath w
  | parallel => executeParallel (arg_steps a) c checkpointPath w
  | dag => executeDag (arg_steps a) (arg_passContext a) c checkpointPath w
  end.

(** Cleanup on success and the summary. *)
Definition assemble (a : Args) (c : WorkflowCheckpoint) (checkpointPath : string)
    (w : World) : ToolResult * World :=
  let totalDuration := map_fold (λ _ r sum, sum + durationMs r) 0 (completed c) in
  let w := if decide (status c = Done) then unlink checkpointPath w else w in
  (ResultSummary
     (mkSummary (status c) (arg_pattern a)
                (size (completed c)) (size (failed c)) (length (arg_steps a))
                totalDuration (result <$> completed c)
                (if (0 <? size (failed c))%nat then Some (failed c) else None)
                (if decide (status c ≠ Done) then Some checkpointPath else None)),
   w).

(** The checkpoint the executors end with, for a request that is let in. *)
Definition run_engine (env : Env) (a : Args) (w : World)
  : string * WorkflowCheckpoint * World :=
  let '(label, w) := read_label a w in
  let checkpointPath := checkpoint_path env label in
  let '(c, w) := load_or_create checkpointPath (sanitize label) a w in
  let '(c, w) := saveCheckpoint checkpointPath c w in
  let '(c, w) := execute_pattern a c checkpointPath w in
  (checkpointPath, c, w).

Definition workflow_run (env : Env) (a : Args) (w : World) : ToolResult * World :=
  match validate a with
  | Some e => (ResultError e, snd (read_label a w))
  | None =>
    match admission env a with
    | Some k => (ResultForbidden k, snd (read_label a w))
    | None =>
      let '(checkpointPath, c, w) := run_engine env a w in
      assemble a c checkpointPath w
    end
  end.

End Engine.

(** An executor hands back the checkpoint it last saved, in a final status. *)
Definition settled (path : string) (cw : WorkflowCheckpoint * World) : Prop :=
  files (snd cw) !! path = Some (fst cw)
  ∧ (status (fst cw) = Done ∨ status (fst cw) = Failed).

(** *** Environment used by the examples *)

Definition example_clock (n : nat) : Z := 1000 + Z.of_nat n.

Definition all_succeed (s : WorkflowStep) (context : string) : StepOutcome :=
  Fulfilled (name s +:+ "-ok") 5.

Definition step_A_fails (s : WorkflowStep) (context : string) : StepOutcome :=
  if decide (name s = "A") then Rejected "boom" else Fulfilled (name s +:+ "-ok") 5.

Definition plain_step (n : string) (deps : option (list string)) : WorkflowStep :=
  mkStep n ("do " +:+ n) None None deps None.

Definition top_level : Env := mkEnv (mkConfig None None) 0 0 "/ws".

Definition nested_caller : Env := mkEnv (mkConfig None None) 1 0 "/ws".

Definition empty_world : World := mkWorld ∅ [] 0.

(** *** Checkpoint adoption *)

(** A name without a comma. *)
Fixpoint comma_free (s : string) : bool :=
  match s with
  | EmptyString => true
  | String c s' => negb (Ascii.eqb c ","%char) && comma_free s'
  end.

(** *** The DAG executor *)

(** A step is processed when it reads as completed or failed. *)
Definition processed (c : WorkflowCheckpoint) (s : WorkflowStep) : bool :=
  truthy (completed c) (name s) || truthy (failed c) (name s).

Definition unprocessed (steps_ : list WorkflowStep) (c : WorkflowCheckpoint)
  : list WorkflowStep :=
  List.filter (λ s, negb (processed c s)) steps_.

(** [c'] keeps every completed entry of [c]. *)
Definition keeps_completed (c c' : WorkflowCheckpoint) : Prop :=
  ∀ k r, completed c !! k = Some r → completed c' !! k = Some r.

(** The world [w'] spawned, after [w], only steps that [c] does not hold as
    completed. *)
Definition spawned_uncompleted (c : WorkflowCheckpoint) (w w' : World) : Prop :=
  ∃ l, spawned w' = spawned w ++ l ∧ ∀ n, n ∈ l → completed c !! n = None.

(** *** Labels *)

(** A label of letters, digits, [_] and [-] only. *)
Fixpoint safe_label (s : string) : bool :=
  match s with
  | EmptyString => true
  | String c s' => is_safe_char c && safe_label s'
  end.

(** *** Outcomes *)

Definition is_rejected (o : StepOutcome) : bool :=
  match o with
  | Fulfilled _ _ => false
  | Rejected _ => true
  end.

(** *** Waiting for the reply of a step

    The second half of [executeStep]: after the run is started, the session
    history is polled until the last assistant message has a text or the
    deadline has passed. *)
Record HistoryMessage : Type := mkHistoryMessage {
  role : string;
  content : option string;
  text : option string
}.

(** One [sessions.history] call: it throws, or answers with
    [history?.messages ?? []]. *)
Inductive Poll : Type :=
| PollError
| PollHistory (messages : list HistoryMessage).

(** The scan from the last message down for the first assistant message,
    which assigns [msg.content ?? msg.text ?? ""] to [result]. *)
Definition scan_history (messages : list HistoryMessage) (result : string)
  : string :=
  match list_find (λ m, role m = "assistant") (reverse messages) with
  | Some (_, m) =>
    match content m with
    | Some c => c
    | None => default "" (text m)
    end
  | None => result
  end.

(** [while (Date.now() < deadline) { sleep; poll; if (result) break; }].
    [now i] is the clock reading of the [i]-th test of the loop condition,
    [history i] the poll that follows it.  The loop is given by its
    iterations left; it answers with [result] and the number of polls made,
    or with [None] when the iterations run out. *)
Fixpoint poll_loop (iterations : nat) (now : nat → Z) (history : nat → Poll)
    (deadline : Z) (i : nat) (result : string) : option (string * nat) :=
  match iterations with
  | O => None
  | S iterations' =>
    if now i <? deadline
    then
      match history i with
      | PollHistory messages =>
        let result := scan_history messages result in
        if decide (result = "") then
          poll_loop iterations' now history deadline (S i) result
        else Some (result, S i)
      | PollError => poll_loop iterations' now history deadline (S i) result
      end
    else Some (result, i)
  end.

Definition quote : string := String (ascii_of_nat 34) "".

(** [`Step "${step.name}" timed out after ${maxPollMs / 1000}s with no result`] *)
Definition timeout_message (step : WorkflowStep) : string :=
  "Step " +:+ quote +:+ name step +:+ quote +:+ " timed out after "
  +:+ pretty (default 600 (timeoutSeconds step)) +:+ "s with no result".

(** From [const startMs = Date.now()] on, for a run that was started:
    [startMs] is the reading taken before the run is started, [deadlineBase]
    the reading taken for the deadline, [now] the readings of the loop
    condition, and [endMs] the final reading as a function of the number of
    polls made. *)
Definition poll_for_reply (step : WorkflowStep) (startMs deadlineBase : Z)
    (now : nat → Z) (history : nat → Poll) (endMs : nat → Z) (iterations : nat)
  : option StepOutcome :=
  let maxPollMs := default 600 (timeoutSeconds step) * 1000 in
  let deadline := deadlineBase + maxPollMs in
  match poll_loop iterations now history deadline 0 "" with
  | None => None
  | Some (result, polls) =>
    if decide (result = "") then Some (Rejected (timeout_message step))
    else Some (Fulfilled result (endMs polls - startMs))
  end.

End Workflow.

(* ================================================================== *)
(** ** Facts about the payload helpers *)
(* ================================================================== *)

Lemma tags_field_idem tags : tags_field (tags_field tags) = tags_field tags.
Proof. by destruct tags as [[|]|]. Qed.

(* ================================================================== *)
(** ** Task queue: theorems *)
(* ================================================================== *)

Module TaskQueueFacts.
Import TaskQueue.

(** *** Facts about the stable sort *)

Lemma elem_of_insert_sorted {A} (cmp : A → A → Z) (x y : A) (l : list A) :
  y ∈ insert_sorted cmp x l ↔ y = x ∨ y ∈ l.
Proof.
  induction l as [|z l IH]; simpl.
  - rewrite list_elem_of_singleton, elem_of_nil. tauto.
  - destruct (cmp x z <=? 0).
    + rewrite !elem_of_cons. tauto.
    + rewrite !elem_of_cons, IH. tauto.
Qed.

Lemma elem_of_sort {A} (cmp : A → A → Z) (y : A) (l : list A) :
  y ∈ sort cmp l ↔ y ∈ l.
Proof.
  induction l as [|x l IH]; simpl; [done|].
  rewrite elem_of_insert_sorted, IH, elem_of_cons. tauto.
Qed.

Lemma head_insert_sorted {A} (cmp : A → A → Z) (x : A) (l : list A) :
  head (insert_sorted cmp x l) =
  match head l with
  | None => Some x
  | Some h => if cmp x h <=? 0 then Some x else Some h
  end.
Proof. destruct l as [|h l]; simpl; [done|]. by destruct (cmp x h <=? 0). Qed.

Lemma compare_tasks_trans a b c :
  compare_tasks a b ≤ 0 → compare_tasks b c ≤ 0 → compare_tasks a c ≤ 0.
Proof.
  unfold compare_tasks.
  destruct (Z.eqb_spec (priorityOrder (priority a) - priorityOrder (priority b)) 0),
           (Z.eqb_spec (priorityOrder (priority b) - priorityOrder (priority c)) 0),
           (Z.eqb_spec (priorityOrder (priority a) - priorityOrder (priority c)) 0); lia.
Qed.

Lemma compare_tasks_flip a b : 0 < compare_tasks a b → compare_tasks b a < 0.
Proof.
  unfold compare_tasks.
  destruct (Z.eqb_spec (priorityOrder (priority a) - priorityOrder (priority b)) 0),
           (Z.eqb_spec (priorityOrder (priority b) - priorityOrder (priority a)) 0); lia.
Qed.

Lemma compare_tasks_refl a : compare_tasks a a = 0.
Proof. unfold compare_tasks. rewrite Z.sub_diag. simpl. lia. Qed.

(** Positions grow along [indexed_from]. *)
Lemma elem_of_indexed_from n l k t :
  (k, t) ∈ indexed_from n l ↔ (n ≤ k)%nat ∧ l !! (k - n)%nat = Some t.
Proof.
  revert n. induction l as [|u l IH]; intros n; simpl.
  - rewrite elem_of_nil. split; [done|]. intros [_ Hl]. by rewrite lookup_nil in Hl.
  - rewrite elem_of_cons, IH. split.
    + intros [[= -> ->]|[Hle Hl]].
      * split; [lia|]. by rewrite Nat.sub_diag.
      * split; [lia|]. replace (k - n)%nat with (S (k - S n)) by lia. done.
    + intros [Hle Hl]. destruct (decide (k = n)) as [->|Hne].
      * left. rewrite Nat.sub_diag in Hl. simpl in Hl. congruence.
      * right. split; [lia|].
        replace (k - n)%nat with (S (k - S n)) in Hl by lia. done.
Qed.

Lemma elem_of_indexed q k t : (k, t) ∈ indexed q ↔ tasks q !! k = Some t.
Proof.
  unfold indexed. rewrite elem_of_indexed_from, Nat.sub_0_r.
  split; [tauto|]. split; [lia|done].
Qed.

Lemma elem_of_pending_sorted q k t :
  (k, t) ∈ pending_sorted q ↔ tasks q !! k = Some t ∧ status t = pending.
Proof.
  unfold pending_sorted.
  rewrite elem_of_sort, list_elem_of_filter, elem_of_indexed. simpl. tauto.
Qed.

(** The head of the sorted list goes before every element, provided the
    list handed to [sort] lists positions in increasing order. *)
Lemma head_sort_goes_before (l : list (nat * TaskRecord)) x :
  StronglySorted (λ a b, (fst a < fst b)%nat) l →
  head (sort (λ a b, compare_tasks (snd a) (snd b)) l) = Some x →
  ∀ y, y ∈ l → goes_before x y.
Proof.
  revert x. induction l as [|a l IH]; intros x Hs Hh y Hy.
  - by apply elem_of_nil in Hy.
  - apply StronglySorted_inv in Hs as [Hs Hlt].
    simpl in Hh. rewrite head_insert_sorted in Hh.
    destruct (head (sort _ l)) as [h|] eqn:Hhd.
    + assert (Hin : h ∈ l).
      { apply (elem_of_sort (λ a b, compare_tasks (snd a) (snd b))).
        by apply head_Some_elem_of. }
      destruct (Z.leb_spec (compare_tasks (snd a) (snd h)) 0) as [Hle|Hgt];
        injection Hh as <-.
      * apply elem_of_cons in Hy as [->|Hy].
        { right. split; [apply compare_tasks_refl|lia]. }
        assert (Hhy : compare_tasks (snd h) (snd y) ≤ 0).
        { destruct (IH h Hs eq_refl y Hy) as [?|[? _]]; lia. }
        pose proof (compare_tasks_trans _ _ _ Hle Hhy) as Hay.
        rewrite Forall_forall in Hlt. specialize (Hlt y Hy).
        unfold goes_before. lia.
      * apply elem_of_cons in Hy as [->|Hy].
        { left. by apply compare_tasks_flip. }
        by apply IH.
    + injection Hh as <-.
      assert (l = []) as ->.
      { destruct l as [|b l]; [done|]. simpl in Hhd.
        rewrite head_insert_sorted in Hhd. by repeat case_match. }
      apply list_elem_of_singleton in Hy as ->.
      right. split; [apply compare_tasks_refl|lia].
Qed.

Lemma indexed_from_sorted n l :
  StronglySorted (λ a b : nat * TaskRecord, (fst a < fst b)%nat) (indexed_from n l).
Proof.
  revert n. induction l as [|t l IH]; intros n; simpl; constructor; [apply IH|].
  apply Forall_forall. intros [k u] Hin.
  apply elem_of_indexed_from in Hin. simpl. lia.
Qed.

Lemma StronglySorted_filter {A} (R : A → A → Prop) (P : A → Prop)
    `{∀ x, Decision (P x)} (l : list A) :
  StronglySorted R l → StronglySorted R (filter P l).
Proof.
  induction 1 as [|x l Hs IH Hx]; [constructor|].
  rewrite filter_cons. destruct (decide (P x)); [|done].
  constructor; [done|].
  apply Forall_forall. intros y Hy. apply list_elem_of_filter in Hy as [_ Hy].
  rewrite Forall_forall in Hx. by apply Hx.
Qed.

Lemma claim_head_minimal q k t rest :
  pending_sorted q = (k, t) :: rest →
  tasks q !! k = Some t ∧ status t = pending ∧
  ∀ j u, tasks q !! j = Some u → status u = pending → goes_before (k, t) (j, u).
Proof.
  intros Hps.
  assert (Hin : (k, t) ∈ pending_sorted q) by (rewrite Hps; left).
  apply elem_of_pending_sorted in Hin as [Hk Hst].
  split; [done|]. split; [done|]. intros j u Hj Hu.
  eapply (head_sort_goes_before
            (filter (λ kt, status (snd kt) = pending) (indexed q))).
  - apply StronglySorted_filter, indexed_from_sorted.
  - fold (pending_sorted q). by rewrite Hps.
  - apply list_elem_of_filter. split; [done|]. by apply elem_of_indexed.
Qed.

Lemma pending_sorted_nil q :
  pending_sorted q = [] ↔ ∀ j u, tasks q !! j = Some u → status u ≠ pending.
Proof.
  split.
  - intros Hnil j u Hj Hu.
    assert (Hin : (j, u) ∈ pending_sorted q) by by apply elem_of_pending_sorted.
    rewrite Hnil in Hin. by apply elem_of_nil in Hin.
  - intros Hall. destruct (pending_sorted q) as [|[k t] rest] eqn:Hps; [done|].
    apply claim_head_minimal in Hps as (Hk & Hst & _). by destruct (Hall k t).
Qed.

Lemma goes_before_lex k t j u :
  goes_before (k, t) (j, u) →
  (priorityOrder (priority t) < priorityOrder (priority u)
   ∨ (priorityOrder (priority t) = priorityOrder (priority u)
      ∧ createdAt t ≤ createdAt u))
  ∧ (priorityOrder (priority t) = priorityOrder (priority u) →
     createdAt t = createdAt u → (k ≤ j)%nat).
Proof.
  unfold goes_before, compare_tasks. simpl.
  destruct (Z.eqb_spec (priorityOrder (priority t) - priorityOrder (priority u)) 0);
    lia.
Qed.

(** C6. Claim ordering.  The priority ranks are high = 0, normal = 1 and
    low = 2.  Either no task of the queue is pending, and claim answers
    [empty] and leaves the file as it is; or claim takes a pending task that
    is minimal under (priority rank, then ascending createdAt) among all
    pending tasks: it is high when some pending task is high and is not low
    when some pending task is normal, no pending task of its priority was
    created before it, and it is the earliest in the queue among those that
    tie.  Claim answers [claimed] with its fields, and stores it back at its
    position with status [claimed], [claimedAt] set to the first clock
    reading and [updatedAt] to the second. *)
Theorem claim_selects_minimal_pending (now1 now2 : Z) (f : QueueFile) :
  (priorityOrder high = 0 ∧ priorityOrder normal = 1 ∧ priorityOrder low = 2)
  ∧ (((∀ j u, tasks (loadQueue f) !! j = Some u → status u ≠ pending)
      ∧ claim now1 now2 f = (Empty, f)
      ∧ reply_status (fst (claim now1 now2 f)) = "empty")
     ∨
     (∃ k t,
        tasks (loadQueue f) !! k = Some t
        ∧ status t = pending
        ∧ (∀ j u, tasks (loadQueue f) !! j = Some u → status u = pending →
             (priority u = high → priority t = high)
             ∧ (priority u = normal → priority t ≠ low)
             ∧ (priority t = priority u →
                createdAt t ≤ createdAt u ∧ (createdAt t = createdAt u → (k ≤ j)%nat))
             ∧ (priorityOrder (priority t) < priorityOrder (priority u)
                ∨ (priorityOrder (priority t) = priorityOrder (priority u)
                   ∧ createdAt t ≤ createdAt u))
             ∧ (priorityOrder (priority t) = priorityOrder (priority u) →
                createdAt t = createdAt u → (k ≤ j)%nat))
        ∧ ∃ t',
            claim now1 now2 f =
              (Claimed (id t) (task t) (data t) (priority t) (retries t)
                       (tags_field (tags t)),
               Some (mkQueue (<[k := t']> (tasks (loadQueue f)))))
            ∧ t' = set_updatedAt now2 (set_claimedAt (Some now1) (set_status claimed t))
            ∧ status t' = claimed
            ∧ claimedAt t' = Some now1)).
Proof.
  split; [done|]. unfold claim.
  destruct (pending_sorted (loadQueue f)) as [|[k t] rest] eqn:Hps.
  - left. split; [|done]. by apply pending_sorted_nil.
  - right. exists k, t.
    apply claim_head_minimal in Hps as (Hk & Hst & Hmin).
    split; [done|]. split; [done|]. split.
    + intros j u Hj Hu. pose proof (goes_before_lex k t j u (Hmin j u Hj Hu))
        as [Hlex Htie].
      split_and!; [| | |done|done].
      * intros Hpu. rewrite Hpu in Hlex. destruct (priority t); simpl in Hlex; [lia..|done].
      * intros Hpu Hpt. rewrite Hpu, Hpt in Hlex. simpl in Hlex. lia.
      * intros Heq. rewrite Heq in Hlex, Htie. split; [lia|]. by apply Htie.
    + eexists. split; [reflexivity|]. done.
Qed.

Lemma claim_selects_minimal_pending_witness :
  let f := snd (run [Add "t1" "low task" None (Some low) None None 1 1;
                     Add "t2" "high task" None (Some high) None None 2 2;
                     Add "t3" "normal task" None (Some normal) None None 3 3] None) in
  ∃ i tk dt r g, fst (claim 4 4 f) = Claimed i tk dt high r g.
Proof.
  intros f.
  destruct (claim_selects_minimal_pending 4 4 f)
    as [_ [(Hnone & _)|(k & t & Hk & Hst & Hmin & t' & Hclaim & _)]].
  - exfalso.
    exact (Hnone 1%nat
             (mkTask "t2" "high task" None high pending 0 3 2 2 None None None None None)
             eq_refl eq_refl).
  - destruct (Hmin 1%nat
                (mkTask "t2" "high task" None high pending 0 3 2 2 None None None
                        None None) eq_refl eq_refl) as (Hhigh & _).
    rewrite Hclaim. cbn [fst]. rewrite (Hhigh eq_refl). by eexists _, _, _, _, _.
Defined.

(** Scenario "priority claim": tasks added as low, high, normal are claimed
    as high, normal, low. *)
Example claim_priority_scenario :
  let tr := [Add "t1" "low" None (Some low) None None 1 1;
             Add "t2" "high" None (Some high) None None 2 2;
             Add "t3" "normal" None (Some normal) None None 3 3;
             Claim 4 4; Claim 5 5; Claim 6 6; Claim 7 7] in
  reply_status <$> fst (run tr None) =
  ["added"; "added"; "added"; "claimed"; "claimed"; "claimed"; "empty"]
  ∧ omap (λ r, match r with Claimed _ t _ _ _ _ => Some t | _ => None end)
         (fst (run tr None)) = ["high"; "normal"; "low"].
Proof. split; reflexivity. Qed.

(** *** Updating a task found by id *)

Lemma list_find_insert_same {A} (P : A → Prop) `{∀ x, Decision (P x)}
    (l : list A) (k k' : nat) (t u u' : A) :
  list_find P l = Some (k, t) → l !! k' = Some u → (P u' ↔ P u) →
  list_find P (<[k' := u']> l) = Some (k, if decide (k' = k) then u' else t).
Proof.
  intros Hf Hu HP. apply list_find_Some in Hf as (Hk & HPt & Hmin).
  apply list_find_Some. split_and!.
  - destruct (decide (k' = k)) as [->|Hne].
    + apply list_lookup_insert_eq. by eapply lookup_lt_Some.
    + by rewrite list_lookup_insert_ne.
  - destruct (decide (k' = k)) as [->|Hne]; [|done].
    apply HP. congruence.
  - intros j y Hj Hlt. destruct (decide (k' = j)) as [->|Hne].
    + rewrite list_lookup_insert_eq in Hj by by eapply lookup_lt_Some.
      injection Hj as <-. rewrite HP. by eapply Hmin.
    + rewrite list_lookup_insert_ne in Hj by done. by eapply Hmin.
Qed.

Lemma tracked_store i r n q k' u u' :
  tracked i r n (Some q) → tasks q !! k' = Some u →
  id u' = id u → retries u' = retries u → maxRetries u' = maxRetries u →
  tracked i r n (saveQueue (store_task k' u' q)).
Proof.
  intros (k & t & Hf & Hr & Hn) Hu Hid Hre Hmax.
  unfold tracked, find_task in *. simpl in *.
  exists k, (if decide (k' = k) then u' else t). split.
  - apply list_find_insert_same with (u := u); [done..|]. by rewrite Hid.
  - destruct (decide (k' = k)) as [->|]; [|done].
    apply list_find_Some in Hf as (Hk & _). split; congruence.
Qed.

Lemma tracked_loaded i r n f : tracked i r n f → tracked i r n (Some (loadQueue f)).
Proof. done. Qed.

Lemma find_task_lookup i q k t : find_task i q = Some (k, t) → tasks q !! k = Some t.
Proof. intros Hf. by apply list_find_Some in Hf as (? & _). Qed.

(** Every action other than a fail of [i] and a clear leaves the count. *)
Lemma step_tracked_other i r n a f :
  is_clear a = false → is_fail_of i a = false →
  tracked i r n f → tracked i r n (snd (step a f)).
Proof.
  intros Hc Hf Ht. apply tracked_loaded in Ht.
  destruct a as [j ? ? ? ? ? ? ?| ? ?|j ? ? ?|j ? ?|j ?|?]; simpl in *; try done.
  - destruct Ht as (k & t & Hfind & Hr & Hn). exists k, t. split; [|done].
    unfold find_task in *. simpl. by apply list_find_app_l.
  - unfold claim. destruct (pending_sorted (loadQueue f)) as [|[k t] rest] eqn:Hps;
      [done|].
    apply claim_head_minimal in Hps as (Hk & _). simpl.
    by eapply tracked_store.
  - unfold complete. destruct (find_task j (loadQueue f)) as [[k t]|] eqn:Hj; [|done].
    simpl. eapply tracked_store; [done|by eapply find_task_lookup|done..].
  - unfold fail. destruct (find_task j (loadQueue f)) as [[k t]|] eqn:Hj; [|done].
    assert (j ≠ i) as Hne by by apply bool_decide_eq_false in Hf.
    pose proof (find_task_lookup _ _ _ _ Hj) as Hk.
    destruct Ht as (k0 & t0 & Hfind & Hr & Hn).
    assert (k ≠ k0) as Hkk.
    { intros ->. apply list_find_Some in Hj as (Hj1 & Hj2 & _).
      apply list_find_Some in Hfind as (Hf1 & Hf2 & _). simpl in *. congruence. }
    assert (∀ u', id u' = id t →
              tracked i r n (saveQueue (store_task k u' (loadQueue f)))) as Hgo.
    { intros u' Hid. exists k0, t0. split; [|done].
      unfold find_task in *. simpl.
      erewrite list_find_insert_same by (try done; by rewrite Hid).
      by rewrite decide_False. }
    simpl. case_match; simpl; by apply Hgo.
  - unfold retry. destruct (find_task j (loadQueue f)) as [[k t]|] eqn:Hj; [|done].
    simpl. eapply tracked_store; [done|by eapply find_task_lookup|done..].
Qed.

(** A fail of [i] answers by the count after the increment. *)
Lemma fail_tracked i r n e now f :
  tracked i r n f →
  fst (fail i e now f) =
    (if r + 1 <? n then Retrying i (r + 1) n
     else Failed i (r + 1) (default "Unknown error" e))
  ∧ tracked i (r + 1) n (snd (fail i e now f)).
Proof.
  intros Ht. pose proof Ht as (k & t & Hfind & Hr & Hn).
  unfold fail. rewrite Hfind. simpl. rewrite Hr, Hn.
  pose proof (find_task_lookup _ _ _ _ Hfind) as Hk.
  assert (∀ u', id u' = id t → retries u' = r + 1 → maxRetries u' = n →
     tracked i (r + 1) n (saveQueue (store_task k u' (loadQueue f)))) as Hgo.
  { intros u' Hid Hre Hmax. exists k, u'. split; [|done].
    unfold find_task in *. simpl.
    erewrite list_find_insert_same by (try done; by rewrite Hid).
    by rewrite decide_True. }
  destruct (r + 1 <? n); simpl; (split; [done|]); apply Hgo; simpl; congruence.
Qed.

Lemma fail_replies_tracked i n tr : ∀ r f k rep,
  forallb (λ a, negb (is_clear a)) tr = true →
  tracked i r n f →
  fail_replies i tr f !! k = Some rep →
  reply_status rep =
    if r + Z.of_nat k + 1 <? n then "retrying" else "failed".
Proof.
  induction tr as [|a tr IH]; intros r f k rep Hnc Ht Hk; [done|].
  simpl in Hnc. apply andb_prop in Hnc as [Ha Hnc].
  apply negb_true_iff in Ha. simpl in Hk.
  destruct (step a f) as [r0 f1] eqn:Hstep.
  destruct (is_fail_of i a) eqn:Hfa.
  - destruct a as [| |  |j e now| |]; simpl in Hfa; try done.
    apply bool_decide_eq_true in Hfa as ->. simpl in Hstep.
    destruct (fail_tracked i r n e now f Ht) as [Hrep Ht']. rewrite Hstep in *.
    simpl in *. destruct k as [|k]; simpl in Hk.
    + injection Hk as <-. rewrite Hrep, Z.add_0_r. by destruct (r + 1 <? n).
    + rewrite (IH (r + 1) f1 k rep Hnc Ht' Hk).
      by replace (r + 1 + Z.of_nat k + 1) with (r + Z.of_nat (S k) + 1) by lia.
  - eapply IH; [done| |done].
    replace f1 with (snd (step a f)) by by rewrite Hstep.
    by apply step_tracked_other.
Qed.

Lemma add_tracked i tk d p m g n1 n2 f :
  find_task i (loadQueue f) = None →
  tracked i 0 (default 3 m) (snd (add i tk d p m g n1 n2 f)).
Proof.
  intros Hfresh. unfold add, tracked, find_task in *. simpl.
  rewrite list_find_app_r by done. simpl. rewrite decide_True by done. simpl.
  eexists _, _. split; [reflexivity|]. done.
Qed.

(** C1, as stated, fails: a task added with [maxRetries = 2] is failed by its
    second fail (the note promises [retrying] for it), and one added with
    [maxRetries = 1] by its first. *)
Lemma fail_second_of_two_counterexample :
  reply_status <$>
    fst (run [Add "t" "flaky" None None (Some 2) None 0 0; Claim 1 1;
              Fail "t" (Some "err") 2; Claim 3 3; Fail "t" (Some "err") 4] None)
  = ["added"; "claimed"; "retrying"; "claimed"; "failed"]
  ∧ noted_fail_status 2 2 = "retrying"
  ∧ reply_status <$>
      fst (run [Add "u" "once" None None (Some 1) None 0 0; Claim 1 1;
                Fail "u" None 2] None)
    = ["added"; "claimed"; "failed"]
  ∧ noted_fail_status 1 1 = "retrying".
Proof. repeat split; reflexivity. Qed.

(** C1, amended.  The failure decision is computed after incrementing
    retries, so (a) a fail of a task that has [retries = r] answers
    [retrying] and returns it to pending exactly when [r + 1 < maxRetries],
    and answers [failed] and marks it failed otherwise; (b) for a task added
    under a fresh id with [maxRetries = N] (3 when the parameter is absent),
    along any run without [clear], the k-th fail of that id (k = 1, 2, ...)
    answers [retrying] when [k < N] and [failed] when [k ≥ N]: a task with
    [maxRetries = 0] or [1] is failed by its first fail, and one with
    [maxRetries = N ≥ 1] is returned to pending by its first [N - 1] fails
    and failed by its N-th. *)
Theorem fail_decides_after_increment :
  (∀ i e now f k t,
     find_task i (loadQueue f) = Some (k, t) →
     ∃ t', tasks (loadQueue (snd (fail i e now f))) !! k = Some t'
       ∧ retries t' = retries t + 1
       ∧ if retries t + 1 <? maxRetries t
         then fst (fail i e now f) = Retrying i (retries t + 1) (maxRetries t)
              ∧ status t' = pending ∧ claimedAt t' = None
         else fst (fail i e now f) =
                Failed i (retries t + 1) (default "Unknown error" e)
              ∧ status t' = failed)
  ∧ (∀ i tk d p m g n1 n2 f tr k rep,
       find_task i (loadQueue f) = None →
       forallb (λ a, negb (is_clear a)) tr = true →
       fail_replies i tr (snd (add i tk d p m g n1 n2 f)) !! k = Some rep →
       reply_status rep =
         if Z.of_nat (S k) <? default 3 m then "retrying" else "failed").
Proof.
  split.
  - intros i e now f k t Hfind. unfold fail. rewrite Hfind. simpl.
    pose proof (find_task_lookup _ _ _ _ Hfind) as Hk.
    apply lookup_lt_Some in Hk.
    destruct (retries t + 1 <? maxRetries t); simpl;
      eexists; (split; [by apply list_lookup_insert_eq|]); done.
  - intros i tk d p m g n1 n2 f tr k rep Hfresh Hnc Hk.
    rewrite (fail_replies_tracked i (default 3 m) tr 0 _ k rep Hnc
               (add_tracked i tk d p m g n1 n2 f Hfresh) Hk).
    by replace (0 + Z.of_nat k + 1) with (Z.of_nat (S k)) by lia.
Qed.

Lemma fail_decides_after_increment_witness :
  (∃ t', tasks (loadQueue (snd (fail "t" None 5
             (snd (add "t" "job" None None (Some 2) None 0 0 None))))) !! 0%nat
         = Some t'
     ∧ status t' = pending ∧ retries t' = 1)
  ∧ reply_status (Failed "t" 2 "Unknown error") = "failed".
Proof.
  split.
  - destruct (proj1 fail_decides_after_increment "t" None 5
                (snd (add "t" "job" None None (Some 2) None 0 0 None)) 0%nat
                (mkTask "t" "job" None normal pending 0 2 0 0 None None None None None)
                eq_refl) as (t' & Hk & Hr & Hrest).
    exists t'. simpl in Hrest. destruct Hrest as (_ & Hst & _). done.
  - apply (proj2 fail_decides_after_increment "t" "job" None None (Some 2) None
             0 0 None
             [Claim 1 1; Fail "t" None 2; Retry "t" 3; Claim 4 4; Fail "t" None 5]
             1%nat (Failed "t" 2 "Unknown error")); reflexivity.
Defined.

(** C2, as stated, fails: complete, fail and retry do not look at the status
    of the task they find.  On a freshly added (pending) task, complete makes
    it done, and fail increments its retries; on a claimed task, retry makes
    it pending.  None of the three is a row of the table. *)
Lemma unguarded_transitions_counterexample :
  ¬ conforms_to_table
  ∧ (let f := snd (add "t" "job" None None None None 0 0 None) in
     status <$> tasks (loadQueue f) = [pending]
     ∧ status <$> tasks (loadQueue (snd (complete "t" None 1 1 f))) = [done]
     ∧ retries <$> tasks (loadQueue (snd (fail "t" None 1 f))) = [1]
     ∧ status <$> tasks (loadQueue (snd (retry "t" 2 (snd (claim 1 1 f))))) = [pending]
     ∧ spec_transition pending EvComplete done = false
     ∧ spec_transition pending EvFail pending = false
     ∧ spec_transition claimed EvRetry pending = false).
Proof.
  split; [|by repeat split].
  intros Hc.
  assert (reachable (snd (step (Add "t" "job" None None None None 0 0) None)))
    as Hr by apply reach_step, reach_init.
  specialize (Hc _ (Complete "t" None 1 1) EvComplete 0%nat
                 (mkTask "t" "job" None normal pending 0 3 0 0 None None None None None)
                 (mkTask "t" "job" None normal done 0 3 0 1 None (Some 1) None None None)
                 Hr eq_refl eq_refl eq_refl).
  simpl in Hc. discriminate Hc. discriminate.
Qed.

Lemma task_inv_step a f :
  Forall task_inv (tasks (loadQueue f)) →
  Forall task_inv (tasks (loadQueue (snd (step a f)))).
Proof.
  intros Hall.
  destruct a as [j ? ? ? ? ? ? ?| ? ?|j ? ? ?|j ? ?|j ?|?]; simpl.
  - apply Forall_app. split; [done|]. constructor; [|constructor].
    by repeat split.
  - unfold claim. destruct (pending_sorted (loadQueue f)) as [|[k t] rest]; [done|].
    simpl. apply Forall_insert; [done|]. by repeat split.
  - unfold complete. destruct (find_task j (loadQueue f)) as [[k t]|]; [|done].
    simpl. apply Forall_insert; [done|]. by repeat split.
  - unfold fail. destruct (find_task j (loadQueue f)) as [[k t]|]; [|done].
    simpl. destruct (Z.ltb_spec (retries t + 1) (maxRetries t)); simpl;
      (apply Forall_insert; [done|]); by repeat split.
  - unfold retry. destruct (find_task j (loadQueue f)) as [[k t]|]; [|done].
    simpl. apply Forall_insert; [done|]. by repeat split.
  - apply Forall_forall. intros t Ht. apply list_elem_of_filter in Ht as [_ Ht].
    rewrite Forall_forall in Hall. by apply Hall.
Qed.

Lemma task_inv_reachable f : reachable f → Forall task_inv (tasks (loadQueue f)).
Proof.
  induction 1 as [|a f Hr IH]; [constructor|]. by apply task_inv_step.
Qed.

(** C2, amended.  Claim changes a status only from pending to claimed.
    Complete, fail and retry act on the first task that carries the id,
    whatever its status: complete makes it done and sets completedAt and
    result; fail increments retries and makes it pending (clearing claimedAt)
    when the incremented count is below maxRetries, and failed otherwise;
    retry makes it pending and clears error and claimedAt without resetting
    retries.  In every queue reachable from the absent file by add, claim,
    complete, fail, retry and clear, a claimed task has claimedAt set, a done
    task has completedAt set and a failed task has retries ≥ maxRetries. *)
Theorem transitions_and_invariants :
  (∀ now1 now2 f k t t',
     tasks (loadQueue f) !! k = Some t →
     tasks (loadQueue (snd (claim now1 now2 f))) !! k = Some t' →
     t' ≠ t → status t = pending ∧ status t' = claimed ∧ claimedAt t' = Some now1)
  ∧ (∀ i r now1 now2 f k t,
       find_task i (loadQueue f) = Some (k, t) →
       ∃ t', tasks (loadQueue (snd (complete i r now1 now2 f))) !! k = Some t'
         ∧ status t' = done ∧ completedAt t' = Some now1 ∧ result t' = r
         ∧ retries t' = retries t)
  ∧ (∀ i e now f k t,
       find_task i (loadQueue f) = Some (k, t) →
       ∃ t', tasks (loadQueue (snd (fail i e now f))) !! k = Some t'
         ∧ retries t' = retries t + 1
         ∧ status t' = (if retries t + 1 <? maxRetries t then pending else failed)
         ∧ (retries t + 1 < maxRetries t → claimedAt t' = None))
  ∧ (∀ i now f k t,
       find_task i (loadQueue f) = Some (k, t) →
       ∃ t', tasks (loadQueue (snd (retry i now f))) !! k = Some t'
         ∧ status t' = pending ∧ error t' = None ∧ claimedAt t' = None
         ∧ retries t' = retries t)
  ∧ (∀ f t, reachable f → t ∈ tasks (loadQueue f) → task_inv t).
Proof.
  split_and!.
  - intros now1 now2 f k t t' Hk Hk' Hne. unfold claim in Hk'.
    destruct (pending_sorted (loadQueue f)) as [|[k0 t0] rest] eqn:Hps;
      simpl in Hk'; [congruence|].
    apply claim_head_minimal in Hps as (Hk0 & Hst & _).
    destruct (decide (k0 = k)) as [->|Hkk].
    + rewrite list_lookup_insert_eq in Hk' by by eapply lookup_lt_Some.
      injection Hk' as <-. by replace t with t0 by congruence.
    + rewrite list_lookup_insert_ne in Hk' by done. congruence.
  - intros i r now1 now2 f k t Hfind. unfold complete. rewrite Hfind. simpl.
    apply find_task_lookup, lookup_lt_Some in Hfind.
    eexists. split; [by apply list_lookup_insert_eq|]. done.
  - intros i e now f k t Hfind. unfold fail. rewrite Hfind. simpl.
    apply find_task_lookup, lookup_lt_Some in Hfind.
    destruct (Z.ltb_spec (retries t + 1) (maxRetries t)); simpl;
      (eexists; split; [by apply list_lookup_insert_eq|]); simpl;
      split_and!; try done; lia.
  - intros i now f k t Hfind. unfold retry. rewrite Hfind. simpl.
    apply find_task_lookup, lookup_lt_Some in Hfind.
    eexists. split; [by apply list_lookup_insert_eq|]. done.
  - intros f t Hr Ht. apply task_inv_reachable in Hr.
    rewrite Forall_forall in Hr. by apply Hr.
Qed.

Lemma run_reachable tr : ∀ f, reachable f → reachable (snd (run tr f)).
Proof.
  induction tr as [|a tr IH]; intros f Hf; simpl; [done|].
  pose proof (reach_step a f Hf) as Hstep.
  destruct (step a f) as [r f1]. specialize (IH f1 Hstep).
  by destruct (run tr f1).
Qed.

Lemma transitions_and_invariants_witness :
  let f := snd (run [Add "t" "job" None None (Some 0) None 0 0; Claim 1 1;
                     Fail "t" (Some "oops") 2] None) in
  (∃ t', tasks (loadQueue (snd (retry "t" 3 f))) !! 0%nat = Some t'
     ∧ status t' = pending ∧ error t' = None ∧ claimedAt t' = None
     ∧ retries t' = 1)
  ∧ task_inv (mkTask "t" "job" None normal failed 1 0 0 2 (Some 1) None None
                     (Some "oops") None).
Proof.
  intros f.
  destruct transitions_and_invariants as (_ & _ & _ & Hretry & Hinv).
  split.
  - apply (Hretry "t" 3 f 0%nat
             (mkTask "t" "job" None normal failed 1 0 0 2 (Some 1) None None
                     (Some "oops") None)).
    reflexivity.
  - apply (Hinv f).
    + apply run_reachable, reach_init.
    + subst f. simpl. left.
Defined.

(** The scenario "retry policy" and a manual retry after it. *)
Example retry_policy_scenario :
  let tr := [Add "t" "flaky" None None (Some 2) None 0 0; Claim 1 1;
             Fail "t" (Some "err") 2; Claim 3 3; Fail "t" (Some "err") 4;
             Retry "t" 5] in
  fst (run tr None)
  = [Added "t" "flaky"; Claimed "t" "flaky" None normal 0 None;
     Retrying "t" 1 2; Claimed "t" "flaky" None normal 1 None;
     Failed "t" 2 "err"; ResetToPending "t"]
  ∧ (λ t, (status t, retries t, error t, claimedAt t))
      <$> tasks (loadQueue (snd (run tr None)))
    = [(pending, 2, None, None)]
  ∧ stats (snd (run (take 5 tr) None)) = mkStats 1 0 0 0 1
  ∧ stats (snd (run tr None)) = mkStats 1 1 0 0 0.
Proof. vm_compute. repeat split; reflexivity. Qed.

(** *** Counting by status *)

Lemma count_status_partition (l : list TaskRecord) :
  length l
  = (length (filter (λ t, status t = pending) l)
     + length (filter (λ t, status t = claimed) l)
     + length (filter (λ t, status t = done) l)
     + length (filter (λ t, status t = failed) l))%nat.
Proof.
  induction l as [|t l IH]; [done|].
  rewrite !filter_cons. simpl. destruct (status t); simpl; repeat case_decide;
    try congruence; simpl; lia.
Qed.

Lemma length_filter_insert {A} (P : A → Prop) `{∀ x, Decision (P x)}
    (l : list A) (k : nat) (t x : A) :
  l !! k = Some t →
  (length (filter P (<[k := x]> l)) + (if decide (P t) then 1 else 0)
   = length (filter P l) + (if decide (P x) then 1 else 0))%nat.
Proof.
  revert k. induction l as [|y l IH]; intros k Hk; [done|].
  destruct k as [|k]; simpl in *.
  - injection Hk as ->. rewrite !filter_cons.
    destruct (decide (P x)), (decide (P t)); simpl; lia.
  - specialize (IH k Hk). rewrite !filter_cons.
    destruct (decide (P y)); simpl; lia.
Qed.

Lemma count_pending_zero q :
  count_status pending q = 0%nat ↔ pending_sorted q = [].
Proof.
  rewrite pending_sorted_nil. unfold count_status. split.
  - intros Hz j u Hj Hu. apply length_zero_iff_nil in Hz.
    eapply (filter_nil_not_elem_of _ _ u); [exact Hz|exact Hu|].
    by eapply list_elem_of_lookup_2.
  - intros Hall. apply length_zero_iff_nil.
    induction (tasks q) as [|t l IH]; [done|].
    rewrite filter_cons. destruct (decide (status t = pending)) as [Hp|_].
    + by destruct (Hall 0%nat t).
    + apply IH. intros j u Hj. by apply (Hall (S j)).
Qed.

(** X4. Status accounting.  The four per-status counts of [stats] add up to
    the total, for every queue file.  An add raises the total and the
    pending count by one and leaves the other counts.  A claim on a queue
    with no pending task answers [empty] and leaves the file; on a queue
    with a pending task it answers [claimed] and moves exactly one task
    from pending to claimed. *)
Theorem stats_accounting :
  (∀ f, total (stats f)
        = (n_pending (stats f) + n_claimed (stats f) + n_done (stats f)
           + n_failed (stats f))%nat)
  ∧ (∀ i tk d p m g n1 n2 f,
       stats (snd (add i tk d p m g n1 n2 f))
       = mkStats (S (total (stats f))) (S (n_pending (stats f)))
                 (n_claimed (stats f)) (n_done (stats f)) (n_failed (stats f)))
  ∧ (∀ now1 now2 f,
       n_pending (stats f) = 0%nat → claim now1 now2 f = (Empty, f))
  ∧ (∀ now1 now2 f,
       n_pending (stats f) ≠ 0%nat →
       reply_status (fst (claim now1 now2 f)) = "claimed"
       ∧ stats (snd (claim now1 now2 f))
         = mkStats (total (stats f)) (pred (n_pending (stats f)))
                   (S (n_claimed (stats f))) (n_done (stats f))
                   (n_failed (stats f))).
Proof.
  split_and!.
  - intros f. apply count_status_partition.
  - intros. unfold stats, count_status, add. simpl.
    rewrite !filter_app, !length_app. simpl. f_equal; lia.
  - intros now1 now2 f Hz. unfold stats in Hz. simpl in Hz.
    apply count_pending_zero in Hz. unfold claim. by rewrite Hz.
  - intros now1 now2 f Hnz. unfold claim.
    destruct (pending_sorted (loadQueue f)) as [|[k t] rest] eqn:Hps.
    { apply count_pending_zero in Hps. by destruct Hnz. }
    apply claim_head_minimal in Hps as (Hk & Hst & _).
    split; [done|]. unfold stats, count_status. simpl.
    set (t' := set_updatedAt now2 (set_claimedAt (Some now1) (set_status claimed t))).
    pose proof (λ st, length_filter_insert (λ u, status u = st)
                        (tasks (loadQueue f)) k t t' Hk) as Hcount.
    pose proof (Hcount pending) as Hp. pose proof (Hcount claimed) as Hc.
    pose proof (Hcount done) as Hd. pose proof (Hcount failed) as Hf.
    subst t'. simpl in *. rewrite Hst in *.
    repeat case_decide; try congruence.
    rewrite length_insert. f_equal; lia.
Qed.

Lemma stats_accounting_witness :
  let f := snd (run [Add "a" "one" None None None None 1 1;
                     Add "b" "two" None (Some high) None None 2 2] None) in
  stats (snd (claim 3 3 f)) = mkStats 2 1 1 0 0.
Proof.
  intros f.
  apply (proj2 (proj2 (proj2 (proj2 stats_accounting)) 3 3 f ltac:(done))).
Defined.

(** *** Actions on one task *)

(** X5. Complete, fail and retry address one task.  When no task carries the
    id they answer [not_found] and leave the file as it is.  When one does,
    they rewrite the first task that carries it, in place: the queue keeps
    its length and every other position, and the rewritten task keeps its
    id, task text, data, priority, maxRetries, createdAt and tags.  A claim
    likewise rewrites one position and keeps those fields. *)
Theorem actions_rewrite_one_task :
  (∀ a i f,
     target_id a = Some i →
     find_task i (loadQueue f) = None → step a f = (NotFound i, f))
  ∧ (∀ a i f k t,
       target_id a = Some i →
       find_task i (loadQueue f) = Some (k, t) →
       ∃ t', tasks (loadQueue (snd (step a f))) = <[k := t']> (tasks (loadQueue f))
           ∧ fixed_fields t' = fixed_fields t)
  ∧ (∀ now1 now2 f,
       snd (claim now1 now2 f) = f
       ∨ ∃ k t t', tasks (loadQueue f) !! k = Some t
           ∧ tasks (loadQueue (snd (claim now1 now2 f)))
             = <[k := t']> (tasks (loadQueue f))
           ∧ fixed_fields t' = fixed_fields t).
Proof.
  split_and!.
  - intros a i f Ha Hnone.
    destruct a; simpl in Ha; try done; injection Ha as ->; simpl.
    + unfold complete. by rewrite Hnone.
    + unfold fail. by rewrite Hnone.
    + unfold retry. by rewrite Hnone.
  - intros a i f k t Ha Hfind.
    destruct a; simpl in Ha; try done; injection Ha as ->; simpl.
    + unfold complete. rewrite Hfind. simpl. by eexists.
    + unfold fail. rewrite Hfind. simpl.
      destruct (retries t + 1 <? maxRetries t); simpl; by eexists.
    + unfold retry. rewrite Hfind. simpl. by eexists.
  - intros now1 now2 f. unfold claim.
    destruct (pending_sorted (loadQueue f)) as [|[k t] rest] eqn:Hps; [by left|].
    right. apply claim_head_minimal in Hps as (Hk & _). simpl.
    by eexists k, t, _.
Qed.

Lemma actions_rewrite_one_task_witness :
  let f := snd (run [Add "a" "one" (Some (JNum 7)) None None None 1 1;
                     Add "b" "two" None None None None 2 2] None) in
  step (Retry "zz" 5) f = (NotFound "zz", f)
  ∧ ∃ t', tasks (loadQueue (snd (step (Fail "b" None 9) f)))
          = <[1%nat := t']> (tasks (loadQueue f))
        ∧ fixed_fields t'
          = fixed_fields (mkTask "b" "two" None normal pending 0 3 2 2 None None
                                 None None None).
Proof.
  intros f. destruct actions_rewrite_one_task as (Hnone & Hsome & _). split.
  - by apply Hnone.
  - by apply (Hsome (Fail "b" None 9) "b" f 1%nat).
Defined.

(** *** clear *)

(** X6. What clear removes.  After a clear the queue holds, in their old
    order, exactly the tasks that were pending, claimed, or updated after
    the cutoff: a pending or claimed task is never removed, and a removed
    task is done or failed with [updatedAt ≤ cutoff].  The reply counts the
    tasks removed and those remaining. *)
Theorem clear_keeps_live_tasks (cutoff : Z) (f : QueueFile) :
  let before := tasks (loadQueue f) in
  let after := tasks (loadQueue (snd (clear cutoff f))) in
  after `sublist_of` before
  ∧ (∀ t, t ∈ after
          ↔ t ∈ before
            ∧ (status t = pending ∨ status t = claimed ∨ cutoff < updatedAt t))
  ∧ (∀ t, t ∈ before → t ∉ after →
          (status t = done ∨ status t = failed) ∧ updatedAt t ≤ cutoff)
  ∧ n_pending (stats (snd (clear cutoff f))) = n_pending (stats f)
  ∧ n_claimed (stats (snd (clear cutoff f))) = n_claimed (stats f)
  ∧ fst (clear cutoff f)
    = Cleared (Z.of_nat (length before) - Z.of_nat (length after))
              (Z.of_nat (length after)).
Proof.
  simpl. split_and!.
  - apply sublist_filter.
  - intros t. rewrite list_elem_of_filter. unfold keep_on_clear. tauto.
  - intros t Hin Hout. rewrite list_elem_of_filter in Hout.
    unfold keep_on_clear in Hout.
    destruct (status t) eqn:Hst; split; try tauto; try lia;
      destruct (Z.le_gt_cases (updatedAt t) cutoff); tauto || lia.
  - unfold count_status. simpl. f_equal. apply list_filter_filter_l.
    intros t Hp. by left.
  - unfold count_status. simpl. f_equal. apply list_filter_filter_l.
    intros t Hp. right. by left.
  - done.
Qed.

(** *** add then claim *)

(** X7. A task added to a queue in which nothing is pending is the one the
    next claim hands out, with the task text, data, priority and tags it was
    added with and [retries = 0]. *)
Theorem add_then_claim (i tk : string) (d : option json) (p : option Priority)
    (m : option Z) (g : option json) (n1 n2 n3 n4 : Z) (f : QueueFile) :
  n_pending (stats f) = 0%nat →
  fst (claim n3 n4 (snd (add i tk d p m g n1 n2 f)))
  = Claimed i tk d (default normal p) 0 (tags_field (read_tags g)).
Proof.
  intros Hz. unfold stats in Hz. simpl in Hz.
  apply count_pending_zero in Hz. rewrite pending_sorted_nil in Hz.
  unfold claim.
  destruct (pending_sorted (loadQueue (snd (add i tk d p m g n1 n2 f))))
    as [|[k t] rest] eqn:Hps.
  - rewrite pending_sorted_nil in Hps.
    exfalso.
    refine (Hps (length (tasks (loadQueue f)))
                (mkTask i tk d (default normal p) pending 0 (default 3 m) n1 n2
                        None None None None (tags_field (read_tags g))) _ eq_refl).
    simpl. by rewrite lookup_app_r, Nat.sub_diag by lia.
  - apply claim_head_minimal in Hps as (Hk & Hst & _). simpl in Hk.
    apply lookup_app_Some in Hk as [Hk|[_ Hk]].
    + by destruct (Hz k t).
    + apply list_lookup_singleton_Some in Hk as [_ <-]. simpl.
      by rewrite tags_field_idem.
Qed.

Lemma add_then_claim_witness :
  fst (claim 3 3 (snd (add "b" "two" (Some (JStr "x")) (Some low) None
                           (Some (JArr [JStr "t1"])) 2 2 None)))
  = Claimed "b" "two" (Some (JStr "x")) low 0 (Some ["t1"]).
Proof.
  apply (add_then_claim "b" "two" (Some (JStr "x")) (Some low) None
           (Some (JArr [JStr "t1"])) 2 2 3 3 None).
  reflexivity.
Defined.

(** *** list *)

(** X25. What list shows.  The tasks listed are the last ones, in queue
    order, of the tasks that have the status asked for (of all tasks when no
    status is given): every task listed has that status, a positive limit
    (default 50) bounds their number, and a limit of zero cuts nothing.
    When the limit is not below the count that [stats] reports for the
    status, list shows every task of that status. *)
Theorem list_shows_status (st : option TaskStatus) (l : option Z) (f : QueueFile) :
  let shown := list_tasks st l f in
  let matching :=
    match st with
    | Some s => filter (λ t, status t = s) (tasks (loadQueue f))
    | None => tasks (loadQueue f)
    end in
  shown `suffix_of` matching
  ∧ (∀ s t, st = Some s → t ∈ shown → status t = s)
  ∧ (0 < default 50 l → Z.of_nat (length shown) ≤ default 50 l)
  ∧ (default 50 l = 0 → shown = matching)
  ∧ (∀ s, st = Some s →
          Z.of_nat (count_status s (loadQueue f)) ≤ default 50 l →
          shown = matching ∧ length shown = count_status s (loadQueue f)).
Proof.
  intros shown matching. subst shown. unfold list_tasks. fold matching.
  assert (slice_from (- default 50 l) matching `suffix_of` matching) as Hsuf
    by apply suffix_drop.
  split_and!.
  - done.
  - intros s t -> Ht. eapply elem_of_suffix in Ht; [|exact Hsuf].
    unfold matching in Ht. by apply list_elem_of_filter in Ht as [? _].
  - intros Hpos. unfold slice_from. rewrite length_drop.
    destruct (Z.ltb_spec (- default 50 l) 0); lia.
  - intros Hz. unfold slice_from. rewrite Hz.
    change (- 0 <? 0) with false. cbv iota.
    by replace (Z.to_nat _) with 0%nat by lia.
  - intros s -> Hle. unfold count_status in *. fold matching in Hle |- *.
    assert (slice_from (- default 50 l) matching = matching) as ->; [|done].
    unfold slice_from. destruct (Z.ltb_spec (- default 50 l) 0).
    + replace (Z.to_nat _) with 0%nat by lia. apply drop_0.
    + replace (Z.to_nat _) with 0%nat by lia. apply drop_0.
Qed.

Lemma list_shows_status_witness :
  let f := snd (run [Add "a" "one" None None None None 1 1;
                     Add "b" "two" None None None None 2 2;
                     Add "c" "three" None None None None 3 3;
                     Claim 4 4] None) in
  id <$> list_tasks (Some pending) (Some 1) f = ["c"]
  ∧ Z.of_nat (length (list_tasks (Some pending) (Some 1) f)) ≤ 1.
Proof.
  intros f. split; [by vm_compute|].
  apply (proj1 (proj2 (proj2 (list_shows_status (Some pending) (Some 1) f)))).
  simpl. lia.
Defined.

End TaskQueueFacts.

(* ================================================================== *)
(** ** Message board: theorems *)
(* ================================================================== *)

Module AgentBoardFacts.
Import AgentBoard.

(** [slice(-limit)] for a positive limit keeps the last [limit] elements. *)
Lemma slice_from_tail {A} (limit : Z) (l : list A) :
  0 < limit → slice_from (- limit) l = drop (length l - Z.to_nat limit) l.
Proof.
  intros Hpos. unfold slice_from.
  destruct (Z.ltb_spec (- limit) 0) as [_|]; [|lia].
  f_equal. lia.
Qed.

(** C3, as stated, fails: with the default limit a board of 51 messages is
    read back as its last 50, and with [limit = 1] a board of two messages as
    the second one alone. *)
Lemma read_last_read_counterexample :
  let m k := mkMessage "id" "b" "a" "text" k None in
  let big := Some (Some <$> (m <$> seqZ 0 51)) in
  let two := Some [Some (m 0); Some (m 1)] in
  length (readBoard big) = 51%nat
  ∧ count (read (λ _, None) "b" (Some "last_read") None big) = 50%nat
  ∧ view_timestamp <$> messages (read (λ _, None) "b" (Some "last_read") (Some 1) two)
    = [1].
Proof. vm_compute. repeat split; reflexivity. Qed.

(** C3, amended.  A read with [since = "last_read"] applies no time filter:
    it answers as a read without [since] does, with the last [limit]
    messages of the board (limit ≥ 1, default 50) in board order.  These are
    all messages of the board when the board holds at most [limit] of them;
    when it holds more, exactly [limit] messages are returned. *)
Theorem read_last_read_bounded_tail (parseDate : string → option Z)
    (board_ : string) (limit_ : option Z) (f : BoardFile) :
  0 < default 50 limit_ →
  let n := Z.to_nat (default 50 limit_) in
  let r := read parseDate board_ (Some "last_read") limit_ f in
  r = read parseDate board_ None limit_ f
  ∧ messages r = view <$> drop (length (readBoard f) - n) (readBoard f)
  ∧ ((length (readBoard f) ≤ n)%nat → messages r = view <$> readBoard f)
  ∧ ((n < length (readBoard f))%nat → count r = n ∧ length (messages r) = n).
Proof.
  intros Hpos n r. subst r. unfold read. simpl.
  rewrite slice_from_tail by done. fold n. split_and!; try done.
  - intros Hle. simpl. by replace (length (readBoard f) - n)%nat with 0%nat by lia.
  - intros Hlt. simpl. rewrite length_fmap, length_drop. lia.
Qed.

Lemma read_last_read_bounded_tail_witness :
  let m k := mkMessage "id" "b" "a" "text" k None in
  let f := Some [Some (m 0); None; Some (m 1); Some (m 2)] in
  0 < default 50 (Some 2)
  ∧ messages (read (λ _, None) "b" (Some "last_read") (Some 2) f)
    = view <$> drop (length (readBoard f) - 2) (readBoard f).
Proof.
  intros m f. split; [reflexivity|].
  exact (proj1 (proj2 (read_last_read_bounded_tail (λ _, None) "b" (Some 2) f
                         eq_refl))).
Defined.

(** The scenario "board cursor": of an old and a new message, a read since a
    time between the two returns the new one alone. *)
Example board_cursor_scenario :
  let f := snd (post "1-b" "timed" "new" (Some "b") None 120
                 (snd (post "1-a" "timed" "old" (Some "a") None 100 None))) in
  let parse s := if decide (s = "T") then Some 110 else None in
  view_message <$> messages (read parse "timed" (Some "T") None f) = ["new"]
  ∧ view_message <$> messages (read parse "timed" None None f) = ["old"; "new"]
  ∧ view_message <$> messages (read parse "timed" (Some "garbled") None f)
    = ["old"; "new"].
Proof. vm_compute. repeat split; reflexivity. Qed.

(** *** Board names *)

Lemma safe_name_all_safe b : all_safe (safe_name b) = true.
Proof.
  induction b as [|c b IH]; [done|]. simpl. rewrite IH, andb_true_r.
  destruct (is_safe_char c) eqn:Hc; [done|]. reflexivity.
Qed.

Lemma safe_name_length b : String.length (safe_name b) = String.length b.
Proof. induction b as [|c b IH]; simpl; congruence. Qed.

Lemma safe_name_id b : all_safe b = true → safe_name b = b.
Proof.
  induction b as [|c b IH]; [done|]. simpl. intros [Hc Hb]%andb_prop.
  by rewrite Hc, IH.
Qed.

Lemma suffix_cancel_safe x y :
  all_safe x = true → all_safe y = true →
  x +:+ ".jsonl" = y +:+ ".jsonl" → x = y.
Proof.
  revert y. induction x as [|c x IH]; intros [|e y] Hx Hy Heq; simpl in *.
  - done.
  - injection Heq as <- _. done.
  - injection Heq as -> _. done.
  - injection Heq as -> Heq.
    apply andb_prop in Hx as [_ Hx]. apply andb_prop in Hy as [_ Hy].
    f_equal. by apply IH.
Qed.

Lemma boardPath_inj b1 b2 :
  boardPath b1 = boardPath b2 ↔ safe_name b1 = safe_name b2.
Proof.
  unfold boardPath. split; [|by intros ->].
  apply suffix_cancel_safe; apply safe_name_all_safe.
Qed.

Lemma readBoard_post i b m fr tg now f :
  readBoard (snd (post i b m fr tg now f))
  = readBoard f
    ++ [mkMessage i b (default "anonymous" fr) m now (tags_field (read_tags tg))].
Proof.
  unfold post, readBoard. simpl. rewrite omap_app. by destruct f.
Qed.

Lemma lookup_write_file path f d : write_file path f d !! path = f.
Proof.
  destruct f; simpl; [apply lookup_insert_eq|apply lookup_delete_eq].
Qed.

Lemma lookup_write_file_ne path path' f d :
  path ≠ path' → write_file path f d !! path' = d !! path'.
Proof.
  intros Hne. destruct f; simpl; [by apply lookup_insert_ne|by apply lookup_delete_ne].
Qed.

(** X8. Boards are told apart by their sanitised names.  The sanitised name
    has the length of the board name and holds only letters, digits, [_] and
    [-]; a name of such characters is its own sanitised name.  Two board
    names with one sanitised name share one log: a message posted under one
    is read under the other.  Board names with different sanitised names
    never touch each other's log, whether by post or by clear. *)
Theorem boards_by_safe_name :
  (∀ b, all_safe (safe_name b) = true
        ∧ String.length (safe_name b) = String.length b
        ∧ (all_safe b = true → safe_name b = b))
  ∧ (∀ pd i b1 b2 m fr tg now s l d,
       safe_name b1 = safe_name b2 →
       read_board pd b2 s l (snd (post_to i b1 m fr tg now d))
       = read pd b2 s l (snd (post i b1 m fr tg now (d !! boardPath b2))))
  ∧ (∀ pd a b b2 s l d,
       (a = Clear b ∨ ∃ i m fr tg now, a = Post i b m fr tg now) →
       safe_name b ≠ safe_name b2 →
       read_board pd b2 s l (board_step a d) = read_board pd b2 s l d).
Proof.
  split_and!.
  - intros b. split_and!;
      [apply safe_name_all_safe|apply safe_name_length|apply safe_name_id].
  - intros pd i b1 b2 m fr tg now s l d Heq%boardPath_inj.
    unfold read_board, post_to. cbn [snd]. by rewrite Heq, lookup_write_file.
  - intros pd a b b2 s l d Ha Hne.
    assert (boardPath b ≠ boardPath b2) as Hp by by rewrite boardPath_inj.
    unfold read_board.
    destruct Ha as [->|(i & m & fr & tg & now & ->)];
      unfold board_step, post_to, clear_board; cbn [snd];
      by rewrite lookup_write_file_ne.
Qed.

(** *** post, then read *)

(** X9. A posted message is the last one of the next read.  After a post to
    a board, a read of that board without [since] and with a limit of at
    least one (default 50) ends with the posted message: its id is the id
    the post returned, [from] is ["anonymous"] when none was given, and the
    timestamp is the clock reading of the post.  The read returns the
    earlier messages before it, cut to the limit: its count is the smaller
    of the limit and the earlier count plus one. *)
Theorem post_then_read (pd : string → option Z) (i b m : string)
    (fr : option string) (tg : option json) (now : Z) (l : option Z)
    (d : BoardDir) :
  0 < default 50 l →
  let d' := snd (post_to i b m fr tg now d) in
  let r := read_board pd b None l d' in
  fst (post_to i b m fr tg now d) = i
  ∧ last (messages r)
    = Some (mkView i (default "anonymous" fr) m now (tags_field (read_tags tg)))
  ∧ Z.of_nat (count r)
    = Z.min (default 50 l)
            (Z.of_nat (length (readBoard (d !! boardPath b))) + 1).
Proof.
  intros Hl d' r. subst r d'. split; [done|].
  unfold read_board, read, post_to. cbn [snd fst].
  rewrite lookup_write_file. cbn [since_filter messages count].
  rewrite readBoard_post. rewrite slice_from_tail by done.
  set (old := readBoard (d !! boardPath b)).
  set (msg := mkMessage _ _ _ _ _ _).
  split.
  - rewrite fmap_last.
    assert (last (drop (length (old ++ [msg]) - Z.to_nat (default 50 l))
                       (old ++ [msg])) = Some msg) as ->;
      [|unfold view, msg; cbn; by rewrite tags_field_idem].
    rewrite length_app. simpl.
    rewrite drop_app_le by lia.
    by rewrite last_snoc.
  - rewrite length_drop, length_app. simpl. lia.
Qed.

Lemma post_then_read_witness :
  view_message
    <$> messages (read_board (λ _, None) "team" None (Some 2)
                    (snd (post_to "3-c" "team" "third" None None 3
                            (board_run [Post "1-a" "team" "first" None None 1;
                                        Post "2-b" "team" "second" None None 2] ∅))))
  = ["second"; "third"]
  ∧ last (messages (read_board (λ _, None) "team" None (Some 2)
                    (snd (post_to "3-c" "team" "third" None None 3
                            (board_run [Post "1-a" "team" "first" None None 1;
                                        Post "2-b" "team" "second" None None 2] ∅)))))
    = Some (mkView "3-c" "anonymous" "third" 3 None).
Proof.
  split; [vm_compute; reflexivity|].
  exact (proj1 (proj2 (post_then_read (λ _, None) "3-c" "team" "third" None None 3
                         (Some 2) _ eq_refl))).
Defined.

(** *** The time filter *)

(** X10. What [since] filters.  With a [since] other than ["last_read"] that
    parses to a time, every message returned has a later timestamp (equal
    timestamps are left out), and the reply is the last [limit] of the
    later messages of the board, in board order.  A [since] that does not
    parse filters nothing: the reply is that of a read without [since].
    Lines of the log that are not valid JSON are skipped. *)
Theorem read_since (parseDate : string → option Z) (board_ s : string)
    (limit_ : option Z) (f : BoardFile) :
  s ≠ "" → s ≠ "last_read" →
  match parseDate s with
  | Some sinceMs =>
    let later := filter (λ m, sinceMs < timestamp m) (readBoard f) in
    Forall (λ v, sinceMs < view_timestamp v)
           (messages (read parseDate board_ (Some s) limit_ f))
    ∧ messages (read parseDate board_ (Some s) limit_ f)
      = view <$> slice_from (- default 50 limit_) later
    ∧ messages (read parseDate board_ (Some s) limit_ f)
      `suffix_of` (view <$> later)
  | None =>
    read parseDate board_ (Some s) limit_ f = read parseDate board_ None limit_ f
  end.
Proof.
  intros Hne Hlr. unfold read. simpl.
  rewrite !decide_False by done.
  destruct (parseDate s) as [ms|]; [|done]. simpl.
  assert (slice_from (- default 50 limit_)
            (filter (λ m, ms < timestamp m) (readBoard f))
          `suffix_of` filter (λ m, ms < timestamp m) (readBoard f)) as Hsuf
    by apply suffix_drop.
  split_and!; [|done|].
  - apply Forall_fmap, Forall_forall. intros m Hm. simpl.
    eapply elem_of_suffix in Hm; [|exact Hsuf].
    by apply list_elem_of_filter in Hm as [? _].
  - destruct Hsuf as [k Hk]. exists (view <$> k).
    by rewrite <- fmap_app, <- Hk.
Qed.

Lemma read_since_witness :
  let pd := λ s : string, if decide (s = "t1") then Some 1 else None in
  let f := Some [Some (mkMessage "1" "b" "a" "old" 1 None); None;
                 Some (mkMessage "2" "b" "a" "new" 2 None)] in
  Forall (λ v, 1 < view_timestamp v) (messages (read pd "b" (Some "t1") None f))
  ∧ view_message <$> messages (read pd "b" (Some "t1") None f) = ["new"].
Proof.
  intros pd f. split; [|reflexivity].
  pose proof (read_since pd "b" "t1" None f ltac:(done) ltac:(done)) as H.
  change (pd "t1") with (Some 1) in H. exact (proj1 H).
Defined.

(** *** Clock order *)

Lemma StronglySorted_sublist {A} (R : relation A) (l1 l2 : list A) :
  l1 `sublist_of` l2 → StronglySorted R l2 → StronglySorted R l1.
Proof.
  induction 1 as [|x l1 l2 Hsub IH|x l1 l2 Hsub IH]; intros Hs; [done| |].
  - apply StronglySorted_inv in Hs as [Hs Hall]. constructor; [by apply IH|].
    eapply Forall_forall. intros y Hy. eapply Forall_forall in Hall; [done|].
    by eapply elem_of_sublist.
  - apply StronglySorted_inv in Hs as [Hs _]. by apply IH.
Qed.

(** X11. Clock order is kept.  A post whose clock reading is not before any
    timestamp in the log keeps the log in clock order, and every read of a
    log in clock order, with or without [since] and whatever the limit,
    returns its messages with non-decreasing timestamps. *)
Theorem chronological_kept (pd : string → option Z) (f : BoardFile) :
  chronological f →
  (∀ i b m fr tg now,
     Forall (λ x, timestamp x ≤ now) (readBoard f) →
     chronological (snd (post i b m fr tg now f)))
  ∧ (∀ b s l,
       StronglySorted Z.le (view_timestamp <$> messages (read pd b s l f))).
Proof.
  unfold chronological. intros Hc. split.
  - intros i b m fr tg now Hle. rewrite readBoard_post, fmap_app.
    apply StronglySorted_app_2; [|done|repeat constructor].
    intros x1 x2 Hx1 Hx2. apply list_elem_of_fmap in Hx1 as (m1 & -> & Hm1).
    apply list_elem_of_singleton in Hx2 as ->. simpl.
    by eapply Forall_forall in Hle.
  - intros b s l. unfold read. simpl.
    rewrite <- list_fmap_compose.
    change (view_timestamp ∘ view) with timestamp.
    assert (StronglySorted Z.le (timestamp <$> since_filter pd s (readBoard f)))
      as Hs.
    { unfold since_filter. destruct s as [s|]; [|done].
      repeat case_decide; try done. destruct (pd s); [|done].
      eapply StronglySorted_sublist; [|exact Hc].
      apply fmap_sublist, sublist_filter. }
    unfold slice_from. rewrite fmap_drop.
    eapply StronglySorted_sublist; [|exact Hs]. apply sublist_drop.
Qed.

Lemma chronological_kept_witness :
  StronglySorted Z.le
    (view_timestamp
       <$> messages (read (λ _, None) "b" None (Some 1)
                       (Some [Some (mkMessage "1" "b" "a" "x" 1 None);
                              Some (mkMessage "2" "b" "a" "y" 4 None)]))).
Proof.
  apply (chronological_kept (λ _, None)
           (Some [Some (mkMessage "1" "b" "a" "x" 1 None);
                  Some (mkMessage "2" "b" "a" "y" 4 None)])).
  unfold chronological. simpl. repeat constructor; lia.
Defined.

(** *** clear and list *)

Lemma ends_with_cons suffix c s :
  ends_with suffix s = true → ends_with suffix (String c s) = true.
Proof. intros Hs. simpl. rewrite Hs. apply orb_true_r. Qed.

Lemma ends_with_suffix s : ends_with ".jsonl" (s +:+ ".jsonl") = true.
Proof. induction s as [|c s IH]; [done|]. by apply ends_with_cons. Qed.

Lemma remove_first_cons c s :
  c ≠ "."%char →
  remove_first ".jsonl" (String c s) = String c (remove_first ".jsonl" s).
Proof.
  intros Hc.
  assert (remove_first ".jsonl" (String c s)
          = if String.prefix ".jsonl" (String c s)
            then drop_chars (String.length ".jsonl") (String c s)
            else String c (remove_first ".jsonl" s)) as -> by reflexivity.
  change (String.prefix ".jsonl" (String c s))
    with (if ascii_dec "." c then String.prefix "jsonl" s else false).
  destruct (ascii_dec "." c) as [Heq|_]; [by destruct Hc|done].
Qed.

Lemma remove_first_suffix s :
  all_safe s = true → remove_first ".jsonl" (s +:+ ".jsonl") = s.
Proof.
  induction s as [|c s IH]; [done|]. intros [Hc Hs]%andb_prop.
  change (String c s +:+ ".jsonl") with (String c (s +:+ ".jsonl")).
  rewrite remove_first_cons; [by rewrite (IH Hs)|].
  intros ->. done.
Qed.

(** Every file of a directory built by posts and clears is a board log. *)
Lemma board_run_keys tr :
  ∀ path, path ∈ dom (board_run tr ∅) →
          ∃ n, all_safe n = true ∧ path = n +:+ ".jsonl".
Proof.
  unfold board_run.
  assert (∀ d : BoardDir,
            (∀ path, path ∈ dom d → ∃ n, all_safe n = true ∧ path = n +:+ ".jsonl") →
            ∀ path, path ∈ dom (foldl (λ d a, board_step a d) d tr) →
                    ∃ n, all_safe n = true ∧ path = n +:+ ".jsonl") as Hgen.
  { induction tr as [|a tr IH]; intros d Hd; [done|]. simpl. apply IH.
    intros path Hin.
    assert (∀ b f, path ∈ dom (write_file (boardPath b) f d) →
                   ∃ n, all_safe n = true ∧ path = n +:+ ".jsonl") as Hw.
    { intros b f Hp. destruct (decide (path = boardPath b)) as [->|Hne].
      - exists (safe_name b). split; [apply safe_name_all_safe|done].
      - apply Hd. apply elem_of_dom. apply elem_of_dom in Hp.
        by rewrite lookup_write_file_ne in Hp. }
    destruct a; unfold board_step, post_to, clear_board in Hin; cbn [snd] in Hin;
      by eapply Hw. }
  apply Hgen. intros path Hin. apply elem_of_dom in Hin as [x Hx].
  by rewrite lookup_empty in Hx.
Qed.

Lemma read_missing pd b s l : count (read pd b s l None) = 0%nat.
Proof.
  unfold read, readBoard. cbn [count].
  assert (since_filter pd s [] = []) as ->.
  { unfold since_filter. destruct s as [s|]; [|done].
    repeat case_decide; try done. by destruct (pd s). }
  unfold slice_from. by rewrite drop_nil.
Qed.

(** X12. What [list] reports.  In a directory built from nothing by posts
    and clears, [list] names each board that has a log once, by its
    sanitised name, and names nothing else.  A board has a log right after a
    post to it and none right after a clear of it; a clear answers
    [cleared] when there was a log and [ok] when there was none, and a read
    of a board without a log returns no messages. *)
Theorem list_reports_live_boards (tr : list BoardAction) :
  let d := board_run tr ∅ in
  NoDup (list_boards d)
  ∧ (∀ n, n ∈ list_boards d
          ↔ ∃ b, n = safe_name b ∧ is_Some (d !! boardPath b))
  ∧ (∀ i b m fr tg now,
       safe_name b ∈ list_boards (board_run (tr ++ [Post i b m fr tg now]) ∅))
  ∧ (∀ b, (safe_name b ∉ list_boards (board_run (tr ++ [Clear b]) ∅))
          ∧ (is_Some (d !! boardPath b) → fst (clear_board b d) = "cleared")
          ∧ (d !! boardPath b = None → fst (clear_board b d) = "ok")
          ∧ ∀ pd s l, count (read_board pd b s l (snd (clear_board b d))) = 0%nat).
Proof.
  assert (∀ tr, let d := board_run tr ∅ in
            NoDup (list_boards d)
            ∧ (∀ n, n ∈ list_boards d
                    ↔ ∃ b, n = safe_name b ∧ is_Some (d !! boardPath b))) as Hlist.
  { clear tr. intros tr d. pose proof (board_run_keys tr) as Hkeys.
    fold d in Hkeys. unfold list_boards. split.
    - apply NoDup_fmap_2_strong.
      + intros x y Hx Hy Heq.
        apply list_elem_of_filter in Hx as [_ Hx]. apply elem_of_elements in Hx.
        apply list_elem_of_filter in Hy as [_ Hy]. apply elem_of_elements in Hy.
        destruct (Hkeys x Hx) as (nx & Hnx & ->).
        destruct (Hkeys y Hy) as (ny & Hny & ->).
        rewrite !remove_first_suffix in Heq by done. by rewrite Heq.
      + apply NoDup_filter, NoDup_elements.
    - intros n. rewrite list_elem_of_fmap. split.
      + intros (path & -> & Hin). apply list_elem_of_filter in Hin as [_ Hin].
        apply elem_of_elements in Hin.
        destruct (Hkeys path Hin) as (s & Hs & ->).
        exists s. rewrite remove_first_suffix by done.
        rewrite (safe_name_id s Hs). split; [done|].
        apply elem_of_dom in Hin. unfold boardPath. by rewrite (safe_name_id s Hs).
      + intros (b & -> & Hsome). exists (boardPath b). split.
        * unfold boardPath. by rewrite remove_first_suffix by apply safe_name_all_safe.
        * apply list_elem_of_filter. split; [apply ends_with_suffix|].
          apply elem_of_elements. by apply elem_of_dom. }
  intros d. destruct (Hlist tr) as [Hnd Hmem]. fold d in Hnd, Hmem.
  split_and!; [done|done| |].
  - intros i b m fr tg now.
    destruct (Hlist (tr ++ [Post i b m fr tg now])) as [_ Hm]. apply Hm.
    exists b. split; [done|]. unfold board_run. rewrite foldl_app. simpl.
    by rewrite lookup_insert_eq.
  - intros b. split_and!.
    + destruct (Hlist (tr ++ [Clear b])) as [_ Hm]. rewrite Hm.
      intros (b' & Heq & Hsome). apply boardPath_inj in Heq.
      unfold board_run in Hsome. rewrite foldl_app in Hsome. simpl in Hsome.
      rewrite <- Heq in Hsome.
      rewrite lookup_write_file in Hsome.
      destruct Hsome as [x Hx]. by destruct (foldl _ _ _ !! _).
    + intros [x Hx]. unfold clear_board. by rewrite Hx.
    + intros Hx. unfold clear_board. by rewrite Hx.
    + intros pd s l. unfold read_board, clear_board.
      cbn [snd]. rewrite lookup_write_file.
      assert (snd (clear (d !! boardPath b)) = None) as -> by by destruct (d !! _).
      apply read_missing.
Qed.

End AgentBoardFacts.

(* ================================================================== *)
(** ** Knowledge store: theorems *)
(* ================================================================== *)

Module KnowledgeStoreFacts.
Import KnowledgeStore.

(** *** Reading entries *)

Lemma lookup_entry_own category key f e :
  lookup_entry category key f = OwnEntry e
  ↔ ∃ entries, loadStore f !! category = Some entries ∧ entries !! key = Some e.
Proof.
  unfold lookup_entry, read_category, read_member. split.
  - destruct (loadStore f !! category) as [es|]; [|by destruct (inherited category)].
    destruct (es !! key) as [e'|] eqn:He; [|by destruct (inherited key)].
    intros [= ->]. by exists es.
  - intros (es & -> & ->). done.
Qed.

Lemma lookup_entry_not_builtin category key f :
  lookup_entry category key f ≠ OfBuiltin
  ↔ is_Some (loadStore f !! category) ∨ inherited category = false.
Proof.
  unfold lookup_entry, read_category, read_member.
  destruct (loadStore f !! category) as [es|].
  - split; [by left; eexists|]. intros _.
    destruct (es !! key); [done|]. by destruct (inherited key).
  - destruct (inherited category); split; try done.
    + by intros [[? [=]]|].
    + by right.
Qed.


(** The document a set writes, when its category is not read from the
    prototype. *)
Lemma set_spec category key d tags_ nc nu f :
  lookup_entry category key f ≠ OfBuiltin →
  let entries := default ∅ (loadStore f !! category) in
  set category key (Some d) tags_ nc nu f
  = (match read_member key entries with
     | NoEntry => Created category key
     | _ => Updated category key
     end,
     Some (<[category :=
               assign_member key
                 (mkEntry d
                    (match read_member key entries with
                     | OwnEntry e => createdAt e
                     | _ => nc
                     end) nu (tags_field (read_tags tags_)))
                 entries]> (loadStore f))).
Proof.
  intros Hb. apply lookup_entry_not_builtin in Hb. unfold set, read_category.
  destruct (loadStore f !! category) as [es|]; [done|].
  destruct Hb as [[? [=]]| ->]. done.
Qed.


(** The document a delete writes, when it finds a truthy value. *)
Lemma delete_spec category key f entries :
  loadStore f !! category = Some entries →
  is_Some (entries !! key) ∨ inherited key = true →
  delete_entry category key f
  = (Deleted category key,
     Some (if decide (delete key entries = ∅) then delete category (loadStore f)
           else <[category := delete key entries]> (loadStore f))).
Proof.
  intros Hc Hk. unfold delete_entry, lookup_entry, read_category, read_member.
  rewrite Hc. cbn [default from_option id].
  destruct (entries !! key) as [e|]; [done|].
  destruct Hk as [[? [=]]| ->]. done.
Qed.

Lemma delete_unchanged category key f :
  lookup_entry category key f = NoEntry ∨ lookup_entry category key f = OfBuiltin →
  snd (delete_entry category key f) = f.
Proof. unfold delete_entry. by intros [-> | ->]. Qed.

Lemma lookup_entry_set category key d tags_ nc nu f :
  lookup_entry category key f ≠ OfBuiltin →
  (key = "__proto__" → ∃ e, lookup_entry category key f = OwnEntry e) →
  lookup_entry category key (snd (set category key (Some d) tags_ nc nu f))
  = OwnEntry (mkEntry d
                (match lookup_entry category key f with
                 | OwnEntry e => createdAt e
                 | _ => nc
                 end)
                nu (tags_field (read_tags tags_))).
Proof.
  intros Hb Hproto. rewrite set_spec by done. cbn [snd].
  unfold lookup_entry at 1. unfold read_category. cbn [loadStore].
  rewrite lookup_insert_eq. unfold assign_member.
  assert (read_member key (default ∅ (loadStore f !! category))
          = match lookup_entry category key f with
            | OwnEntry e => OwnEntry e
            | _ => read_member key (default ∅ (loadStore f !! category))
            end ∧
          (∀ e, lookup_entry category key f = OwnEntry e →
                default ∅ (loadStore f !! category) !! key = Some e) ∧
          ((∀ e, lookup_entry category key f ≠ OwnEntry e) →
           default ∅ (loadStore f !! category) !! key = None)) as (Hr & Hown & Hnone).
  { unfold lookup_entry, read_category, read_member.
    destruct (loadStore f !! category) as [es|]; cbn [default from_option id].
    - destruct (es !! key) as [e|]; [by split_and!; [|intros ? [= ->]|intros H; edestruct H]|].
      destruct (inherited key); split_and!; done.
    - rewrite lookup_empty. destruct (inherited category), (inherited key);
        split_and!; done. }
  destruct (lookup_entry category key f) as [e| | |] eqn:Hl.
  - rewrite Hr. case_decide as Hd.
    + destruct Hd as [_ Hd]. by rewrite (Hown e eq_refl) in Hd.
    + unfold read_member. by rewrite lookup_insert_eq.
  - assert (key ≠ "__proto__") as Hk.
    { intros Heq. by destruct (Hproto Heq) as [e He]. }
    rewrite decide_False by (by intros [? _]).
    unfold read_member at 1. rewrite lookup_insert_eq.
    unfold read_member. rewrite Hnone by done. by destruct (inherited key).
  - assert (key ≠ "__proto__") as Hk.
    { intros Heq. by destruct (Hproto Heq) as [e He]. }
    rewrite decide_False by (by intros [? _]).
    unfold read_member at 1. rewrite lookup_insert_eq.
    unfold read_member. rewrite Hnone by done. by destruct (inherited key).
  - done.
Qed.



(** *** Round trip *)

(** C7, the failing input.  A set under the key [__proto__], on a pair that
    holds no entry, reaches the [__proto__] setter of [Object.prototype].
    It answers [updated], stores nothing under the key (the category is
    created, empty, when it was missing), and the get that follows takes
    [Object.prototype] for the entry and throws instead of returning the
    data. *)
Theorem proto_key_not_stored (category : string) (d : json) (tags_ : option json)
    (nc nu : Z) (f : StoreFile) :
  inherited category = false →
  (∀ e, lookup_entry category "__proto__" f ≠ OwnEntry e) →
  let f' := snd (set category "__proto__" (Some d) tags_ nc nu f) in
  fst (set category "__proto__" (Some d) tags_ nc nu f)
  = Updated category "__proto__"
  ∧ loadStore f'
    = <[category := default ∅ (loadStore f !! category)]> (loadStore f)
  ∧ get category "__proto__" f' = Thrown "RangeError: Invalid time value"
  ∧ reply_data (get category "__proto__" f') ≠ Some d.
Proof.
  intros Hc Hown f'.
  assert (lookup_entry category "__proto__" f ≠ OfBuiltin) as Hb
    by (apply lookup_entry_not_builtin; by right).
  assert (default ∅ (loadStore f !! category) !! "__proto__" = None) as Hnone.
  { destruct (loadStore f !! category) as [es|] eqn:Hes; [|done].
    cbn [default from_option id]. destruct (es !! "__proto__") as [e|] eqn:He; [|done].
    destruct (Hown e). apply lookup_entry_own. by exists es. }
  subst f'. rewrite set_spec by done. cbn [fst snd loadStore].
  unfold read_member, assign_member. rewrite Hnone.
  rewrite decide_True by done.
  assert (get category "__proto__"
            (Some (<[category := default ∅ (loadStore f !! category)]> (loadStore f)))
          = Thrown "RangeError: Invalid time value") as Hget.
  { unfold get, lookup_entry, read_category, read_member. cbn [loadStore].
    by rewrite lookup_insert_eq, Hnone. }
  split_and!; [done|done|done|by rewrite Hget].
Qed.

Lemma proto_key_not_stored_witness :
  let f' := snd (set "notes" "__proto__" (Some (JStr "x")) None 1 2 None) in
  f' = Some {["notes" := ∅]}
  ∧ get "notes" "__proto__" f' = Thrown "RangeError: Invalid time value".
Proof.
  intros f'. split; [reflexivity|].
  apply (proto_key_not_stored "notes" (JStr "x") None 1 2 None); [reflexivity|].
  intros e He. discriminate He.
Defined.

(** X27. Round trip on the pairs the store can hold.  When the category is
    in the document or is not the name of a member of [Object.prototype],
    and the key is not [__proto__] (or is held as an own property), a set of
    [data] followed by a get of the pair answers [ok] with that data, the
    tags of the set, the clock reading of the set as updatedAt, and as
    createdAt that of the entry the pair held, or the clock reading when it
    held none.  A set on a pair that holds an entry answers [updated] and
    replaces the entry, keeping its createdAt.  After two successive sets of
    a pair the two gets show the same createdAt and the clock readings of
    the two sets as updatedAt, so updatedAt does not go back unless the
    clock does. *)
Theorem set_get_roundtrip :
  (∀ category key d tags_ nc nu f,
     lookup_entry category key f ≠ OfBuiltin →
     (key = "__proto__" → ∃ e, lookup_entry category key f = OwnEntry e) →
     get category key (snd (set category key (Some d) tags_ nc nu f))
     = Ok category key d
          (match lookup_entry category key f with
           | OwnEntry e => createdAt e
           | _ => nc
           end)
          nu (tags_field (read_tags tags_)))
  ∧ (∀ category key d tags_ nc nu f e,
       lookup_entry category key f = OwnEntry e →
       fst (set category key (Some d) tags_ nc nu f) = Updated category key
       ∧ lookup_entry category key (snd (set category key (Some d) tags_ nc nu f))
         = OwnEntry (mkEntry d (createdAt e) nu (tags_field (read_tags tags_))))
  ∧ (∀ category key d1 tags1 nc1 nu1 d2 tags2 nc2 nu2 f,
       lookup_entry category key f ≠ OfBuiltin →
       (key = "__proto__" → ∃ e, lookup_entry category key f = OwnEntry e) →
       let f1 := snd (set category key (Some d1) tags1 nc1 nu1 f) in
       let f2 := snd (set category key (Some d2) tags2 nc2 nu2 f1) in
       ∃ c, get category key f1 = Ok category key d1 c nu1 (tags_field (read_tags tags1))
          ∧ get category key f2 = Ok category key d2 c nu2 (tags_field (read_tags tags2))).
Proof.
  split_and!.
  - intros category key d tags_ nc nu f Hb Hp. unfold get.
    rewrite lookup_entry_set by done. cbn [data createdAt updatedAt tags].
    by rewrite tags_field_idem.
  - intros category key d tags_ nc nu f e He.
    assert (lookup_entry category key f ≠ OfBuiltin) as Hb by by rewrite He.
    split.
    + rewrite set_spec by done. cbn [fst].
      apply lookup_entry_own in He as (es & -> & He). cbn [default from_option id].
      unfold read_member. by rewrite He.
    + rewrite lookup_entry_set; [by rewrite He|done|]. intros _. by exists e.
  - intros category key d1 tags1 nc1 nu1 d2 tags2 nc2 nu2 f Hb Hp f1 f2.
    pose proof (lookup_entry_set category key d1 tags1 nc1 nu1 f Hb Hp) as H1.
    fold f1 in H1.
    assert (lookup_entry category key f1 ≠ OfBuiltin) as Hb1 by by rewrite H1.
    pose proof (lookup_entry_set category key d2 tags2 nc2 nu2 f1 Hb1) as H2.
    fold f2 in H2. rewrite H1 in H2. cbn [createdAt] in H2.
    unfold get. rewrite H1, H2; [|intros _; by eexists].
    cbn [data createdAt updatedAt tags]. rewrite !tags_field_idem.
    eexists. split; reflexivity.
Qed.

Lemma set_get_roundtrip_witness :
  let f := snd (set "contacts" "sean" (Some (JStr "Sean")) None 10 10 None) in
  fst (set "contacts" "sean" (Some (JStr "Sean Durkan")) None 25 25 f)
  = Updated "contacts" "sean"
  ∧ lookup_entry "contacts" "sean"
      (snd (set "contacts" "sean" (Some (JStr "Sean Durkan")) None 25 25 f))
    = OwnEntry (mkEntry (JStr "Sean Durkan") 10 25 None).
Proof.
  intros f.
  apply (proj1 (proj2 set_get_roundtrip) "contacts" "sean" (JStr "Sean Durkan")
           None 25 25 f (mkEntry (JStr "Sean") 10 10 None)).
  reflexivity.
Defined.

(** C10. A set on a pair that already holds an entry replaces the entry: the
    new entry takes its data and tags from the call and its updatedAt from
    the clock, and only createdAt from the old entry.  Without a tags
    argument, or with an empty tags array, the new entry has no tags field,
    whatever tags the old entry had, and a get answers without tags. *)
Theorem set_replaces_tags (category key : string) (d : json) (tags_ : option json)
    (nc nu : Z) (f : StoreFile) (e : Entry) :
  lookup_entry category key f = OwnEntry e →
  let f' := snd (set category key (Some d) tags_ nc nu f) in
  lookup_entry category key f'
  = OwnEntry (mkEntry d (createdAt e) nu (tags_field (read_tags tags_)))
  ∧ (tags_ = None ∨ tags_ = Some (JArr []) →
     lookup_entry category key f' = OwnEntry (mkEntry d (createdAt e) nu None)
     ∧ get category key f' = Ok category key d (createdAt e) nu None).
Proof.
  intros He f'. subst f'.
  assert (lookup_entry category key f ≠ OfBuiltin) as Hb by by rewrite He.
  pose proof (lookup_entry_set category key d tags_ nc nu f Hb) as Hl.
  rewrite He in Hl. specialize (Hl (λ _, ex_intro _ e eq_refl)).
  split; [done|]. intros Ht.
  assert (tags_field (read_tags tags_) = None) as Hn
    by (by destruct Ht as [->| ->]).
  rewrite Hn in Hl. split; [done|]. unfold get. by rewrite Hl.
Qed.

Lemma set_replaces_tags_witness :
  let f := snd (set "contacts" "sean" (Some (JStr "Sean"))
                    (Some (JArr [JStr "client"; JNum 7])) 10 10 None) in
  lookup_entry "contacts" "sean" f
  = OwnEntry (mkEntry (JStr "Sean") 10 10 (Some ["client"]))
  ∧ get "contacts" "sean" (snd (set "contacts" "sean" (Some JNull) None 20 20 f))
    = Ok "contacts" "sean" JNull 10 20 None.
Proof.
  intros f. split; [reflexivity|].
  apply (set_replaces_tags "contacts" "sean" JNull None 20 20 f
           (mkEntry (JStr "Sean") 10 10 (Some ["client"])) eq_refl).
  by left.
Defined.

(** *** delete *)

Lemma lookup_entry_delete_other category key category' key' f e :
  (category', key') ≠ (category, key) →
  lookup_entry category' key' (snd (delete_entry category key f)) = OwnEntry e
  ↔ lookup_entry category' key' f = OwnEntry e.
Proof.
  intros Hne.
  destruct (lookup_entry category key f) as [e0| | |] eqn:Hl;
    [| |by rewrite delete_unchanged by auto..].
  - apply lookup_entry_own in Hl as (es & Hc & He).
    rewrite (delete_spec category key f es) by (by eauto). cbn [snd].
    rewrite !lookup_entry_own. cbn [loadStore].
    destruct (decide (category = category')) as [<-|Hcc].
    + assert (key ≠ key') as Hk by congruence. rewrite Hc. case_decide as Hempty.
      * rewrite lookup_delete_eq. split; [by intros (? & [=] & _)|].
        intros (es' & [= <-] & He').
        rewrite <- (lookup_delete_ne es key key'), Hempty, lookup_empty in He' by done.
        done.
      * rewrite lookup_insert_eq. split.
        -- intros (es' & [= <-] & He'). exists es. split; [done|].
           by rewrite lookup_delete_ne in He'.
        -- intros (es' & [= <-] & He'). eexists. split; [done|].
           by rewrite lookup_delete_ne.
    + case_decide; [by rewrite lookup_delete_ne|by rewrite lookup_insert_ne].
  - assert (∃ es, loadStore f !! category = Some es ∧ es !! key = None
                  ∧ inherited key = true) as (es & Hc & He & Hi).
    { unfold lookup_entry, read_category, read_member in Hl.
      destruct (loadStore f !! category) as [es|]; [|by destruct (inherited category)].
      exists es. destruct (es !! key); [done|]. by destruct (inherited key). }
    rewrite (delete_spec category key f es) by (by eauto). cbn [snd].
    rewrite !lookup_entry_own. cbn [loadStore]. rewrite delete_id by done.
    case_decide as Hempty.
    + destruct (decide (category = category')) as [<-|Hcc].
      * rewrite lookup_delete_eq, Hc, Hempty. split; [by intros (? & [=] & _)|].
        intros (es' & [= <-] & He'). by rewrite lookup_empty in He'.
      * by rewrite lookup_delete_ne.
    + by rewrite insert_id.
Qed.

Lemma lookup_entry_delete_frame category key category' key' f :
  (category', key') ≠ (category, key) →
  inherited category' = false → inherited key' = false →
  lookup_entry category' key' (snd (delete_entry category key f))
  = lookup_entry category' key' f.
Proof.
  intros Hne Hc' Hk'.
  pose proof (lookup_entry_delete_other category key category' key' f) as Hown.
  specialize (λ e, Hown e Hne).
  assert (∀ g, lookup_entry category' key' g = NoEntry
               ∨ ∃ e, lookup_entry category' key' g = OwnEntry e) as Hshape.
  { intros g. unfold lookup_entry, read_category, read_member. rewrite Hc', Hk'.
    destruct (loadStore g !! category') as [es|]; [|by left].
    destruct (es !! key') as [e|]; [right; by exists e|by left]. }
  destruct (Hshape f) as [Hf|[e Hf]].
  - destruct (Hshape (snd (delete_entry category key f))) as [Hg|[e Hg]];
      [congruence|].
    apply Hown in Hg. congruence.
  - rewrite Hf. by apply Hown.
Qed.

(** X13. What a delete removes.  On a pair that reads as nothing it answers
    [not_found] and leaves the file as it is.  On a pair that holds an entry
    it answers [deleted] and removes the entry; a get of the pair then
    answers [not_found] when category and key are ordinary names.  On a key
    that names a member of [Object.prototype] and holds no entry it also
    answers [deleted], and removes no entry.  In every case the entries
    held under the other pairs stay as they are, also when the delete
    removes the last key of its category and with it the category, and a get
    of another pair of ordinary names answers as before. *)
Theorem delete_removes_one_entry (category key : string) (f : StoreFile) :
  let f' := snd (delete_entry category key f) in
  (lookup_entry category key f = NoEntry →
     delete_entry category key f = (NotFound category key, f))
  ∧ (∀ e, lookup_entry category key f = OwnEntry e →
          fst (delete_entry category key f) = Deleted category key
          ∧ (∀ e', lookup_entry category key f' ≠ OwnEntry e')
          ∧ (inherited category = false → inherited key = false →
             get category key f' = NotFound category key))
  ∧ (lookup_entry category key f = InheritedMember →
       fst (delete_entry category key f) = Deleted category key
       ∧ ∀ e', lookup_entry category key f' ≠ OwnEntry e')
  ∧ (∀ category' key' e,
       (category', key') ≠ (category, key) →
       lookup_entry category' key' f' = OwnEntry e
       ↔ lookup_entry category' key' f = OwnEntry e)
  ∧ (∀ category' key',
       (category', key') ≠ (category, key) →
       inherited category' = false → inherited key' = false →
       get category' key' f' = get category' key' f).
Proof.
  intros f'.
  assert (is_Some (loadStore f !! category) →
          (∀ es, loadStore f !! category = Some es →
                 is_Some (es !! key) ∨ inherited key = true) →
          ∀ e', lookup_entry category key f' ≠ OwnEntry e') as Hgone.
  { intros [es Hc] Hk e' He'. subst f'.
    rewrite (delete_spec category key f es) in He' by (by eauto).
    cbn [snd] in He'. apply lookup_entry_own in He' as (es' & Hes' & He').
    cbn [loadStore] in Hes'. case_decide.
    - by rewrite lookup_delete_eq in Hes'.
    - rewrite lookup_insert_eq in Hes'. injection Hes' as <-.
      by rewrite lookup_delete_eq in He'. }
  split_and!.
  - intros Hl. unfold delete_entry. by rewrite Hl.
  - intros e He. pose proof He as Hl.
    apply lookup_entry_own in He as (es & Hc & He).
    split_and!.
    + by rewrite (delete_spec category key f es) by (by eauto).
    + apply Hgone; [by eexists|]. intros es' Hes'. left.
      assert (es' = es) as -> by congruence. by eexists.
    + intros Hic Hik.
      assert (∀ e', lookup_entry category key f' ≠ OwnEntry e') as Hno.
      { apply Hgone; [by eexists|]. intros es' Hes'. left.
        assert (es' = es) as -> by congruence. by eexists. }
      unfold get. revert Hno. unfold lookup_entry, read_category, read_member.
      rewrite Hic, Hik. destruct (loadStore f' !! category) as [es'|]; [|done].
      destruct (es' !! key) as [e'|]; [|done]. intros Hno. by destruct (Hno e').
  - intros Hl. unfold lookup_entry, read_category, read_member in Hl.
    destruct (loadStore f !! category) as [es|] eqn:Hc;
      [|by destruct (inherited category)].
    destruct (es !! key) as [e|] eqn:He; [done|].
    destruct (inherited key) eqn:Hi; [|done]. split.
    + by rewrite (delete_spec category key f es) by (by eauto).
    + apply Hgone; [by eexists|]. intros es' Hes'. by right.
  - intros c' k' e Hne. by apply lookup_entry_delete_other.
  - intros c' k' Hne Hc' Hk'. unfold get, f'.
    by rewrite lookup_entry_delete_frame.
Qed.

(** *** set *)


(** *** categories and list *)






Lemma list_entries_listed c l f v :
  v ∈ list_keys (list_entries c l f) →
  ∃ e, lookup_entry c (listed_key v) f = OwnEntry e
       ∧ listed_updatedAt v = updatedAt e ∧ listed_tags v = tags_field (tags e).
Proof.
  unfold list_entries. cbn [list_keys]. intros Hv.
  apply list_elem_of_fmap in Hv as ([k e] & -> & Hin).
  unfold slice_to in Hin. apply elem_of_take in Hin as (i & Hi & _).
  apply list_elem_of_lookup_2, elem_of_map_to_list in Hi.
  exists e. split; [|done]. apply lookup_entry_own. cbn [listed_key fst].
  destruct (loadStore f !! c) as [es|]; [by exists es|].
  simpl in Hi. by rewrite lookup_empty in Hi.
Qed.

(** X16. What [list] returns.  The count is the number of keys of the
    category, whatever the limit.  The keys listed are distinct keys of the
    category, each with the updatedAt and tags a get of it returns; for a
    limit of zero or more (default 50) there are as many as the smaller of
    the limit and the count.  When the count does not exceed the limit, the
    keys listed are exactly the keys that can be got. *)
Theorem list_returns_keys (c : string) (l : option Z) (f : StoreFile) :
  let r := list_entries c l f in
  NoDup (listed_key <$> list_keys r)
  ∧ (∀ v, v ∈ list_keys r →
          ∃ d cr, get c (listed_key v) f
                  = Ok c (listed_key v) d cr (listed_updatedAt v) (listed_tags v))
  ∧ (0 ≤ default 50 l →
       Z.of_nat (length (list_keys r))
       = Z.min (default 50 l) (Z.of_nat (list_count r)))
  ∧ (Z.of_nat (list_count r) ≤ default 50 l →
       ∀ k, k ∈ listed_key <$> list_keys r ↔ reply_status (get c k f) = "ok").
Proof.
  intros r. split_and!.
  - unfold r, list_entries. cbn [list_keys]. rewrite <- list_fmap_compose.
    eapply sublist_NoDup; [apply (NoDup_fst_map_to_list
                                    (default ∅ (loadStore f !! c)))|].
    apply fmap_sublist. unfold slice_to. apply sublist_take.
  - intros v Hv. apply list_entries_listed in Hv as (e & He & Hu & Ht).
    exists (data e), (createdAt e). unfold get. by rewrite He, Hu, Ht.
  - intros Hl. unfold r, list_entries. cbn [list_keys list_count].
    rewrite length_fmap. unfold slice_to.
    rewrite length_take, length_map_to_list.
    destruct (Z.ltb_spec (default 50 l) 0); lia.
  - intros Hl k. unfold r, list_entries in *. cbn [list_keys list_count] in *.
    unfold slice_to. rewrite length_map_to_list.
    destruct (Z.ltb_spec (default 50 l) 0) as [|_]; [lia|].
    rewrite take_ge by (rewrite length_map_to_list; lia).
    rewrite <- list_fmap_compose.
    change (listed_key ∘ _) with (fst : string * Entry → string).
    assert (reply_status (get c k f) = "ok"
            ↔ ∃ e, default ∅ (loadStore f !! c) !! k = Some e) as ->.
    { unfold get. split.
      - destruct (lookup_entry c k f) as [e| | |] eqn:Hlk; try done. intros _.
        apply lookup_entry_own in Hlk as (es & -> & He). by exists e.
      - intros [e He].
        assert (lookup_entry c k f = OwnEntry e) as ->; [|done].
        apply lookup_entry_own. destruct (loadStore f !! c) as [es|]; [by exists es|].
        simpl in He. by rewrite lookup_empty in He. }
    rewrite list_elem_of_fmap. split.
    + intros ([k' e] & -> & Hin). apply elem_of_map_to_list in Hin. by exists e.
    + intros [e He]. exists (k, e). split; [done|]. by apply elem_of_map_to_list.
Qed.

Lemma list_returns_keys_witness :
  let f := run [Set_ "contacts" "a" (JNum 1) None 1 1;
                Set_ "contacts" "b" (JNum 2) None 2 2;
                Set_ "contacts" "c" (JNum 3) None 3 3] None in
  Z.of_nat (length (list_keys (list_entries "contacts" (Some 2) f)))
  = Z.min 2 (Z.of_nat (list_count (list_entries "contacts" (Some 2) f)))
  ∧ list_count (list_entries "contacts" (Some 2) f) = 3%nat.
Proof.
  intros f. split; [|by vm_compute].
  apply (proj1 (proj2 (proj2 (list_returns_keys "contacts" (Some 2) f)))).
  simpl. lia.
Defined.


End KnowledgeStoreFacts.

(* ================================================================== *)
(** ** Workflow engine: theorems *)
(* ================================================================== *)

Module WorkflowFacts.
Import Workflow.

(** *** Facts about saving and the executors' last step *)

Section EngineFacts.

Variable clock : nat → Z.
Variable executeStep : WorkflowStep → string → StepOutcome.

Lemma saveCheckpoint_spec path c w :
  let c' := fst (saveCheckpoint clock path c w) in
  let w' := snd (saveCheckpoint clock path c w) in
  files w' !! path = Some c'
  ∧ status c' = status c ∧ completed c' = completed c ∧ failed c' = failed c
  ∧ spawned w' = spawned w.
Proof. simpl. rewrite lookup_insert_eq. done. Qed.

Lemma saveCheckpoint_settled path c w :
  status c = Done ∨ status c = Failed →
  settled path (saveCheckpoint clock path c w).
Proof.
  intros Hst. destruct (saveCheckpoint_spec path c w) as (Hf & Hs & _).
  split; [done|]. by rewrite Hs.
Qed.

Lemma sequential_loop_settled steps_ passContext parts c path w :
  settled path (sequential_loop clock executeStep steps_ passContext parts c path w).
Proof.
  revert parts c w. induction steps_ as [|step rest IH]; intros parts c w.
  - apply saveCheckpoint_settled. by left.
  - cbn [sequential_loop]. destruct (truthy (completed c) (name step)); [apply IH|].
    destruct (executeStep step _) as [r d|msg].
    + destruct (saveCheckpoint clock path _ _) as [c1 w1]. apply IH.
    + apply saveCheckpoint_settled. by right.
Qed.

Lemma execute_pattern_settled a c path w :
  settled path (execute_pattern clock executeStep a c path w).
Proof.
  unfold execute_pattern. destruct (arg_pattern a).
  - apply sequential_loop_settled.
  - unfold executeParallel. apply saveCheckpoint_settled. simpl.
    destruct (0 <? _)%nat; [by right|by left].
  - unfold executeDag. destruct (dag_loop _ _ _ _ _ _ _) as [c1 w1].
    apply saveCheckpoint_settled. simpl. unfold dag_final_status.
    repeat case_match; auto.
Qed.

Lemma run_engine_settled env a w :
  settled (fst (fst (run_engine clock executeStep env a w)))
          (snd (fst (run_engine clock executeStep env a w)),
           snd (run_engine clock executeStep env a w)).
Proof.
  unfold run_engine. destruct (read_label clock a w) as [label w1].
  destruct (load_or_create clock _ _ a w1) as [c2 w2].
  destruct (saveCheckpoint clock _ c2 w2) as [c3 w3] eqn:Hs.
  pose proof (execute_pattern_settled a c3 (checkpoint_path env label) w3) as H.
  destruct (execute_pattern clock executeStep a c3 _ w3) as [c4 w4]. done.
Qed.

Lemma read_label_frame a w :
  files (snd (read_label clock a w)) = files w
  ∧ spawned (snd (read_label clock a w)) = spawned w.
Proof. unfold read_label. by destruct (arg_label a). Qed.

End EngineFacts.

(** *** Admission control *)

(** C8, as stated, fails for requests that validation turns away: validation
    comes first, so a request without steps, or with a duplicate step name,
    made by a caller at the depth limit is answered [error], not
    [forbidden]. *)
Lemma validation_precedes_admission_counterexample :
  default 1 (maxSpawnDepth (cfg nested_caller)) ≤ callerDepth nested_caller
  ∧ result_status
      (fst (workflow_run example_clock all_succeed nested_caller
              (mkArgs sequential [] false None (Some "L") false) empty_world))
    = "error"
  ∧ result_status
      (fst (workflow_run example_clock all_succeed nested_caller
              (mkArgs parallel [plain_step "A" None; plain_step "A" None]
                      false None (Some "L") false) empty_world))
    = "error".
Proof. vm_compute. repeat split; congruence. Qed.

(** C8, amended.  A request that fails validation is answered [error],
    whatever the caller's depth, with no step spawned and no checkpoint
    written.  For every request that passes validation (steps non-empty, step
    names unique, and in dag mode every dependency a known step name): when
    the caller's spawn depth is at least maxSpawnDepth (default 1) the answer
    is [forbidden], no step is spawned and no checkpoint is written; below
    that depth, a parallel request with more steps than maxChildrenPerAgent
    (default 5) is answered [forbidden] in the same way; every other request
    -- sequential and dag ones of any length included -- is let in and
    answered with a run summary. *)
Theorem admission_control (clock : nat → Z)
    (executeStep : WorkflowStep → string → StepOutcome)
    (env : Env) (a : Args) (w : World) :
  let maxDepth := default 1 (maxSpawnDepth (cfg env)) in
  let maxChildren := default 5 (maxChildrenPerAgent (cfg env)) in
  let n := Z.of_nat (length (arg_steps a)) in
  let r := fst (workflow_run clock executeStep env a w) in
  let w' := snd (workflow_run clock executeStep env a w) in
  (∀ e, validate a = Some e →
        r = ResultError e
        ∧ result_status r = "error"
        ∧ spawned w' = spawned w ∧ files w' = files w)
  ∧ (validate a = None →
     (maxDepth ≤ callerDepth env →
        r = ResultForbidden (DepthExceeded (callerDepth env) maxDepth)
        ∧ result_status r = "forbidden"
        ∧ spawned w' = spawned w ∧ files w' = files w)
     ∧ (callerDepth env < maxDepth → arg_pattern a = parallel → maxChildren < n →
          r = ResultForbidden (ParallelTooWide (length (arg_steps a)) maxChildren)
          ∧ result_status r = "forbidden"
          ∧ spawned w' = spawned w ∧ files w' = files w)
     ∧ (callerDepth env < maxDepth → arg_pattern a ≠ parallel ∨ n ≤ maxChildren →
          ∃ s, r = ResultSummary s ∧ result_status r ≠ "forbidden")).
Proof.
  intros maxDepth maxChildren n r w'. subst r w'.
  destruct (read_label_frame clock a w) as [Hfiles Hspawned].
  split.
  { intros e Hv. unfold workflow_run. rewrite Hv. done. }
  intros Hv. unfold workflow_run. rewrite Hv. unfold admission.
  fold maxDepth maxChildren n.
  split_and!.
  - intros Hd. destruct (Z.leb_spec maxDepth (callerDepth env)); [|lia]. done.
  - intros Hd Hp Hn. destruct (Z.leb_spec maxDepth (callerDepth env)); [lia|].
    rewrite Hp.
    destruct (Z.ltb_spec (maxChildren + activeChildren env) (activeChildren env + n));
      [|lia].
    destruct (Z.ltb_spec maxChildren n); [|lia]. done.
  - intros Hd Hok. destruct (Z.leb_spec maxDepth (callerDepth env)); [lia|].
    assert ((maxChildren + activeChildren env <? activeChildren env + n)
            && bool_decide (arg_pattern a = parallel) && (maxChildren <? n) = false)
      as ->.
    { destruct Hok as [Hp|Hn].
      - rewrite (bool_decide_eq_false_2 _ Hp). by rewrite andb_false_r.
      - destruct (Z.ltb_spec maxChildren n); [lia|]. by rewrite andb_false_r. }
    pose proof (run_engine_settled clock executeStep env a w) as [_ Hst].
    destruct (run_engine clock executeStep env a w) as [[path c] w1].
    simpl in *. eexists. split; [reflexivity|].
    simpl. destruct Hst as [-> | ->]; simpl; congruence.
Qed.

Lemma admission_control_witness :
  let a := mkArgs dag [plain_step "A" None; plain_step "B" (Some ["A"])]
                  false None (Some "L") false in
  let bad := mkArgs dag [plain_step "A" None; plain_step "B" (Some ["Z"])]
                    false None (Some "L") false in
  (fst (workflow_run example_clock all_succeed nested_caller a empty_world)
   = ResultForbidden (DepthExceeded 1 1)
   ∧ spawned (snd (workflow_run example_clock all_succeed nested_caller a empty_world))
     = [])
  ∧ fst (workflow_run example_clock all_succeed nested_caller bad empty_world)
    = ResultError (UnknownDependency "B" "Z").
Proof.
  intros a bad. split.
  - destruct (proj1 (proj2 (admission_control example_clock all_succeed nested_caller
                              a empty_world) eq_refl))
      as (Hr & _ & Hsp & _).
    + simpl. lia.
    + split; [exact Hr|exact Hsp].
  - exact (proj1 (proj1 (admission_control example_clock all_succeed nested_caller
                           bad empty_world)
                    (UnknownDependency "B" "Z") eq_refl)).
Defined.

(** *** Result assembly *)

(** C9. Checkpoint lifecycle and result shape.  Every run that is let in
    (it passes validation and admission) ends with a summary.  The summary's
    status is the final checkpoint's, and it is done or failed.  When it is
    done the checkpoint file is gone and the summary has no checkpoint field;
    when it is not done the file holds the final checkpoint and the summary
    names its path.  The failures field is present, and is the failed map,
    exactly when the failed map is not empty. *)
Theorem result_shape (clock : nat → Z)
    (executeStep : WorkflowStep → string → StepOutcome)
    (env : Env) (a : Args) (w : World) :
  validate a = None → admission env a = None →
  let path := fst (fst (run_engine clock executeStep env a w)) in
  let final := snd (fst (run_engine clock executeStep env a w)) in
  let w' := snd (workflow_run clock executeStep env a w) in
  ∃ s, fst (workflow_run clock executeStep env a w) = ResultSummary s
     ∧ sum_status s = status final
     ∧ (sum_status s = Done ∨ sum_status s = Failed)
     ∧ (sum_status s = Done → files w' !! path = None ∧ checkpoint s = None)
     ∧ (sum_status s ≠ Done → files w' !! path = Some final ∧ checkpoint s = Some path)
     ∧ (failed final ≠ ∅ → failures s = Some (failed final))
     ∧ (failed final = ∅ → failures s = None).
Proof.
  intros Hv Had path final w'. subst path final w'.
  unfold workflow_run. rewrite Hv, Had.
  pose proof (run_engine_settled clock executeStep env a w) as [Hfile Hst].
  destruct (run_engine clock executeStep env a w) as [[path c] w1].
  simpl in *. unfold assemble. eexists. split; [reflexivity|]. simpl.
  split_and!; try done.
  - intros Hd. rewrite decide_True by done. simpl.
    rewrite lookup_delete_eq. split; [done|]. by rewrite decide_False by auto.
  - intros Hd. rewrite (decide_False _ _ Hd). rewrite decide_True by done. done.
  - intros Hne. apply map_size_non_empty_iff in Hne.
    destruct (Nat.ltb_spec 0 (size (failed c))); [done|lia].
  - intros ->. by rewrite map_size_empty.
Qed.

Lemma result_shape_witness :
  let steps_ := [plain_step "A" None; plain_step "B" (Some ["A"]);
                 plain_step "C" (Some ["A"])] in
  let a := mkArgs dag steps_ true None (Some "L") false in
  let good := workflow_run example_clock all_succeed top_level a empty_world in
  let bad := workflow_run example_clock step_A_fails top_level a empty_world in
  (∃ s, fst good = ResultSummary s
      ∧ sum_status s = Done
      ∧ checkpoint s = None
      ∧ files (snd good) !! "/ws/checkpoints/workflow-L.json" = None
      ∧ failures s = None)
  ∧ (∃ s, fst bad = ResultSummary s
        ∧ sum_status s = Failed
        ∧ checkpoint s = Some "/ws/checkpoints/workflow-L.json"
        ∧ is_Some (files (snd bad) !! "/ws/checkpoints/workflow-L.json")
        ∧ is_Some (failures s)).
Proof.
  intros steps_ a good bad. split.
  - destruct (result_shape example_clock all_succeed top_level a empty_world
                eq_refl eq_refl)
      as (s & Hr & Hst & _ & Hdone & _ & _ & Hnone).
    assert (sum_status s = Done) as Hd by (rewrite Hst; by vm_compute).
    destruct (Hdone Hd) as [Hfile Hck].
    exists s. split_and!; [exact Hr|exact Hd|exact Hck|exact Hfile|].
    apply Hnone. by vm_compute.
  - destruct (result_shape example_clock step_A_fails top_level a empty_world
                eq_refl eq_refl)
      as (s & Hr & Hst & _ & _ & Hfailed & Hsome & _).
    assert (sum_status s = Failed) as Hf by (rewrite Hst; by vm_compute).
    destruct Hfailed as [Hfile Hck]; [by rewrite Hf|].
    exists s. split_and!; [exact Hr|exact Hf|exact Hck|eexists; exact Hfile|].
    rewrite Hsome; [done|]. intros Hempty.
    apply (f_equal (λ m, m !! "A")) in Hempty.
    vm_compute in Hempty. discriminate.
Defined.

(** *** Checkpoint adoption *)

Lemma comma_free_no_separator x y r :
  comma_free x = true → x ≠ y +:+ "," +:+ r.
Proof.
  revert x. induction y as [|c y IH]; intros x Hx Heq; subst x; simpl in Hx.
  - done.
  - apply andb_prop in Hx as [_ Hx]. by eapply IH.
Qed.

Lemma append_separator_inj x y r1 r2 :
  comma_free x = true → comma_free y = true →
  x +:+ "," +:+ r1 = y +:+ "," +:+ r2 → x = y ∧ r1 = r2.
Proof.
  revert y. induction x as [|c x IH]; intros [|d y] Hx Hy Heq; simpl in *.
  - by injection Heq.
  - injection Heq as <- _. done.
  - injection Heq as -> _. done.
  - injection Heq as -> Heq.
    apply andb_prop in Hx as [_ Hx]. apply andb_prop in Hy as [_ Hy].
    destruct (IH y Hx Hy Heq) as [-> ->]. done.
Qed.

Lemma join_cons2 sep x y l :
  join sep (x :: y :: l) = x +:+ sep +:+ join sep (y :: l).
Proof. done. Qed.

(** On non-empty lists of comma-free names, joining with a comma loses
    nothing. *)
Lemma join_comma_inj (l1 l2 : list string) :
  l1 ≠ [] → l2 ≠ [] →
  Forall (λ n, comma_free n = true) l1 → Forall (λ n, comma_free n = true) l2 →
  join "," l1 = join "," l2 → l1 = l2.
Proof.
  revert l2. induction l1 as [|x l1 IH]; intros l2 Hn1 Hn2 Hf1 Hf2 Heq; [done|].
  destruct l2 as [|y l2]; [done|].
  apply Forall_cons in Hf1 as [Hx Hf1]. apply Forall_cons in Hf2 as [Hy Hf2].
  destruct l1 as [|x' l1], l2 as [|y' l2].
  - simpl in Heq. by subst.
  - rewrite join_cons2 in Heq. change (join "," [x]) with x in Heq.
    by apply comma_free_no_separator in Heq.
  - rewrite join_cons2 in Heq. change (join "," [y]) with y in Heq.
    symmetry in Heq. by apply comma_free_no_separator in Heq.
  - rewrite !join_cons2 in Heq.
    apply append_separator_inj in Heq as [-> Heq]; [|done..].
    f_equal. by apply IH.
Qed.

(** X2. What holds of the adoption test.  For a checkpoint found at the path
    and non-empty sequences of comma-free step names, the test is exact: the
    checkpoint is adopted (kept whole, status back to in_progress) when
    resume is set and its step names are the requested ones, and in every
    other case a fresh checkpoint with empty completed and failed maps is
    started. *)
Theorem adoption_exact_without_commas (clock : nat → Z) (path wid : string)
    (a : Args) (w : World) (e : WorkflowCheckpoint) :
  files w !! path = Some e →
  steps e ≠ [] → arg_steps a ≠ [] →
  Forall (λ n, comma_free n = true) (steps e) →
  Forall (λ s, comma_free (name s) = true) (arg_steps a) →
  (arg_resume a = true ∧ steps e = name <$> arg_steps a →
     load_or_create clock path wid a w = (set_status InProgress e, w))
  ∧ (¬ (arg_resume a = true ∧ steps e = name <$> arg_steps a) →
       load_or_create clock path wid a w = fresh_checkpoint clock wid a w
       ∧ completed (fst (load_or_create clock path wid a w)) = ∅
       ∧ failed (fst (load_or_create clock path wid a w)) = ∅).
Proof.
  intros He Hne Hna Hfe Hfa. unfold load_or_create, loadCheckpoint. split.
  - intros [-> Heq]. rewrite He. unfold same_steps.
    by rewrite Heq, bool_decide_eq_true_2.
  - intros Hno.
    assert (∀ c w1, fresh_checkpoint clock wid a w = (c, w1) →
                    completed c = ∅ ∧ failed c = ∅) as Hfresh.
    { intros c w1 [= <- _]. done. }
    destruct (arg_resume a) eqn:Hr.
    + rewrite He. unfold same_steps. rewrite bool_decide_eq_false_2.
      * destruct (fresh_checkpoint clock wid a w) as [c w1] eqn:Hf.
        destruct (Hfresh c w1 eq_refl). done.
      * intros Hj. apply Hno. split; [done|].
        apply join_comma_inj; try done.
        -- by destruct (arg_steps a).
        -- apply Forall_fmap. done.
    + destruct (fresh_checkpoint clock wid a w) as [c w1] eqn:Hf.
      destruct (Hfresh c w1 eq_refl). done.
Qed.

Lemma adoption_exact_without_commas_witness :
  let path := "/ws/checkpoints/workflow-L.json" in
  let old :=
    mkCheckpoint "L" sequential ["a"; "b"] {["a" := mkStepResult "r" 5]} ∅
                 Failed 1000 1001 in
  let a := mkArgs sequential [plain_step "a" None; plain_step "b" None]
                  false None (Some "L") true in
  let w := mkWorld {[path := old]} [] 0 in
  load_or_create example_clock path "L" a w = (set_status InProgress old, w).
Proof.
  intros path old a w.
  apply (adoption_exact_without_commas example_clock path "L" a w old);
    try done.
  - subst a. simpl. by repeat constructor.
  - subst a. simpl. by repeat constructor.
Defined.

(** C4, the failing input.  A checkpoint left by a run of the single step
    named "a,b" is adopted, with its completed map, by a resumed request for
    the two steps "a" and "b" under the same label: the two name sequences
    differ and the comparison of their comma-joined texts calls them equal.
    The adopted checkpoint keeps [steps = ["a,b"]] and the entry for "a,b". *)
Theorem adoption_join_collision :
  let path := "/ws/checkpoints/workflow-L.json" in
  let old :=
    mkCheckpoint "L" sequential ["a,b"] {["a,b" := mkStepResult "r" 5]} ∅
                 Failed 1000 1001 in
  let a := mkArgs sequential [plain_step "a" None; plain_step "b" None]
                  false None (Some "L") true in
  let w := mkWorld {[path := old]} [] 0 in
  steps old ≠ name <$> arg_steps a
  ∧ same_steps old (arg_steps a) = true
  ∧ fst (load_or_create example_clock path "L" a w) = set_status InProgress old
  ∧ steps (fst (load_or_create example_clock path "L" a w)) = ["a,b"]
  ∧ completed (fst (load_or_create example_clock path "L" a w)) !! "a,b"
    = Some (mkStepResult "r" 5).
Proof. vm_compute. repeat split; congruence. Qed.

(** *** The DAG executor *)

Lemma truthy_dom {A} (m : gmap string A) (k : string) :
  truthy m k = true ↔ k ∈ dom m ∨ inherited k = true.
Proof. unfold truthy. by rewrite orb_true_iff, bool_decide_eq_true, elem_of_dom. Qed.

Lemma processed_spec c s :
  processed c s = true
  ↔ name s ∈ dom (completed c) ∪ dom (failed c) ∨ inherited (name s) = true.
Proof.
  unfold processed. rewrite orb_true_iff, !truthy_dom, elem_of_union. tauto.
Qed.

Lemma is_ready_unprocessed c s : is_ready c s = true → processed c s = false.
Proof. unfold is_ready, processed. by destruct (_ || _). Qed.

Lemma filter_length_mono {A} (p q : A → bool) (l : list A) :
  (∀ y, q y = true → p y = true) →
  (length (List.filter q l) ≤ length (List.filter p l))%nat.
Proof.
  intros Hqp. induction l as [|y l IH]; simpl; [done|].
  destruct (q y) eqn:Hq.
  - rewrite (Hqp y Hq). simpl. lia.
  - destruct (p y); simpl; lia.
Qed.

Lemma filter_length_strict {A} (p q : A → bool) (l : list A) (x : A) :
  (∀ y, q y = true → p y = true) →
  In x l → p x = true → q x = false →
  (length (List.filter q l) < length (List.filter p l))%nat.
Proof.
  intros Hqp. induction l as [|y l IH]; simpl; [done|].
  intros [->|Hin] Hp Hq.
  - rewrite Hp, Hq. simpl.
    pose proof (filter_length_mono p q l Hqp). lia.
  - specialize (IH Hin Hp Hq). destruct (q y) eqn:Hqy.
    + rewrite (Hqp y Hqy). simpl. lia.
    + destruct (p y); simpl; lia.
Qed.

Lemma record_outcome_names c n o :
  dom (completed (record_outcome c n o)) ∪ dom (failed (record_outcome c n o))
  = dom (completed c) ∪ dom (failed c) ∪ {[n]}
  ∧ dom (completed c) ⊆ dom (completed (record_outcome c n o))
  ∧ dom (completed (record_outcome c n o)) ⊆ dom (completed c) ∪ {[n]}.
Proof.
  destruct o as [r d|msg]; simpl; rewrite ?dom_insert_L; set_solver.
Qed.

Lemma record_outcomes_names outs : ∀ c,
  dom (completed (record_outcomes c outs)) ∪ dom (failed (record_outcomes c outs))
  = dom (completed c) ∪ dom (failed c) ∪ list_to_set (fst <$> outs)
  ∧ dom (completed c) ⊆ dom (completed (record_outcomes c outs))
  ∧ dom (completed (record_outcomes c outs))
    ⊆ dom (completed c) ∪ list_to_set (fst <$> outs).
Proof.
  induction outs as [|[n o] outs IH]; intros c; simpl.
  - set_solver.
  - destruct (IH (record_outcome c n o)) as (H1 & H2 & H3).
    destruct (record_outcome_names c n o) as (H4 & H5 & H6).
    unfold record_outcomes in *. simpl. rewrite H1, H4.
    clear IH H1 H4. split_and!.
    + by rewrite <- (assoc_L (∪)).
    + by etrans.
    + etrans; [exact H3|]. rewrite (assoc_L (∪)).
      by apply union_mono_r.
Qed.

Section DagFacts.

Variable clock : nat → Z.
Variable executeStep : WorkflowStep → string → StepOutcome.

Lemma dag_round_names ready pc c path w :
  let c' := fst (dag_round clock executeStep ready pc c path w) in
  dom (completed c') ∪ dom (failed c')
  = dom (completed c) ∪ dom (failed c) ∪ list_to_set (name <$> ready)
  ∧ dom (completed c) ⊆ dom (completed c')
  ∧ dom (completed c') ⊆ dom (completed c) ∪ list_to_set (name <$> ready).
Proof.
  simpl.
  pose proof (record_outcomes_names
    ((λ s, (name s, executeStep s (dag_context pc c s))) <$> ready) c) as H.
  rewrite <- list_fmap_compose in H.
  replace (fst ∘ (λ s, (name s, executeStep s (dag_context pc c s)))) with name in H
    by done.
  exact H.
Qed.

Lemma ready_steps_names steps_ c :
  list_to_set (name <$> ready_steps steps_ c) ⊆ step_names steps_.
Proof.
  unfold step_names, ready_steps. intros n.
  rewrite !elem_of_list_to_set, !list_elem_of_fmap.
  intros (s & -> & Hs). exists s. split; [done|].
  apply list_elem_of_In. apply list_elem_of_In, filter_In in Hs. tauto.
Qed.

(** Completed names stay among the step names. *)
Lemma dag_loop_completed_names n steps_ pc path : ∀ c w,
  dom (completed c) ⊆ step_names steps_ →
  dom (completed (fst (dag_loop clock executeStep n steps_ pc c path w)))
  ⊆ step_names steps_.
Proof.
  induction n as [|n IH]; intros c w Hc; cbn [dag_loop]; [done|].
  destruct (ready_steps steps_ c) as [|r rs] eqn:Hready; [done|].
  destruct (dag_round_names (r :: rs) pc c path w) as (_ & _ & Hsub).
  destruct (dag_round clock executeStep (r :: rs) pc c path w) as [c1 w1].
  apply IH. simpl in Hsub.
  pose proof (ready_steps_names steps_ c) as Hr. rewrite Hready in Hr.
  set_solver.
Qed.

(** A round with a ready step leaves fewer unprocessed steps. *)
Lemma dag_round_progress steps_ pc c path w r rs :
  ready_steps steps_ c = r :: rs →
  (length (unprocessed steps_
             (fst (dag_round clock executeStep (r :: rs) pc c path w)))
   < length (unprocessed steps_ c))%nat.
Proof.
  intros Hready.
  destruct (dag_round_names (r :: rs) pc c path w) as (Hnames & _ & _).
  set (c1 := fst (dag_round clock executeStep (r :: rs) pc c path w)) in *.
  assert (In r steps_ ∧ is_ready c r = true) as [Hin Hr].
  { apply filter_In. fold (ready_steps steps_ c). rewrite Hready. by left. }
  apply (filter_length_strict _ _ steps_ r).
  - intros y Hy. apply negb_true_iff in Hy. apply negb_true_iff.
    apply not_true_iff_false. intros Hp. apply not_true_iff_false in Hy. apply Hy.
    apply processed_spec. apply processed_spec in Hp. rewrite Hnames. set_solver.
  - done.
  - by rewrite (is_ready_unprocessed c r Hr).
  - apply negb_false_iff, processed_spec. left. rewrite Hnames. set_solver.
Qed.

Lemma ready_steps_nil_of_unprocessed steps_ c :
  unprocessed steps_ c = [] → ready_steps steps_ c = [].
Proof.
  intros Hu.
  pose proof (filter_length_mono (λ s, negb (processed c s)) (is_ready c) steps_) as H.
  fold (unprocessed steps_ c) in H. rewrite Hu in H.
  apply length_zero_iff_nil. unfold ready_steps.
  assert (length (List.filter (is_ready c) steps_) ≤ 0)%nat as Hle; [|simpl in *; lia].
  apply H. intros y Hy. by rewrite (is_ready_unprocessed c y Hy).
Qed.

(** Liveness: with one iteration per unprocessed step the loop ends with no
    step ready. *)
Lemma dag_loop_quiescent n steps_ pc path : ∀ c w,
  (length (unprocessed steps_ c) ≤ n)%nat →
  ready_steps steps_ (fst (dag_loop clock executeStep n steps_ pc c path w)) = [].
Proof.
  induction n as [|n IH]; intros c w Hle; cbn [dag_loop].
  - apply ready_steps_nil_of_unprocessed, length_zero_iff_nil. simpl. lia.
  - destruct (ready_steps steps_ c) as [|r rs] eqn:Hready; [done|].
    pose proof (dag_round_progress steps_ pc c path w r rs Hready) as Hlt.
    destruct (dag_round clock executeStep (r :: rs) pc c path w) as [c1 w1].
    apply IH. simpl in Hlt. lia.
Qed.

Lemma dag_final_status_done steps_ c :
  NoDup (name <$> steps_) →
  dom (completed c) ⊆ step_names steps_ →
  dag_final_status steps_ c = Done
  ↔ (∀ s, s ∈ steps_ → name s ∈ dom (completed c)) ∧ failed c = ∅.
Proof.
  intros Hnd Hsub. unfold dag_final_status.
  assert (size (step_names steps_) = length steps_) as Hsize.
  { unfold step_names. rewrite size_list_to_set by done. apply length_fmap. }
  pose proof (subseteq_size _ _ Hsub) as Hle.
  rewrite size_dom in Hle. rewrite <- (size_dom (completed c)) in *.
  split.
  - intros Hdone.
    destruct (Nat.eqb_spec (size (dom (completed c)) + size (failed c))
                           (length steps_)) as [Heq|]; [|done].
    destruct (Nat.ltb_spec 0 (size (failed c))) as [|Hz]; [done|].
    assert (failed c = ∅) as Hf by (apply map_size_empty_iff; lia).
    split; [|done]. intros s Hs.
    assert (dom (completed c) = step_names steps_) as ->.
    { apply set_subseteq_size_eq; [done|]. lia. }
    apply elem_of_list_to_set, list_elem_of_fmap. by exists s.
  - intros [Hall Hf]. rewrite Hf, map_size_empty.
    assert (step_names steps_ ⊆ dom (completed c)) as Hsup.
    { intros n Hn. apply elem_of_list_to_set, list_elem_of_fmap in Hn
        as (s & -> & Hs). by apply Hall. }
    pose proof (subseteq_size _ _ Hsup) as Hge.
    destruct (Nat.eqb_spec (size (dom (completed c)) + 0) (length steps_));
      [done|lia].
Qed.

(** The executor's outcome for a checkpoint whose completed names are step
    names -- a fresh checkpoint, or one left by a run of these same steps --
    over uniquely named steps: the loop of at most [len(steps)] rounds ends
    with no step ready, and the status is done exactly when every step name
    is in completed and failed is empty, and failed in every other case. *)
Lemma executeDag_outcome steps_ pc c path w :
  NoDup (name <$> steps_) →
  dom (completed c) ⊆ step_names steps_ →
  let c' := fst (executeDag clock executeStep steps_ pc c path w) in
  ready_steps steps_ c' = []
  ∧ (status c' = Done
     ↔ (∀ s, s ∈ steps_ → name s ∈ dom (completed c')) ∧ failed c' = ∅)
  ∧ (status c' ≠ Done → status c' = Failed).
Proof.
  intros Hnd Hsub. unfold executeDag.
  pose proof (dag_loop_completed_names (length steps_) steps_ pc path c w Hsub) as Hdom.
  pose proof (dag_loop_quiescent (length steps_) steps_ pc path c w
                (filter_length_le _ _)) as Hq.
  destruct (dag_loop clock executeStep (length steps_) steps_ pc c path w)
    as [c1 w1].
  simpl in *. split_and!.
  - done.
  - by apply dag_final_status_done.
  - unfold dag_final_status. repeat case_match; done.
Qed.

End DagFacts.

(** *** The DAG pattern through the tool *)

Lemma first_duplicate_None (steps_ : list WorkflowStep) : ∀ names,
  first_duplicate names steps_ = None →
  NoDup (name <$> steps_) ∧ ∀ s, s ∈ steps_ → name s ∉ names.
Proof.
  induction steps_ as [|s rest IH]; intros names Hnone; simpl in *.
  - split; [constructor|]. intros s Hs. by apply elem_of_nil in Hs.
  - destruct (decide (name s ∈ names)) as [Hin|Hnin].
    + by rewrite bool_decide_eq_true_2 in Hnone.
    + rewrite bool_decide_eq_false_2 in Hnone by done.
      destruct (IH _ Hnone) as [Hnd Hfresh]. split.
      * constructor; [|done]. intros Hs. apply list_elem_of_fmap in Hs as (s' & Heq & Hs').
        apply (Hfresh s' Hs'). rewrite <- Heq. set_solver.
      * intros s' Hs'. apply elem_of_cons in Hs' as [->|Hs']; [done|].
        specialize (Hfresh s' Hs'). set_solver.
Qed.

Lemma validate_NoDup (a : Args) :
  validate a = None → arg_steps a ≠ [] ∧ NoDup (name <$> arg_steps a).
Proof.
  unfold validate. destruct (arg_steps a) as [|s rest] eqn:Hsteps; [done|].
  destruct (first_duplicate ∅ (s :: rest)) eqn:Hdup; [done|]. intros _.
  split; [done|]. by apply (first_duplicate_None _ ∅).
Qed.

(** X1. The DAG executor's outcome, for every validated dag request that is
    not resumed, or is resumed on a checkpoint whose completed names are
    among the requested step names (as every checkpoint left by a run of the
    same steps is): the scheduling loop, bounded by [len(steps)] rounds, ends
    with no step ready; the final status is done exactly when every step
    name is in completed and failed is empty, and failed in every other
    case. *)
Theorem dag_outcome (clock : nat → Z)
    (executeStep : WorkflowStep → string → StepOutcome)
    (env : Env) (a : Args) (w : World) :
  validate a = None →
  arg_pattern a = dag →
  (arg_resume a = true →
   ∀ e, files w !! checkpoint_path env (fst (read_label clock a w)) = Some e →
        dom (completed e) ⊆ step_names (arg_steps a)) →
  let final := snd (fst (run_engine clock executeStep env a w)) in
  ready_steps (arg_steps a) final = []
  ∧ (status final = Done
     ↔ (∀ s, s ∈ arg_steps a → name s ∈ dom (completed final)) ∧ failed final = ∅)
  ∧ (status final ≠ Done → status final = Failed).
Proof.
  intros Hv Hp Hclean final. subst final.
  apply validate_NoDup in Hv as [_ Hnd].
  unfold run_engine.
  destruct (read_label_frame clock a w) as [Hfiles _].
  destruct (read_label clock a w) as [label w1]. cbn [fst snd] in Hfiles, Hclean.
  assert (dom (completed (fst (load_or_create clock (checkpoint_path env label)
                                 (sanitize label) a w1)))
          ⊆ step_names (arg_steps a)) as Hdom.
  { unfold load_or_create, loadCheckpoint.
    destruct (arg_resume a) eqn:Hr.
    - rewrite Hfiles.
      destruct (files w !! checkpoint_path env label) as [e|] eqn:He.
      + destruct (same_steps e (arg_steps a)); simpl.
        * by apply Hclean.
        * set_solver.
      + simpl. set_solver.
    - simpl. set_solver. }
  destruct (load_or_create clock _ _ a w1) as [c2 w2]. cbn [fst] in Hdom.
  pose proof (saveCheckpoint_spec clock (checkpoint_path env label) c2 w2)
    as (_ & _ & Hc & _).
  destruct (saveCheckpoint clock (checkpoint_path env label) c2 w2) as [c3 w3].
  cbn [fst] in Hc. rewrite <- Hc in Hdom.
  unfold execute_pattern. rewrite Hp.
  pose proof (executeDag_outcome clock executeStep (arg_steps a) (arg_passContext a)
                c3 (checkpoint_path env label) w3 Hnd Hdom) as H.
  destruct (executeDag clock executeStep (arg_steps a) (arg_passContext a) c3
              (checkpoint_path env label) w3) as [c4 w4].
  exact H.
Qed.

Lemma dag_outcome_witness :
  let a := mkArgs dag [plain_step "A" None; plain_step "B" (Some ["A"]);
                       plain_step "C" (Some ["A"])] true None (Some "L") false in
  let final := snd (fst (run_engine example_clock step_A_fails top_level a empty_world)) in
  ready_steps (arg_steps a) final = []
  ∧ (status final = Done
     ↔ (∀ s, s ∈ arg_steps a → name s ∈ dom (completed final)) ∧ failed final = ∅)
  ∧ (status final ≠ Done → status final = Failed).
Proof.
  intros a.
  apply (dag_outcome example_clock step_A_fails top_level a empty_world);
    [reflexivity|reflexivity|discriminate].
Defined.

(** *** Completed steps across a run *)

Lemma truthy_false_lookup {A} (m : gmap string A) (k : string) :
  truthy m k = false → m !! k = None.
Proof.
  unfold truthy. intros H. apply orb_false_iff in H as [H _].
  apply bool_decide_eq_false in H. by apply eq_None_not_Some.
Qed.

Lemma keeps_completed_refl c : keeps_completed c c.
Proof. by intros k r. Qed.

Lemma keeps_completed_trans c1 c2 c3 :
  keeps_completed c1 c2 → keeps_completed c2 c3 → keeps_completed c1 c3.
Proof. intros H12 H23 k r Hk. by apply H23, H12. Qed.

Lemma spawned_uncompleted_same c w w' :
  spawned w' = spawned w → spawned_uncompleted c w w'.
Proof.
  intros Hs. exists []. split; [by rewrite app_nil_r|].
  intros n Hn. by apply elem_of_nil in Hn.
Qed.

Lemma spawned_uncompleted_trans c1 c2 w1 w2 w3 :
  keeps_completed c1 c2 →
  spawned_uncompleted c1 w1 w2 → spawned_uncompleted c2 w2 w3 →
  spawned_uncompleted c1 w1 w3.
Proof.
  intros Hk (l1 & H1 & Hl1) (l2 & H2 & Hl2). exists (l1 ++ l2). split.
  - by rewrite H2, H1, (assoc_L (++)).
  - intros n Hn. apply elem_of_app in Hn as [Hn|Hn]; [by apply Hl1|].
    specialize (Hl2 n Hn). destruct (completed c1 !! n) as [r|] eqn:Hc; [|done].
    apply Hk in Hc. congruence.
Qed.

Lemma record_outcome_keeps c n o :
  completed c !! n = None → keeps_completed c (record_outcome c n o).
Proof.
  intros Hn k r Hk. destruct o as [r' d|msg]; simpl; [|done].
  rewrite lookup_insert_ne; [done|]. intros <-. congruence.
Qed.

Lemma record_outcomes_keeps outs : ∀ c c0,
  keeps_completed c0 c →
  (∀ n, n ∈ (fst <$> outs) → completed c0 !! n = None) →
  keeps_completed c0 (record_outcomes c outs).
Proof.
  induction outs as [|[n o] outs IH]; intros c c0 Hk Hfresh; [done|].
  unfold record_outcomes. simpl. apply IH.
  - intros k r Hc0. destruct o as [r' d|msg]; simpl; [|by apply Hk].
    rewrite lookup_insert_ne; [by apply Hk|].
    intros <-. rewrite Hfresh in Hc0; [done|]. simpl. left.
  - intros m Hm. apply Hfresh. simpl. by right.
Qed.

Section ResumeFacts.

Variable clock : nat → Z.
Variable executeStep : WorkflowStep → string → StepOutcome.

Lemma saveCheckpoint_keeps path c w :
  keeps_completed c (fst (saveCheckpoint clock path c w))
  ∧ spawned (snd (saveCheckpoint clock path c w)) = spawned w.
Proof. split; [|done]. intros k r Hk. exact Hk. Qed.

Lemma sequential_loop_keeps steps_ pc path : ∀ parts c w,
  keeps_completed c (fst (sequential_loop clock executeStep steps_ pc parts c path w))
  ∧ spawned_uncompleted c w
      (snd (sequential_loop clock executeStep steps_ pc parts c path w)).
Proof.
  induction steps_ as [|step rest IH]; intros parts c w.
  - split; [by intros k r Hk|]. by apply spawned_uncompleted_same.
  - cbn [sequential_loop].
    destruct (truthy (completed c) (name step)) eqn:Ht; [apply IH|].
    apply truthy_false_lookup in Ht.
    assert (spawned_uncompleted c w (spawn [name step] w)) as Hsp.
    { exists [name step]. split; [done|].
      intros n Hn. by apply list_elem_of_singleton in Hn as ->. }
    destruct (executeStep step _) as [r d|msg].
    + pose proof (record_outcome_keeps c (name step) (Fulfilled r d) Ht) as Hk.
      set (c1 := record_outcome c (name step) (Fulfilled r d)) in *.
      destruct (saveCheckpoint_keeps path c1 (spawn [name step] w)) as [Hk1 Hs1].
      destruct (saveCheckpoint clock path c1 (spawn [name step] w)) as [c2 w2].
      cbn [fst snd] in Hk1, Hs1.
      destruct (IH (parts ++ [context_part (name step) r]) c2 w2) as [Hk2 Hs2].
      assert (keeps_completed c c2) as Hkc by by eapply keeps_completed_trans.
      split; [by eapply keeps_completed_trans|].
      eapply spawned_uncompleted_trans; [exact Hkc| |exact Hs2].
      destruct Hsp as (l & Hl & Hfresh). exists l. split; [congruence|done].
    + split; [by intros k r Hk|].
      destruct Hsp as (l & Hl & Hfresh). exists l. done.
Qed.

Lemma executeParallel_keeps steps_ c path w :
  keeps_completed c (fst (executeParallel clock executeStep steps_ c path w))
  ∧ spawned_uncompleted c w (snd (executeParallel clock executeStep steps_ c path w)).
Proof.
  unfold executeParallel.
  set (pending := List.filter (λ s, negb (truthy (completed c) (name s))) steps_).
  assert (∀ n, n ∈ (name <$> pending) → completed c !! n = None) as Hfresh.
  { intros n Hn. apply list_elem_of_fmap in Hn as (s & -> & Hs).
    apply list_elem_of_In, filter_In in Hs as [_ Hs].
    apply negb_true_iff in Hs. by apply truthy_false_lookup. }
  split.
  - cbn [fst saveCheckpoint Date_now]. intros k r Hk. simpl.
    apply (record_outcomes_keeps ((λ s, (name s, executeStep s "")) <$> pending) c c);
      [apply keeps_completed_refl| |done].
    intros n Hn. apply Hfresh. by rewrite <- list_fmap_compose in Hn.
  - exists (name <$> pending). done.
Qed.

Lemma dag_round_keeps steps_ pc c path w :
  keeps_completed c
    (fst (dag_round clock executeStep (ready_steps steps_ c) pc c path w))
  ∧ spawned_uncompleted c w
      (snd (dag_round clock executeStep (ready_steps steps_ c) pc c path w)).
Proof.
  assert (∀ n, n ∈ (name <$> ready_steps steps_ c) → completed c !! n = None)
    as Hfresh.
  { intros n Hn. apply list_elem_of_fmap in Hn as (s & -> & Hs).
    apply list_elem_of_In, filter_In in Hs as [_ Hs].
    apply is_ready_unprocessed in Hs. unfold processed in Hs.
    apply orb_false_iff in Hs as [Hs _]. by apply truthy_false_lookup. }
  split.
  - intros k r Hk. unfold dag_round. cbn [fst saveCheckpoint Date_now]. simpl.
    apply (record_outcomes_keeps
             ((λ s, (name s, executeStep s (dag_context pc c s)))
                <$> ready_steps steps_ c) c c);
      [apply keeps_completed_refl| |done].
    intros n Hn. apply Hfresh. by rewrite <- list_fmap_compose in Hn.
  - exists (name <$> ready_steps steps_ c). done.
Qed.

Lemma dag_loop_keeps n steps_ pc path : ∀ c w,
  keeps_completed c (fst (dag_loop clock executeStep n steps_ pc c path w))
  ∧ spawned_uncompleted c w (snd (dag_loop clock executeStep n steps_ pc c path w)).
Proof.
  induction n as [|n IH]; intros c w; cbn [dag_loop].
  - split; [by intros k r Hk|by apply spawned_uncompleted_same].
  - pose proof (dag_round_keeps steps_ pc c path w) as [Hk1 Hs1].
    destruct (ready_steps steps_ c) as [|r rs] eqn:Hready.
    + split; [by intros k r Hk|by apply spawned_uncompleted_same].
    + destruct (dag_round clock executeStep (r :: rs) pc c path w) as [c1 w1].
      cbn [fst snd] in Hk1, Hs1. destruct (IH c1 w1) as [Hk2 Hs2].
      split; [by eapply keeps_completed_trans|].
      by eapply spawned_uncompleted_trans.
Qed.

(** X3. Monotonicity and resume: whatever the pattern, an executor keeps
    every entry that the checkpoint it starts from holds as completed, and
    spawns no sub-agent for a step that checkpoint holds as completed. *)
Theorem execute_pattern_keeps_completed (a : Args) (c : WorkflowCheckpoint)
    (path : string) (w : World) (k : string) (r : StepResult) :
  completed c !! k = Some r →
  completed (fst (execute_pattern clock executeStep a c path w)) !! k = Some r
  ∧ ∃ l, spawned (snd (execute_pattern clock executeStep a c path w))
         = spawned w ++ l
       ∧ k ∉ l.
Proof.
  intros Hk.
  assert (keeps_completed c (fst (execute_pattern clock executeStep a c path w))
          ∧ spawned_uncompleted c w (snd (execute_pattern clock executeStep a c path w)))
    as [Hkeep (l & Hl & Hfresh)].
  { unfold execute_pattern. destruct (arg_pattern a).
    - apply sequential_loop_keeps.
    - apply executeParallel_keeps.
    - unfold executeDag.
      destruct (dag_loop_keeps (length (arg_steps a)) (arg_steps a)
                  (arg_passContext a) path c w) as [Hk1 Hs1].
      destruct (dag_loop clock executeStep (length (arg_steps a)) (arg_steps a)
                  (arg_passContext a) c path w) as [c1 w1].
      cbn [fst snd] in *. split; [done|].
      destruct Hs1 as (l & Hl & Hfresh). exists l. done. }
  split; [by apply Hkeep|]. exists l. split; [done|].
  intros Hin. specialize (Hfresh k Hin). congruence.
Qed.

End ResumeFacts.

Lemma execute_pattern_keeps_completed_witness :
  let a := mkArgs sequential [plain_step "A" None; plain_step "B" None]
                  true None (Some "L") true in
  let c := mkCheckpoint "L" sequential ["A"; "B"] {["A" := mkStepResult "A-old" 7]}
                        ∅ InProgress 1000 1001 in
  completed (fst (execute_pattern example_clock all_succeed a c "p" empty_world)) !! "A"
  = Some (mkStepResult "A-old" 7)
  ∧ ∃ l, spawned (snd (execute_pattern example_clock all_succeed a c "p" empty_world))
         = spawned empty_world ++ l
       ∧ "A" ∉ l.
Proof.
  intros a c.
  apply (execute_pattern_keeps_completed example_clock all_succeed a c "p"
           empty_world "A" (mkStepResult "A-old" 7)).
  reflexivity.
Defined.

(** C5, the failing input.  A dag run of the steps "A,B" and "C" (which
    depends on itself and so never becomes ready) under label L ends failed
    with "A,B" completed and nothing failed, and leaves its checkpoint.  A
    resumed dag run of the steps "A" and "B,C" under the same label adopts
    that checkpoint (the comma-joined names agree), runs both steps to success, and ends with every step name in completed
    and failed empty -- and with status failed: completed holds three names,
    and the executor compares the number of recorded names with the number
    of steps. *)
Theorem dag_status_with_adopted_names :
  let first := mkArgs dag [plain_step "A,B" None; plain_step "C" (Some ["C"])]
                      false None (Some "L") false in
  let second := mkArgs dag [plain_step "A" None; plain_step "B,C" None]
                       false None (Some "L") true in
  let w1 := snd (workflow_run example_clock all_succeed top_level first empty_world) in
  let final := snd (fst (run_engine example_clock all_succeed top_level second w1)) in
  validate second = None
  ∧ admission top_level second = None
  ∧ name <$> arg_steps second = ["A"; "B,C"]
  ∧ completed final !! "A" = Some (mkStepResult "A-ok" 5)
  ∧ completed final !! "B,C" = Some (mkStepResult "B,C-ok" 5)
  ∧ failed final = ∅
  ∧ size (completed final) = 3%nat
  ∧ status final = Failed
  ∧ result_status
      (fst (workflow_run example_clock all_succeed top_level second w1))
    = "failed".
Proof. vm_compute. repeat split; reflexivity. Qed.

(** The scenarios "workflow sequential" and "workflow DAG with failure". *)
Example sequential_scenario :
  let a := mkArgs sequential [plain_step "A" None; plain_step "B" None]
                  true None (Some "L") false in
  let r := workflow_run example_clock all_succeed top_level a empty_world in
  result_status (fst r) = "done"
  ∧ spawned (snd r) = ["A"; "B"]
  ∧ files (snd r) = ∅.
Proof. vm_compute. repeat split; reflexivity. Qed.

Example dag_failure_scenario :
  let a := mkArgs dag [plain_step "A" None; plain_step "B" (Some ["A"]);
                       plain_step "C" (Some ["A"])] true None (Some "L") false in
  let r := workflow_run example_clock step_A_fails top_level a empty_world in
  let final := snd (fst (run_engine example_clock step_A_fails top_level a empty_world)) in
  result_status (fst r) = "failed"
  ∧ spawned (snd r) = ["A"]
  ∧ completed final = ∅
  ∧ failed final = {["A" := mkStepFailure "boom"]}
  ∧ files (snd r) !! "/ws/checkpoints/workflow-L.json" = Some final.
Proof. vm_compute. repeat split; reflexivity. Qed.

(** *** Validation *)

Lemma first_duplicate_None_2 (steps_ : list WorkflowStep) : ∀ names,
  NoDup (name <$> steps_) → (∀ s, s ∈ steps_ → name s ∉ names) →
  first_duplicate names steps_ = None.
Proof.
  induction steps_ as [|s rest IH]; intros names Hnd Hfresh; [done|].
  simpl in *. apply NoDup_cons in Hnd as [Hs Hnd].
  rewrite bool_decide_eq_false_2 by (apply Hfresh; left).
  apply IH; [done|]. intros s' Hs' Hin.
  apply elem_of_union in Hin as [Hin|Hin].
  - apply elem_of_singleton in Hin. apply Hs. rewrite <- Hin.
    apply list_elem_of_fmap. by exists s'.
  - by apply (Hfresh s'); [right|].
Qed.

Lemma first_duplicate_Some (steps_ : list WorkflowStep) : ∀ names n,
  first_duplicate names steps_ = Some n →
  ∃ j, (name <$> steps_) !! j = Some n
       ∧ (n ∈ names ∨ n ∈ take j (name <$> steps_))
       ∧ NoDup (take j (name <$> steps_))
       ∧ ∀ m, m ∈ take j (name <$> steps_) → m ∉ names.
Proof.
  induction steps_ as [|s rest IH]; intros names n Hsome; [done|].
  simpl in Hsome. case_bool_decide as Hin.
  - injection Hsome as <-. exists 0%nat. split_and!; [done|by left|constructor|].
    intros m Hm. by apply elem_of_nil in Hm.
  - apply IH in Hsome as (j & Hj & Hn & Hnd & Hfresh). exists (S j).
    cbn [fmap list_fmap take]. split_and!.
    + exact Hj.
    + destruct Hn as [Hn|Hn]; [|right; by right].
      apply elem_of_union in Hn as [Hn|Hn]; [|by left].
      apply elem_of_singleton in Hn as ->. right. left.
    + constructor; [|done]. intros Hs. apply (Hfresh _ Hs).
      apply elem_of_union_l. by apply elem_of_singleton.
    + intros m Hm. apply elem_of_cons in Hm as [->|Hm]; [done|].
      intros Hmn. apply (Hfresh m Hm). by apply elem_of_union_r.
Qed.

(** The dependency check against a set of known names. *)
Lemma unknown_dependency_None (known : gset string) (steps_ : list WorkflowStep) :
  head (flat_map
          (λ s, (λ d, (name s, d))
                  <$> List.filter (λ d, negb (bool_decide (d ∈ known)))
                        (default [] (dependsOn s)))
          steps_) = None
  ↔ ∀ s d, s ∈ steps_ → d ∈ default [] (dependsOn s) → d ∈ known.
Proof.
  rewrite head_None. induction steps_ as [|s rest IH]; simpl.
  - split; [|done]. intros _ s d Hs. by apply elem_of_nil in Hs.
  - rewrite app_nil, IH. split.
    + intros [Hs%fmap_nil_inv Hrest] s' d Hin Hd. apply elem_of_cons in Hin as [->|Hin];
        [|by eapply Hrest].
      destruct (decide (d ∈ known)) as [|Hnk]; [done|].
      assert (In d (List.filter (λ d, negb (bool_decide (d ∈ known)))
                      (default [] (dependsOn s)))) as Hf.
      { apply filter_In. split; [by apply list_elem_of_In|].
        by rewrite bool_decide_eq_false_2. }
      rewrite Hs in Hf. done.
    + intros Hall. split.
      * destruct (List.filter _ (default [] (dependsOn s))) as [|d l] eqn:Hf; [done|].
        assert (In d (d :: l)) as Hd by by left. rewrite <- Hf in Hd.
        apply filter_In in Hd as [Hd Hk]. apply list_elem_of_In in Hd.
        rewrite bool_decide_eq_true_2 in Hk; [done|]. eapply Hall; [left|done].
      * intros s' d Hs' Hd. eapply Hall; [by right|done].
Qed.

Lemma first_unknown_dependency_Some steps_ s d :
  first_unknown_dependency steps_ = Some (s, d) →
  ∃ st, st ∈ steps_ ∧ name st = s ∧ d ∈ default [] (dependsOn st)
        ∧ d ∉ name <$> steps_.
Proof.
  unfold first_unknown_dependency. intros Hh.
  assert (In (s, d)
            (flat_map
               (λ s, (λ d, (name s, d))
                       <$> List.filter (λ d, negb (bool_decide (d ∈ step_names steps_)))
                             (default [] (dependsOn s))) steps_)) as Hin.
  { destruct (flat_map _ _) as [|x l]; [done|]. injection Hh as ->. by left. }
  apply in_flat_map in Hin as (st & Hst & Hin).
  apply list_elem_of_In, list_elem_of_fmap in Hin as (d' & [= -> ->] & Hd).
  apply list_elem_of_In, filter_In in Hd as [Hd Hk].
  exists st. split_and!; [by apply list_elem_of_In|done|by apply list_elem_of_In|].
  apply negb_true_iff, bool_decide_eq_false in Hk. unfold step_names in Hk.
  by rewrite elem_of_list_to_set in Hk.
Qed.

(** X18. What validation accepts and what its errors mean.  A request is
    accepted exactly when it has a step, the step names are pairwise
    distinct and, for the dag pattern, every dependency of every step is a
    step name; dependencies are not looked at for the other patterns.  The
    name reported as a duplicate is the first one in step order that repeats
    an earlier name.  An unknown dependency is reported only for a dag
    request with distinct names, and names a step and one of its
    dependencies that is no step name. *)
Theorem validate_accepts (a : Args) :
  (validate a = None
   ↔ arg_steps a ≠ []
     ∧ NoDup (name <$> arg_steps a)
     ∧ (arg_pattern a = dag →
        ∀ s d, s ∈ arg_steps a → d ∈ default [] (dependsOn s) →
               d ∈ name <$> arg_steps a))
  ∧ (validate a = Some NoSteps ↔ arg_steps a = [])
  ∧ (∀ n, validate a = Some (DuplicateStepName n) →
          ∃ j, (name <$> arg_steps a) !! j = Some n
               ∧ n ∈ take j (name <$> arg_steps a)
               ∧ NoDup (take j (name <$> arg_steps a)))
  ∧ (∀ s d, validate a = Some (UnknownDependency s d) →
            arg_pattern a = dag
            ∧ NoDup (name <$> arg_steps a)
            ∧ ∃ st, st ∈ arg_steps a ∧ name st = s
                    ∧ d ∈ default [] (dependsOn st)
                    ∧ d ∉ name <$> arg_steps a).
Proof.
  unfold validate. split_and!.
  - destruct (arg_steps a) as [|s0 rest] eqn:Hsteps; [by split; [|intros [? _]]|].
    rewrite <- Hsteps.
    destruct (first_duplicate ∅ (arg_steps a)) as [n|] eqn:Hdup.
    + split; [done|]. intros (_ & Hnd & _).
      rewrite first_duplicate_None_2 in Hdup; [done|done|].
      intros s _. apply not_elem_of_empty.
    + apply first_duplicate_None in Hdup as [Hnd _].
      case_decide as Hp.
      * pose proof (unknown_dependency_None (step_names (arg_steps a)) (arg_steps a))
          as Hunk.
        fold (first_unknown_dependency (arg_steps a)) in Hunk.
        destruct (first_unknown_dependency (arg_steps a)) as [[s d]|] eqn:Hf.
        -- split; [done|]. intros (_ & _ & Hdeps).
           assert (Some (s, d) = None) as Habs; [|done].
           apply Hunk. intros s' d' Hs' Hd'. unfold step_names.
           rewrite elem_of_list_to_set. by eapply Hdeps.
        -- split; [|done]. intros _. split_and!; [by rewrite Hsteps|done|].
           intros _ s d Hs Hd.
           pose proof (proj1 Hunk eq_refl s d Hs Hd) as Hk.
           unfold step_names in Hk. by rewrite elem_of_list_to_set in Hk.
      * split; [|done]. intros _. by split_and!; [rewrite Hsteps| |].
  - destruct (arg_steps a) as [|s0 rest]; [done|]. split; [|done].
    destruct (first_duplicate _ _); [done|]. case_decide; [|done].
    by destruct (first_unknown_dependency _) as [[? ?]|].
  - intros n. destruct (arg_steps a) as [|s0 rest] eqn:Hsteps; [done|].
    rewrite <- Hsteps.
    destruct (first_duplicate ∅ (arg_steps a)) as [m|] eqn:Hdup.
    + intros [= ->]. apply first_duplicate_Some in Hdup as (j & Hj & Hn & Hnd & _).
      exists j. split_and!; [done| |done].
      destruct Hn as [Hn|Hn]; [|done]. by apply not_elem_of_empty in Hn.
    + case_decide; [|done]. by destruct (first_unknown_dependency _) as [[? ?]|].
  - intros s d. destruct (arg_steps a) as [|s0 rest] eqn:Hsteps; [done|].
    rewrite <- Hsteps.
    destruct (first_duplicate ∅ (arg_steps a)) as [m|] eqn:Hdup; [done|].
    apply first_duplicate_None in Hdup as [Hnd _].
    case_decide as Hp; [|done].
    destruct (first_unknown_dependency (arg_steps a)) as [[s' d']|] eqn:Hf; [|done].
    intros [= -> ->]. split_and!; [done|done|].
    by apply first_unknown_dependency_Some.
Qed.

(** *** Labels and checkpoint files *)

Lemma sanitize_safe l : safe_label (sanitize l) = true.
Proof.
  induction l as [|c l IH]; [done|]. simpl. rewrite IH, andb_true_r.
  destruct (is_safe_char c) eqn:Hc; [done|]. reflexivity.
Qed.

Lemma sanitize_id l : safe_label l = true → sanitize l = l.
Proof.
  induction l as [|c l IH]; [done|]. simpl. intros [Hc Hl]%andb_prop.
  by rewrite Hc, IH.
Qed.

Lemma json_suffix_cancel x y :
  safe_label x = true → safe_label y = true →
  x +:+ ".json" = y +:+ ".json" → x = y.
Proof.
  revert y. induction x as [|c x IH]; intros [|e y] Hx Hy Heq; simpl in *.
  - done.
  - injection Heq as <- _. done.
  - injection Heq as -> _. done.
  - injection Heq as -> Heq.
    apply andb_prop in Hx as [_ Hx]. apply andb_prop in Hy as [_ Hy].
    f_equal. by apply IH.
Qed.

(** X19. Workflows are told apart by their sanitised labels.  The sanitised
    label, which is also the workflow id, has the length of the label and
    holds only letters, digits, [_] and [-]; a label of such characters is
    kept as it is.  Two labels have the same checkpoint file exactly when
    their sanitised labels are equal, so labels that differ only in
    replaced characters share one checkpoint. *)
Theorem labels_by_sanitized_name :
  (∀ l, safe_label (sanitize l) = true
        ∧ String.length (sanitize l) = String.length l
        ∧ (safe_label l = true → sanitize l = l))
  ∧ (∀ env l1 l2,
       checkpoint_path env l1 = checkpoint_path env l2
       ↔ sanitize l1 = sanitize l2).
Proof.
  split.
  - intros l. split_and!; [apply sanitize_safe| |apply sanitize_id].
    induction l as [|c l IH]; simpl; congruence.
  - intros env l1 l2. unfold checkpoint_path. split; [|by intros ->].
    intros Heq. apply String.app_inj in Heq. apply String.app_inj in Heq.
    apply json_suffix_cancel in Heq; [done|apply sanitize_safe..].
Qed.

(** *** Waiting for the reply of a step *)

Lemma poll_loop_result n now history deadline : ∀ i r p,
  poll_loop n now history deadline i "" = Some (r, p) →
  (∀ j, (i ≤ j < p)%nat → now j < deadline)
  ∧ ((r = "" ∧ (i ≤ p)%nat ∧ deadline ≤ now p
      ∧ ∀ j messages, (i ≤ j < p)%nat → history j = PollHistory messages →
                      scan_history messages "" = "")
     ∨ (r ≠ "" ∧ (i < p)%nat
        ∧ (∃ messages, history (pred p) = PollHistory messages
                       ∧ scan_history messages "" = r)
        ∧ ∀ j messages, (i ≤ j < pred p)%nat → history j = PollHistory messages →
                        scan_history messages "" = "")).
Proof.
  induction n as [|n IH]; intros i r p Hloop; [done|].
  cbn [poll_loop] in Hloop.
  assert (∀ j, (i ≤ j)%nat → j = i ∨ (S i ≤ j)%nat) as Hcase by lia.
  assert (now i < deadline →
          (∀ messages, history i = PollHistory messages →
                       scan_history messages "" = "") →
          poll_loop n now history deadline (S i) "" = Some (r, p) →
          (∀ j, (i ≤ j < p)%nat → now j < deadline)
          ∧ ((r = "" ∧ (i ≤ p)%nat ∧ deadline ≤ now p
              ∧ ∀ j messages, (i ≤ j < p)%nat → history j = PollHistory messages →
                              scan_history messages "" = "")
             ∨ (r ≠ "" ∧ (i < p)%nat
                ∧ (∃ messages, history (pred p) = PollHistory messages
                               ∧ scan_history messages "" = r)
                ∧ ∀ j messages, (i ≤ j < pred p)%nat →
                                history j = PollHistory messages →
                                scan_history messages "" = ""))) as Hnext.
  { intros Hlt Hhere Hrec. apply IH in Hrec as [Hbefore Hcases]. split.
    { intros j [Hj1 Hj2]. destruct (Hcase j Hj1) as [->|?]; [done|].
      apply Hbefore. lia. }
    destruct Hcases as [(-> & Hp & Hd & Hempty)|(Hr & Hp & Hlast & Hearlier)].
    - left. split_and!; [done|lia|done|].
      intros j messages [Hj1 Hj2] Hh. destruct (Hcase j Hj1) as [->|?].
      + by apply Hhere.
      + eapply Hempty; [|done]. lia.
    - right. split_and!; [done|lia|done|].
      intros j messages [Hj1 Hj2] Hh. destruct (Hcase j Hj1) as [->|?].
      + by apply Hhere.
      + eapply Hearlier; [|done]. lia. }
  destruct (Z.ltb_spec (now i) deadline) as [Hlt|Hge].
  - destruct (history i) as [|messages] eqn:Hh.
    + by apply Hnext.
    + cbv zeta in Hloop.
      destruct (decide (scan_history messages "" = "")) as [Hr1|Hr1].
      * rewrite Hr1 in Hloop. apply Hnext; [done| |done].
        by intros ms [= <-].
      * injection Hloop as <- <-. split.
        { intros j ?. by replace j with i by lia. }
        right. split_and!; [done|lia| |].
        -- simpl. by exists messages.
        -- intros j ms ?. simpl in *. lia.
  - injection Hloop as <- <-. split; [intros j ?; lia|].
    left. split_and!; [done|lia|lia|]. intros j ms ?. lia.
Qed.

Lemma poll_loop_terminates n now history deadline : ∀ i,
  (∀ k, now k < now (S k)) →
  deadline - now i ≤ Z.of_nat n →
  is_Some (poll_loop (S n) now history deadline i "").
Proof.
  induction n as [|n IH]; intros i Hclock Hfuel.
  - cbn [poll_loop]. destruct (Z.ltb_spec (now i) deadline) as [Hlt|Hge]; [lia|done].
  - remember (S n) as m eqn:Hm. cbn [poll_loop]. subst m.
    destruct (Z.ltb_spec (now i) deadline) as [Hlt|Hge]; [|done].
    assert (is_Some (poll_loop (S n) now history deadline (S i) "")) as Hrec.
    { apply IH; [done|]. specialize (Hclock i). lia. }
    destruct (history i) as [|messages]; [done|]. cbv zeta.
    case_decide as Hr; [|done]. by rewrite Hr.
Qed.

(** X20. What waiting for a step's reply returns.  When it returns a result,
    the result is not empty: it is the text of the last assistant message
    ([content], or [text] when there is no [content]) of a poll made before
    the deadline, and every earlier poll failed or showed no such text; the
    duration is the final clock reading less the start reading.  When it
    throws, it is the time-out error, and the deadline had passed with no
    poll showing a text. *)
Theorem poll_returns_first_text (step : WorkflowStep) (startMs deadlineBase : Z)
    (now : nat → Z) (history : nat → Poll) (endMs : nat → Z) (n : nat)
    (o : StepOutcome) :
  poll_for_reply step startMs deadlineBase now history endMs n = Some o →
  let deadline := deadlineBase + default 600 (timeoutSeconds step) * 1000 in
  (∃ r p messages,
     o = Fulfilled r (endMs (S p) - startMs)
     ∧ r ≠ "" ∧ history p = PollHistory messages ∧ scan_history messages "" = r
     ∧ now p < deadline
     ∧ ∀ j ms, (j < p)%nat → history j = PollHistory ms → scan_history ms "" = "")
  ∨ (∃ p, o = Rejected (timeout_message step)
          ∧ deadline ≤ now p
          ∧ ∀ j ms, (j < p)%nat → history j = PollHistory ms →
                    scan_history ms "" = "").
Proof.
  intros Hrun deadline. unfold poll_for_reply in Hrun. fold deadline in Hrun.
  destruct (poll_loop n now history deadline 0 "") as [[r p]|] eqn:Hloop; [|done].
  apply poll_loop_result in Hloop
    as [Hbefore [(-> & _ & Hd & Hempty)|(Hr & Hp & (ms & Hh & Hs) & Hearlier)]].
  - right. exists p. rewrite decide_True in Hrun by done. injection Hrun as <-.
    split_and!; [done|done|]. intros j ms Hj. apply Hempty. lia.
  - left. rewrite decide_False in Hrun by done. injection Hrun as <-.
    destruct p as [|p]; [lia|]. simpl in *. exists r, p, ms.
    split_and!; [done|done|done|done|apply Hbefore; lia|].
    intros j ms' Hj. apply Hearlier. lia.
Qed.

Lemma poll_returns_first_text_witness :
  let step := mkStep "A" "do A" None None None (Some 10) in
  let history i :=
    if decide (i = 1%nat)
    then PollHistory [mkHistoryMessage "user" (Some "hi") None;
                      mkHistoryMessage "assistant" (Some "answer") None]
    else PollError in
  poll_for_reply step 0 5 (λ i, 3000 * Z.of_nat i + 10) history
                 (λ p, 3000 * Z.of_nat p + 20) 5
  = Some (Fulfilled "answer" 6020)
  ∧ ∃ p messages, history p = PollHistory messages
                  ∧ scan_history messages "" = "answer".
Proof.
  intros step history. split; [reflexivity|].
  destruct (poll_returns_first_text step 0 5 (λ i, 3000 * Z.of_nat i + 10) history
              (λ p, 3000 * Z.of_nat p + 20) 5 (Fulfilled "answer" 6020) eq_refl)
    as [(r & p & ms & [= <- _] & _ & Hh & Hs & _)|(p & [=] & _)].
  by exists p, ms.
Defined.

(** X21. Waiting ends.  With a clock that moves forward by at least a
    millisecond between two tests of the deadline, the polling loop ends
    within [maxPollMs + 1] tests once the first test is not before the
    deadline base: the wait returns a result or the time-out error.  With
    [timeoutSeconds] zero or less the deadline has passed at the first test
    on a clock that does not go back: no poll is made and the step times
    out, whatever the session history holds. *)
Theorem poll_ends (step : WorkflowStep) (startMs deadlineBase : Z)
    (now : nat → Z) (history : nat → Poll) (endMs : nat → Z) (n : nat) :
  deadlineBase ≤ now 0%nat →
  ((∀ k, now k < now (S k)) →
   default 600 (timeoutSeconds step) * 1000 ≤ Z.of_nat n →
   is_Some (poll_for_reply step startMs deadlineBase now history endMs (S n)))
  ∧ (default 600 (timeoutSeconds step) ≤ 0 →
     poll_for_reply step startMs deadlineBase now history endMs (S n)
     = Some (Rejected (timeout_message step))).
Proof.
  intros Hbase. unfold poll_for_reply. split.
  - intros Hclock Hfuel.
    destruct (poll_loop_terminates n now history
                (deadlineBase + default 600 (timeoutSeconds step) * 1000) 0 Hclock)
      as [[r p] ->]; [lia|].
    by case_decide.
  - intros Hzero. cbn [poll_loop].
    destruct (Z.ltb_spec (now 0%nat)
                (deadlineBase + default 600 (timeoutSeconds step) * 1000)); [lia|].
    done.
Qed.

Lemma poll_ends_witness :
  poll_for_reply (mkStep "A" "do A" None None None (Some 0)) 0 5
                 (λ i, 3000 * Z.of_nat i + 10)
                 (λ _, PollHistory [mkHistoryMessage "assistant" (Some "answer") None])
                 (λ p, 3000 * Z.of_nat p + 20) 1
  = Some (Rejected (timeout_message (mkStep "A" "do A" None None None (Some 0)))).
Proof.
  apply (proj2 (poll_ends (mkStep "A" "do A" None None None (Some 0)) 0 5
                  (λ i, 3000 * Z.of_nat i + 10)
                  (λ _, PollHistory [mkHistoryMessage "assistant" (Some "answer") None])
                  (λ p, 3000 * Z.of_nat p + 20) 0 ltac:(simpl; lia))).
  simpl. lia.
Defined.

(** *** Outcomes of the executors *)

Lemma truthy_keeps c c' k :
  keeps_completed c c' →
  truthy (completed c) k = true → truthy (completed c') k = true.
Proof.
  unfold truthy. intros Hk [Hs|Hi]%orb_prop; [|by rewrite Hi, orb_true_r].
  apply bool_decide_eq_true in Hs as [r Hr].
  apply orb_true_intro. left. apply bool_decide_eq_true. exists r. by apply Hk.
Qed.

Lemma record_outcomes_failed outs : ∀ c,
  dom (failed (record_outcomes c outs))
  = dom (failed c)
    ∪ list_to_set (fst <$> List.filter (λ no, is_rejected (snd no)) outs).
Proof.
  induction outs as [|[n o] outs IH]; intros c.
  - simpl. by rewrite (right_id_L ∅ (∪)).
  - unfold record_outcomes in *. cbn [foldl fst snd List.filter].
    rewrite IH. destruct o as [r d|msg]; cbn [is_rejected record_outcome]; [done|].
    cbn [failed set_failed fmap list_fmap fst list_to_set].
    rewrite dom_insert_L. rewrite (comm_L (∪) {[n]} (dom (failed c))).
    by rewrite (assoc_L (∪)).
Qed.

Lemma record_outcomes_fulfilled outs : ∀ c n,
  n ∈ (fst <$> List.filter (λ no, negb (is_rejected (snd no))) outs) →
  n ∈ dom (completed (record_outcomes c outs)).
Proof.
  induction outs as [|[m o] outs IH]; intros c n Hn.
  - by apply elem_of_nil in Hn.
  - unfold record_outcomes in *. cbn [foldl fst snd List.filter] in *.
    destruct o as [r d|msg]; cbn [is_rejected negb] in Hn.
    + cbn [fmap list_fmap fst] in Hn. apply elem_of_cons in Hn as [->|Hn];
        [|by apply IH].
      destruct (record_outcomes_names outs
                  (record_outcome c m (Fulfilled r d))) as (_ & Hsub & _).
      apply Hsub. cbn [record_outcome completed set_completed].
      rewrite dom_insert_L. apply elem_of_union_l. by apply elem_of_singleton.
    + by apply IH.
Qed.

Lemma List_filter_sublist {A} (p : A → bool) (l : list A) :
  List.filter p l `sublist_of` l.
Proof.
  induction l as [|x l IH]; simpl; [constructor|].
  destruct (p x); by constructor.
Qed.

Section OutcomeFacts.

Variable clock : nat → Z.
Variable executeStep : WorkflowStep → string → StepOutcome.

(** X22. How a sequential run ends.  The steps are started in step order,
    each at most once per position, skipping those that read as completed.
    The run ends [done] with every step reading as completed and the failed
    map as it was at the start, so that failures carried over from an
    adopted checkpoint stay in it; or it ends [failed] at the first step
    whose execution throws: that step is the last one started, it is added
    to the failed map with the message thrown and is not completed, and no
    later step is started. *)
Theorem sequential_outcome (steps_ : list WorkflowStep) (pc : bool)
    (c : WorkflowCheckpoint) (path : string) (w : World) :
  let r := executeSequential clock executeStep steps_ pc c path w in
  ∃ l, spawned (snd r) = spawned w ++ l
       ∧ l `sublist_of` (name <$> steps_)
       ∧ ((status (fst r) = Done ∧ failed (fst r) = failed c
           ∧ ∀ s, s ∈ steps_ → truthy (completed (fst r)) (name s) = true)
          ∨ (status (fst r) = Failed
             ∧ ∃ n msg, last l = Some n
                        ∧ failed (fst r) = <[n := mkStepFailure msg]> (failed c)
                        ∧ completed (fst r) !! n = None
                        ∧ ∃ s context, s ∈ steps_ ∧ name s = n
                                       ∧ executeStep s context = Rejected msg)).
Proof.
  unfold executeSequential. generalize (restored_context steps_ c).
  revert c w. induction steps_ as [|step rest IH]; intros c w parts.
  - exists []. split_and!; [by rewrite app_nil_r|done|]. left.
    split_and!; [done|done|]. intros s Hs. by apply elem_of_nil in Hs.
  - cbn [sequential_loop].
    destruct (truthy (completed c) (name step)) eqn:Ht.
    + destruct (IH c w parts) as (l & Hl & Hsub & Hcases).
      destruct (sequential_loop_keeps clock executeStep rest pc path parts c w)
        as [Hkeep _].
      exists l. split_and!; [done|by constructor|].
      destruct Hcases as [(Hst & Hf & Hall)
                         |(Hst & n & m & Hlast & Hf & Hn & s & ctx & Hs & Hns & He)].
      * left. split_and!; [done|done|]. intros s Hs.
        apply elem_of_cons in Hs as [->|Hs]; [|by apply Hall].
        by eapply truthy_keeps.
      * right. split; [done|]. exists n, m. split_and!; [done..|].
        exists s, ctx. split_and!; [by right|done|done].
    + apply truthy_false_lookup in Ht.
      destruct (executeStep step _) as [res d|msg] eqn:Hexec.
      * set (c1 := record_outcome c (name step) (Fulfilled res d)).
        destruct (saveCheckpoint_spec clock path c1 (spawn [name step] w))
          as (_ & _ & Hc2 & Hf2 & Hs2).
        destruct (saveCheckpoint clock path c1 (spawn [name step] w)) as [c2 w2].
        cbn [fst snd] in Hc2, Hf2, Hs2.
        destruct (IH c2 w2 (parts ++ [context_part (name step) res]))
          as (l & Hl & Hsub & Hcases).
        destruct (sequential_loop_keeps clock executeStep rest pc path
                    (parts ++ [context_part (name step) res]) c2 w2) as [Hkeep _].
        exists (name step :: l). split_and!.
        -- rewrite Hl, Hs2. cbn [spawn spawned]. by rewrite <- (assoc_L (++)).
        -- by constructor.
        -- destruct Hcases as [(Hst & Hf & Hall)
                              |(Hst & n & m & Hlast & Hf & Hn & s & ctx & Hs & Hns & He)].
           ++ left. split_and!; [done|by rewrite Hf, Hf2|].
              intros s Hs. apply elem_of_cons in Hs as [->|Hs]; [|by apply Hall].
              eapply truthy_keeps; [exact Hkeep|].
              apply truthy_dom. left. rewrite Hc2. unfold c1. simpl.
              rewrite dom_insert_L. apply elem_of_union_l. by apply elem_of_singleton.
           ++ right. split; [done|]. exists n, m.
              split_and!; [|by rewrite Hf, Hf2|done|].
              ** destruct l as [|x l]; [done|]. done.
              ** exists s, ctx. split_and!; [by right|done|done].
      * exists [name step]. split_and!; [done|apply sublist_skip, sublist_nil_l|].
        right. split; [done|]. exists (name step), msg. split_and!; [done..|].
        eexists step, _. split_and!; [by left|done|exact Hexec].
Qed.

(** X23. How a parallel run ends.  Every step that does not read as
    completed is started, in step order, whether or not others fail.
    Afterwards every step reads as completed or is in the failed map.
    Entries of the failed map are never removed, and the run ends [done]
    exactly when the failed map was empty at the start and no started step
    throws; in every other case it ends [failed].  A parallel run resumed on
    a checkpoint that holds a failure therefore ends [failed] even when
    every step now succeeds. *)
Theorem parallel_outcome (steps_ : list WorkflowStep) (c : WorkflowCheckpoint)
    (path : string) (w : World) :
  let r := executeParallel clock executeStep steps_ c path w in
  let pending := List.filter (λ s, negb (truthy (completed c) (name s))) steps_ in
  spawned (snd r) = spawned w ++ (name <$> pending)
  ∧ (∀ s, s ∈ steps_ →
          truthy (completed (fst r)) (name s) = true
          ∨ name s ∈ dom (failed (fst r)))
  ∧ dom (failed c) ⊆ dom (failed (fst r))
  ∧ (status (fst r) = Done
     ↔ failed c = ∅ ∧ ∀ s, s ∈ pending → is_rejected (executeStep s "") = false)
  ∧ (status (fst r) = Done ∨ status (fst r) = Failed).
Proof.
  intros r pending.
  destruct (executeParallel_keeps clock executeStep steps_ c path w) as [Hkeep _].
  fold r in Hkeep. subst r. unfold executeParallel in *. fold pending in Hkeep |- *.
  set (outs := (λ s, (name s, executeStep s "")) <$> pending) in *.
  set (c1 := record_outcomes c outs) in *.
  set (c2 := set_status (if (0 <? size (failed c1))%nat then Failed else Done) c1) in *.
  destruct (saveCheckpoint_spec clock path c2 (spawn (name <$> pending) w))
    as (_ & Hst & Hc & Hf & Hs).
  rewrite Hst, Hf, Hs. clear Hst Hs.
  pose proof (record_outcomes_failed outs c) as Hdom. fold c1 in Hdom.
  change (failed c2) with (failed c1).
  split_and!.
  - done.
  - intros s Hs. destruct (truthy (completed c) (name s)) eqn:Ht.
    + left. by eapply truthy_keeps.
    + assert (s ∈ pending) as Hp.
      { apply list_elem_of_In, filter_In. split; [by apply list_elem_of_In|].
        by rewrite Ht. }
      destruct (is_rejected (executeStep s "")) eqn:Hrej.
      * right. rewrite Hdom. apply elem_of_union_r, elem_of_list_to_set.
        apply list_elem_of_fmap. exists (name s, executeStep s ""). split; [done|].
        apply list_elem_of_In, filter_In. split; [|done].
        apply list_elem_of_In, list_elem_of_fmap. by exists s.
      * left. apply truthy_dom. left. rewrite Hc.
        change (completed c2) with (completed c1).
        apply record_outcomes_fulfilled.
        apply list_elem_of_fmap. exists (name s, executeStep s ""). split; [done|].
        apply list_elem_of_In, filter_In. split; [|by cbn [snd]; rewrite Hrej].
        apply list_elem_of_In, list_elem_of_fmap. by exists s.
  - rewrite Hdom. apply union_subseteq_l.
  - change (status c2) with (if (0 <? size (failed c1))%nat then Failed else Done).
    assert (failed c1 = ∅
            ↔ failed c = ∅
              ∧ ∀ s, s ∈ pending → is_rejected (executeStep s "") = false) as Hiff.
    { rewrite <- (dom_empty_iff_L (failed c1)), Hdom, empty_union_L.
      rewrite dom_empty_iff_L. apply and_iff_compat_l. split.
      - intros Hnone s Hs. destruct (is_rejected (executeStep s "")) eqn:Hrej; [|done].
        assert (name s ∈ (∅ : gset string)) as Habs; [|by apply elem_of_empty in Habs].
        rewrite <- Hnone. apply elem_of_list_to_set, list_elem_of_fmap.
        exists (name s, executeStep s ""). split; [done|].
        apply list_elem_of_In, filter_In. split; [|done].
        apply list_elem_of_In, list_elem_of_fmap. by exists s.
      - intros Hall. apply set_eq. intros n. split; [|by intros ?%elem_of_empty].
        intros Hn. apply elem_of_list_to_set, list_elem_of_fmap in Hn
          as ([n' o] & -> & Hin).
        apply list_elem_of_In, filter_In in Hin as [Hin Hrej].
        apply list_elem_of_In, list_elem_of_fmap in Hin as (s & [= -> ->] & Hs).
        cbn [snd] in Hrej. by rewrite (Hall s Hs) in Hrej. }
    rewrite <- Hiff, <- map_size_empty_iff.
    destruct (Nat.ltb_spec 0 (size (failed c1))); split; try done; lia.
  - change (status c2) with (if (0 <? size (failed c1))%nat then Failed else Done).
    destruct (0 <? _)%nat; [by right|by left].
Qed.

Lemma dag_loop_spawns n steps_ pc path : ∀ c w,
  let r := dag_loop clock executeStep n steps_ pc c path w in
  ∃ l, spawned (snd r) = spawned w ++ l
       ∧ (∀ m, m ∈ l →
               (m ∉ dom (completed c) ∪ dom (failed c))
               ∧ (m ∈ dom (completed (fst r)) ∪ dom (failed (fst r)))
               ∧ ∃ s, s ∈ steps_ ∧ name s = m
                      ∧ ∀ d, d ∈ default [] (dependsOn s) →
                             truthy (completed (fst r)) d = true)
       ∧ (NoDup (name <$> steps_) → NoDup l)
       ∧ dom (failed c) ⊆ dom (failed (fst r)).
Proof.
  induction n as [|n IH]; intros c w r; subst r; cbn [dag_loop].
  - exists []. split_and!; [by rewrite app_nil_r| |constructor|done].
    intros m Hm. by apply elem_of_nil in Hm.
  - destruct (ready_steps steps_ c) as [|r0 rs] eqn:Hready.
    { exists []. split_and!; [by rewrite app_nil_r| |constructor|done].
      intros m Hm. by apply elem_of_nil in Hm. }
    rewrite <- Hready.
    pose proof (dag_round_keeps clock executeStep steps_ pc c path w) as [Hk1 _].
    pose proof (dag_round_names clock executeStep (ready_steps steps_ c) pc c path w)
      as (Hn1 & _ & _).
    assert (dom (failed c)
            ⊆ dom (failed (fst (dag_round clock executeStep (ready_steps steps_ c)
                                  pc c path w)))) as Hf1.
    { unfold dag_round. cbn [fst saveCheckpoint Date_now failed set_updatedAt].
      rewrite record_outcomes_failed. apply union_subseteq_l. }
    assert (spawned (snd (dag_round clock executeStep (ready_steps steps_ c)
                            pc c path w))
            = spawned w ++ (name <$> ready_steps steps_ c)) as Hs1 by done.
    destruct (dag_round clock executeStep (ready_steps steps_ c) pc c path w)
      as [c1 w1].
    cbn [fst snd] in Hk1, Hn1, Hf1, Hs1.
    destruct (IH c1 w1) as (l2 & Hl2 & Hmem2 & Hnd2 & Hf2).
    pose proof (dag_loop_keeps clock executeStep n steps_ pc path c1 w1) as [Hk2 _].
    set (r := dag_loop clock executeStep n steps_ pc c1 path w1) in *.
    exists ((name <$> ready_steps steps_ c) ++ l2). split_and!.
    + by rewrite Hl2, Hs1, (assoc_L (++)).
    + intros m Hm. apply elem_of_app in Hm as [Hm|Hm].
      * apply list_elem_of_fmap in Hm as (s & -> & Hs).
        apply list_elem_of_In, filter_In in Hs as [Hin Hrdy].
        pose proof (is_ready_unprocessed c s Hrdy) as Hun.
        split_and!.
        -- intros Hd. assert (processed c s = true) as Hp; [|congruence].
           apply processed_spec. by left.
        -- assert (name s ∈ dom (completed c1) ∪ dom (failed c1)) as Hd1.
           { rewrite Hn1. apply elem_of_union_r, elem_of_list_to_set.
             apply list_elem_of_fmap. exists s. split; [done|].
             apply list_elem_of_In, filter_In. done. }
           apply elem_of_union in Hd1 as [Hd1|Hd1].
           ++ apply elem_of_union_l. apply elem_of_dom in Hd1 as [x Hx].
              apply elem_of_dom. exists x. by apply Hk2.
           ++ apply elem_of_union_r. by apply Hf2.
        -- exists s. split_and!; [by apply list_elem_of_In|done|].
           intros d Hd. unfold is_ready in Hrdy.
           destruct (truthy (completed c) (name s) || truthy (failed c) (name s));
             [done|].
           rewrite forallb_forall in Hrdy.
           eapply truthy_keeps; [exact Hk2|]. eapply truthy_keeps; [exact Hk1|].
           apply Hrdy. by apply list_elem_of_In.
      * destruct (Hmem2 m Hm) as (Hfresh & Hin & Hdeps). split_and!; [|done|done].
        intros Hd. apply Hfresh. rewrite Hn1. by apply elem_of_union_l.
    + intros Hnd. apply NoDup_app. split_and!.
      * eapply sublist_NoDup; [exact Hnd|]. apply fmap_sublist, List_filter_sublist.
      * intros m Hm Hm2. destruct (Hmem2 m Hm2) as (Hfresh & _).
        apply Hfresh. rewrite Hn1. by apply elem_of_union_r, elem_of_list_to_set.
      * by apply Hnd2.
    + by etrans.
Qed.

(** X24. What a dag run starts, and when.  A step is started only when it
    is neither completed nor failed in the checkpoint the run begins with,
    and only once all its dependencies read as completed, as they still do
    at the end: a step with a dependency that never completes is never
    started, and a step that failed in an adopted checkpoint is not run
    again.  With distinct step names no step is started twice.  Entries of
    the failed map are never removed, so a dag run that begins with a
    failure in its checkpoint ends [failed]. *)
Theorem dag_respects_dependencies (steps_ : list WorkflowStep) (pc : bool)
    (c : WorkflowCheckpoint) (path : string) (w : World) :
  let r := executeDag clock executeStep steps_ pc c path w in
  ∃ l, spawned (snd r) = spawned w ++ l
       ∧ (∀ m, m ∈ l →
               completed c !! m = None ∧ failed c !! m = None
               ∧ ∃ s, s ∈ steps_ ∧ name s = m
                      ∧ ∀ d, d ∈ default [] (dependsOn s) →
                             truthy (completed (fst r)) d = true)
       ∧ (NoDup (name <$> steps_) → NoDup l)
       ∧ dom (failed c) ⊆ dom (failed (fst r))
       ∧ (failed c ≠ ∅ → status (fst r) = Failed).
Proof.
  intros r. subst r. unfold executeDag.
  destruct (dag_loop_spawns (length steps_) steps_ pc path c w)
    as (l & Hl & Hmem & Hnd & Hf).
  destruct (dag_loop clock executeStep (length steps_) steps_ pc c path w)
    as [c1 w1].
  cbn [fst snd] in Hl, Hmem, Hnd, Hf.
  destruct (saveCheckpoint_spec clock path
              (set_status (dag_final_status steps_ c1) c1) w1)
    as (_ & Hst & Hc & Hfd & Hs).
  rewrite Hst, Hc, Hfd, Hs. exists l. split_and!; [done| |done|done|].
  - intros m Hm. destruct (Hmem m Hm) as (Hfresh & _ & Hdeps).
    split_and!; [| |done].
    + apply not_elem_of_dom. intros Hd. apply Hfresh. by apply elem_of_union_l.
    + apply not_elem_of_dom. intros Hd. apply Hfresh. by apply elem_of_union_r.
  - intros Hne. cbn [status set_status]. unfold dag_final_status.
    assert (size (failed c1) ≠ 0%nat) as Hsz.
    { apply map_size_non_empty_iff. intros Hempty. apply Hne.
      apply dom_empty_iff_L. apply dom_empty_iff_L in Hempty.
      rewrite Hempty in Hf. apply set_eq. intros x. split; [apply Hf|].
      by intros ?%elem_of_empty. }
    destruct (_ =? _)%nat; [|done].
    destruct (Nat.ltb_spec 0 (size (failed c1))); [done|lia].
Qed.

End OutcomeFacts.

(** *** Resuming a sequential run *)

Lemma truthy_insert_ne {A} (m : gmap string A) (k k' : string) (x : A) :
  k ≠ k' → truthy (<[k := x]> m) k' = truthy m k'.
Proof. intros Hne. unfold truthy. by rewrite lookup_insert_ne. Qed.

Section ResumeOutcome.

Variable clock : nat → Z.

Lemma sequential_loop_failed executeStep steps_ pc path : ∀ parts c w,
  status (fst (sequential_loop clock executeStep steps_ pc parts c path w)) = Failed →
  failed (fst (sequential_loop clock executeStep steps_ pc parts c path w)) ≠ ∅.
Proof.
  induction steps_ as [|step rest IH]; intros parts c w; [done|].
  cbn [sequential_loop]. destruct (truthy (completed c) (name step)); [apply IH|].
  destruct (executeStep step _) as [res d|msg].
  - destruct (saveCheckpoint clock path _ _) as [c2 w2]. apply IH.
  - intros _. apply insert_non_empty.
Qed.

Lemma sequential_loop_all_succeed executeStep steps_ pc path :
  (∀ s context, is_rejected (executeStep s context) = false) →
  NoDup (name <$> steps_) →
  ∀ parts c w,
    let r := sequential_loop clock executeStep steps_ pc parts c path w in
    status (fst r) = Done
    ∧ spawned (snd r)
      = spawned w
        ++ (name <$> List.filter (λ s, negb (truthy (completed c) (name s))) steps_)
    ∧ failed (fst r) = failed c.
Proof.
  intros Hok. induction steps_ as [|step rest IH]; intros Hnd parts c w r; subst r.
  - split_and!; [done|by rewrite app_nil_r|done].
  - apply NoDup_cons in Hnd as [Hfresh Hnd]. cbn [sequential_loop List.filter].
    destruct (truthy (completed c) (name step)) eqn:Ht; cbn [negb].
    + by apply IH.
    + specialize (Hok step (if pc then join (nl +:+ nl) parts else "")).
      destruct (executeStep step _) as [res d|msg]; [|done].
      set (c1 := record_outcome c (name step) (Fulfilled res d)).
      destruct (saveCheckpoint_spec clock path c1 (spawn [name step] w))
        as (_ & _ & Hc2 & Hf2 & Hs2).
      destruct (saveCheckpoint clock path c1 (spawn [name step] w)) as [c2 w2].
      cbn [fst snd] in Hc2, Hf2, Hs2.
      destruct (IH Hnd (parts ++ [context_part (name step) res]) c2 w2)
        as (Hst & Hsp & Hf).
      split_and!; [done| |by rewrite Hf, Hf2].
      rewrite Hsp, Hs2. cbn [spawn spawned fmap list_fmap].
      rewrite <- (assoc_L (++)). do 3 f_equal.
      apply filter_ext_in. intros s Hs. f_equal. rewrite Hc2. unfold c1. simpl.
      apply truthy_insert_ne. intros Heq. apply Hfresh. rewrite Heq.
      apply list_elem_of_fmap. exists s. split; [done|]. by apply list_elem_of_In.
Qed.

(** X26. Resuming a failed sequential run.  Take a sequential run with
    distinct step names that ended [failed], and run the same steps again
    from a checkpoint that holds its completed and failed maps, as the
    checkpoint adopted on resume does, with every step now succeeding.  The
    second run ends [done]; it starts exactly the steps the first run did not
    complete, in step order, and keeps the results of the others.  The
    failure recorded by the first run stays in the failed map, so the summary
    of the second run has status [done] and still reports that failure and a
    non-zero stepsFailed. *)
Theorem resume_after_failure
    (executeStep1 executeStep2 : WorkflowStep → string → StepOutcome)
    (a : Args) (c0 c1 : WorkflowCheckpoint) (path : string) (w w' : World) :
  NoDup (name <$> arg_steps a) →
  (∀ s context, is_rejected (executeStep2 s context) = false) →
  let r1 := executeSequential clock executeStep1 (arg_steps a) (arg_passContext a)
              c0 path w in
  status (fst r1) = Failed →
  completed c1 = completed (fst r1) → failed c1 = failed (fst r1) →
  let r2 := executeSequential clock executeStep2 (arg_steps a) (arg_passContext a)
              c1 path w' in
  status (fst r2) = Done
  ∧ spawned (snd r2)
    = spawned w'
      ++ (name <$> List.filter (λ s, negb (truthy (completed (fst r1)) (name s)))
                     (arg_steps a))
  ∧ keeps_completed (fst r1) (fst r2)
  ∧ failed (fst r2) = failed (fst r1)
  ∧ ∃ s, fst (assemble a (fst r2) path (snd r2)) = ResultSummary s
         ∧ sum_status s = Done
         ∧ failures s = Some (failed (fst r1))
         ∧ (0 < stepsFailed s)%nat.
Proof.
  intros Hnd Hok r1 Hfailed Hc1 Hf1 r2.
  pose proof (sequential_loop_failed executeStep1 (arg_steps a) (arg_passContext a)
                path (restored_context (arg_steps a) c0) c0 w Hfailed) as Hne.
  fold (executeSequential clock executeStep1 (arg_steps a) (arg_passContext a)
          c0 path w) in Hne. fold r1 in Hne.
  destruct (sequential_loop_all_succeed executeStep2 (arg_steps a)
              (arg_passContext a) path Hok Hnd
              (restored_context (arg_steps a) c1) c1 w') as (Hst & Hsp & Hf).
  destruct (sequential_loop_keeps clock executeStep2 (arg_steps a)
              (arg_passContext a) path
              (restored_context (arg_steps a) c1) c1 w') as [Hkeep _].
  fold (executeSequential clock executeStep2 (arg_steps a) (arg_passContext a)
          c1 path w') in Hst, Hsp, Hf, Hkeep.
  fold r2 in Hst, Hsp, Hf, Hkeep. rewrite Hc1 in Hsp. rewrite Hf1 in Hf.
  split_and!; [done|done| |done|].
  - intros k r Hk. apply Hkeep. by rewrite Hc1.
  - unfold assemble. eexists. split; [reflexivity|].
    cbn [sum_status failures stepsFailed].
    rewrite Hf. apply map_size_non_empty_iff in Hne.
    destruct (Nat.ltb_spec 0 (size (failed (fst r1)))); [|lia].
    split_and!; [done|done|lia].
Qed.

End ResumeOutcome.

Lemma resume_after_failure_witness :
  let a := mkArgs sequential [plain_step "A" None; plain_step "B" None;
                              plain_step "C" None] true None (Some "L") true in
  let c0 := mkCheckpoint "L" sequential ["A"; "B"; "C"] ∅ ∅ InProgress 0 0 in
  let fails_B s (context : string) :=
    if decide (name s = "B") then Rejected "boom" else Fulfilled (name s +:+ "-ok") 5 in
  let r1 := executeSequential example_clock fails_B (arg_steps a) true c0 "p"
              empty_world in
  let r2 := executeSequential example_clock all_succeed (arg_steps a) true
              (set_status InProgress (fst r1)) "p" empty_world in
  status (fst r2) = Done ∧ spawned (snd r2) = ["B"; "C"]
  ∧ failed (fst r2) = failed (fst r1).
Proof.
  intros a c0 fails_B r1 r2.
  assert (NoDup (name <$> arg_steps a)) as Hnd.
  { apply NoDup_ListNoDup. vm_compute.
    repeat (constructor; [intros Hin; simpl in Hin; intuition discriminate|]).
    constructor. }
  assert (status (fst r1) = Failed) as Hf1 by (vm_compute; reflexivity).
  destruct (resume_after_failure example_clock fails_B all_succeed a c0
              (set_status InProgress (fst r1)) "p"
              empty_world empty_world Hnd (λ _ _, eq_refl) Hf1 eq_refl eq_refl)
    as (Hst & Hsp & _ & Hf & _).
  split_and!; [exact Hst| |exact Hf].
  etrans; [exact Hsp|]. vm_compute. reflexivity.
Defined.

End WorkflowFacts.
